(** * OData_Conv: the OData query adapter of [index.js]

    A shallow embedding of the request handler [app.get('/odata/Transactions')]
    and of its helpers [normalizeItem] and [parseSimpleFilter], together with
    the parts of the JavaScript run time they rely on: strings as sequences of
    UTF-16 code units, numbers as binary64 floats, the conversions [Number],
    [String] and the relational operators, regular expressions with
    backtracking, [Array.prototype.filter], [sort] and [slice] over a store of
    array objects, and exceptions. *)

From Stdlib Require Import Ascii String.
From Stdlib Require Import List NArith ZArith Lia Bool SpecFloat Permutation Sorted.
Import ListNotations.

Set Warnings "-register-all".
Local Open Scope Z_scope.

(* ===================================================================== *)
(** * JavaScript strings *)
(* ===================================================================== *)

(** A string is a sequence of UTF-16 code units. *)
Definition str := list N.

(** The code units of an ASCII literal. *)
Definition lit (s : string) : str := map N_of_ascii (list_ascii_of_string s).

Fixpoint str_eqb (a b : str) : bool :=
  match a, b with
  | [], [] => true
  | x :: a', y :: b' => N.eqb x y && str_eqb a' b'
  | _, _ => false
  end.

(** [a < b] on strings: lexicographic order on code units. *)
Fixpoint str_ltb (a b : str) : bool :=
  match a, b with
  | _, [] => false
  | [], _ :: _ => true
  | x :: a', y :: b' => N.ltb x y || (N.eqb x y && str_ltb a' b')
  end.

(** [String.prototype.startsWith]. *)
Fixpoint starts_with (s p : str) : bool :=
  match p, s with
  | [], _ => true
  | _ :: _, [] => false
  | y :: p', x :: s' => N.eqb x y && starts_with s' p'
  end.

Definition in_range (lo hi c : N) : bool := (N.leb lo c && N.leb c hi)%bool.

(** WhiteSpace and LineTerminator code points: what [trim] strips, what [\s]
    matches and what [Number] ignores around a numeric literal. *)
Definition is_space (c : N) : bool :=
  (in_range 9 13 c || N.eqb c 32 || N.eqb c 160 || N.eqb c 5760
   || in_range 8192 8202 c || N.eqb c 8232 || N.eqb c 8233 || N.eqb c 8239
   || N.eqb c 8287 || N.eqb c 12288 || N.eqb c 65279)%bool.

(** [\d] *)
Definition is_digit (c : N) : bool := in_range 48 57 c.

(** [\w] (no [i] or [u] flag): ASCII letters, digits and the underscore. *)
Definition is_word (c : N) : bool :=
  (in_range 97 122 c || in_range 65 90 c || is_digit c || N.eqb c 95)%bool.

Fixpoint drop_while (p : N -> bool) (s : str) : str :=
  match s with
  | [] => []
  | c :: s' => if p c then drop_while p s' else s
  end.

(** [String.prototype.trim] *)
Definition trim (s : str) : str :=
  rev (drop_while is_space (rev (drop_while is_space s))).

(** The longest prefix of [s] whose code units satisfy [p], and the rest. *)
Fixpoint span (p : N -> bool) (s : str) : str * str :=
  match s with
  | [] => ([], [])
  | c :: s' => if p c then let (a, b) := span p s' in (c :: a, b) else ([], s)
  end.

(** [String.prototype.split] with a separator of one code unit: the pieces
    between the occurrences of [sep], in order; never the empty array. *)
Fixpoint split (sep : N) (s : str) : list str :=
  match s with
  | [] => [[]]
  | c :: s' =>
      if N.eqb c sep then [] :: split sep s'
      else match split sep s' with
           | [] => [[c]]
           | p :: ps => (c :: p) :: ps
           end
  end.

(* ===================================================================== *)
(** * JavaScript numbers: binary64 *)
(* ===================================================================== *)

Definition number := spec_float.

Definition prec : Z := 53.
Definition emax : Z := 1024.

Definition NaN : number := S754_nan.
Definition pos_zero : number := S754_zero false.
Definition neg_zero : number := S754_zero true.
Definition infinity (neg : bool) : number := S754_infinity neg.

(** The number nearest to the integer [z] (ties to even). *)
Definition number_of_Z (z : Z) : number := binary_normalize prec emax z 0 false.

(** The number nearest to [m * 10^k] for [m >= 0], with sign [neg]. When
    [k < 0] the quotient by [10^-k] is taken with 64 bits or more and one more
    bit that records whether the division was inexact, so that the final
    rounding to 53 bits sees the exact position of the quotient. *)
Definition round_decimal (neg : bool) (m : Z) (k : Z) : number :=
  if m <=? 0 then S754_zero neg
  else if 0 <=? k then
    binary_normalize prec emax (if neg then - (m * 10 ^ k) else m * 10 ^ k) 0 false
  else
    let d := 10 ^ (- k) in
    let s := Z.max 0 (Z.log2 d + 64 - Z.log2 m) in
    let q := (m * 2 ^ s) / d in
    let r := (m * 2 ^ s) mod d in
    let mant := 2 * q + (if r =? 0 then 0 else 1) in
    binary_normalize prec emax (if neg then - mant else mant) (- s - 1) false.

(** The value of a digit in bases up to 16, letters in either case. *)
Definition digit_value (c : N) : option Z :=
  if in_range 48 57 c then Some (Z.of_N c - 48)
  else if in_range 97 102 c then Some (Z.of_N c - 87)
  else if in_range 65 70 c then Some (Z.of_N c - 55)
  else None.

Definition is_digit_in (base : Z) (c : N) : bool :=
  match digit_value c with
  | Some d => d <? base
  | None => false
  end.

(** The integer written by a sequence of digits of a base, most significant
    first. *)
Definition digits_value (base : Z) (ds : str) : Z :=
  fold_left (fun acc c => acc * base + match digit_value c with Some d => d | None => 0 end) ds 0.

(** ExponentPart: [e] or [E], an optional sign, one decimal digit or more,
    up to the end of the literal. The empty rest is exponent 0. *)
Definition parse_exponent (s : str) : option Z :=
  match s with
  | [] => Some 0
  | c :: s1 =>
      if (N.eqb c 101 || N.eqb c 69)%bool then
        let '(neg, s2) :=
          match s1 with
          | 43%N :: t => (false, t)
          | 45%N :: t => (true, t)
          | _ => (false, s1)
          end in
        let '(ds, rest) := span is_digit s2 in
        match ds, rest with
        | _ :: _, [] => Some (if neg then - digits_value 10 ds else digits_value 10 ds)
        | _, _ => None
        end
      else None
  end.

(** StrUnsignedDecimalLiteral: [Infinity], or digits with an optional
    fraction and exponent, at least one digit before or after the point. *)
Definition parse_unsigned_decimal (neg : bool) (s : str) : number :=
  if str_eqb s (lit "Infinity") then infinity neg
  else
    let '(ip, r1) := span is_digit s in
    let '(fp, r2) :=
      match r1 with
      | 46%N :: t => span is_digit t
      | _ => ([], r1)
      end in
    match ip ++ fp with
    | [] => NaN
    | ds =>
        match parse_exponent r2 with
        | Some e => round_decimal neg (digits_value 10 ds) (e - Z.of_nat (length fp))
        | None => NaN
        end
    end.

(** NonDecimalIntegerLiteral: [0x], [0o], [0b] (either case), then digits of
    the base up to the end. *)
Definition parse_non_decimal (s : str) : option number :=
  match s with
  | 48%N :: c :: ds =>
      let base :=
        if (N.eqb c 120 || N.eqb c 88)%bool then Some 16
        else if (N.eqb c 111 || N.eqb c 79)%bool then Some 8
        else if (N.eqb c 98 || N.eqb c 66)%bool then Some 2
        else None in
      match base, ds with
      | Some b, _ :: _ =>
          if forallb (is_digit_in b) ds then Some (number_of_Z (digits_value b ds)) else Some NaN
      | Some _, [] => Some NaN
      | None, _ => None
      end
  | _ => None
  end.

(** StringToNumber: the conversion [Number(s)] of a string. *)
Definition string_to_number (s : str) : number :=
  match trim s with
  | [] => pos_zero
  | 43%N :: t => parse_unsigned_decimal false t
  | 45%N :: t => parse_unsigned_decimal true t
  | t =>
      match parse_non_decimal t with
      | Some x => x
      | None => parse_unsigned_decimal false t
      end
  end.

(** An integer or one of the two infinities. *)
Inductive intinf : Type :=
| MinusInf
| Int (z : Z)
| PlusInf.

(** ToIntegerOrInfinity: NaN and the zeros give 0, a finite number is
    truncated towards zero. *)
Definition to_integer_or_infinity (x : number) : intinf :=
  match x with
  | S754_nan => Int 0
  | S754_zero _ => Int 0
  | S754_infinity neg => if neg then MinusInf else PlusInf
  | S754_finite neg m e =>
      let a := if 0 <=? e then Z.pos m * 2 ^ e else Z.pos m / 2 ^ (- e) in
      Int (if neg then - a else a)
  end.

(** [x === y] on numbers: NaN differs from everything, the zeros are equal. *)
Definition number_eqb (x y : number) : bool := SFeqb x y.

(** The decimal digits of [n >= 0], most significant first. *)
Fixpoint decimal_digits_from (fuel : nat) (n : Z) (acc : str) : str :=
  let acc' := Z.to_N (48 + n mod 10) :: acc in
  match fuel with
  | O => acc'
  | S fuel' => if n / 10 =? 0 then acc' else decimal_digits_from fuel' (n / 10) acc'
  end.

Definition decimal_digits (n : Z) : str :=
  decimal_digits_from (Z.to_nat (Z.log2 n)) n [].

(** [num / den < 10 ^ n], for [den > 0]. *)
Definition below_pow10 (num den n : Z) : bool :=
  if 0 <=? n then num <? 10 ^ n * den else num * 10 ^ (- n) <? den.

Fixpoint first_pow10_above (fuel : nat) (num den n : Z) : Z :=
  match fuel with
  | O => n
  | S fuel' => if below_pow10 num den n then n else first_pow10_above fuel' num den (n + 1)
  end.

(** The [n] with [10^(n-1) <= num/den < 10^n]: the search starts under the
    estimate that the binary logarithms of [num] and [den] give. *)
Definition decimal_exponent (num den : Z) : Z :=
  let l2 := Z.log2 num - Z.log2 den in
  first_pow10_above 8 num den ((l2 - 1) * 30103 / 100000 - 1).

(** The shortest digit sequence that reads back as [x = num/den]: for
    [k = 1, 2, ...] the two integers around [x * 10^(k-n)] are tried, and of
    two that read back as [x] the nearer one (the even one on a tie) wins. *)
Fixpoint shortest_digits (fuel : nat) (x : number) (num den n k : Z) : Z * Z :=
  let t := k - n in
  let '(a, b) := if 0 <=? t then (num * 10 ^ t, den) else (num, den * 10 ^ (- t)) in
  let lo := a / b in
  let hi := lo + 1 in
  let r := a mod b in
  let ok c := ((0 <? c) && number_eqb (round_decimal false c (n - k)) x)%bool in
  let lo_wins :=
    match Z.compare (2 * r) b with
    | Lt => true
    | Gt => false
    | Eq => Z.even lo
    end in
  match ok lo, ok hi, fuel with
  | true, true, _ => (if lo_wins then lo else hi, k)
  | true, false, _ => (lo, k)
  | false, true, _ => (hi, k)
  | false, false, O => (lo, k)
  | false, false, S fuel' => shortest_digits fuel' x num den n (k + 1)
  end.

Definition zeros (n : Z) : str := repeat 48%N (Z.to_nat n).

(** Number::toString in radix 10. *)
Definition number_to_string (x : number) : str :=
  match x with
  | S754_nan => lit "NaN"
  | S754_zero _ => lit "0"
  | S754_infinity neg => if neg then lit "-Infinity" else lit "Infinity"
  | S754_finite neg m e =>
      let '(num, den) := if 0 <=? e then (Z.pos m * 2 ^ e, 1) else (Z.pos m, 2 ^ (- e)) in
      let n0 := decimal_exponent num den in
      let '(c, k) := shortest_digits 20 (S754_finite false m e) num den n0 1 in
      let '(s, n) := if c =? 10 ^ k then (10 ^ (k - 1), n0 + 1) else (c, n0) in
      let ds := decimal_digits s in
      let body :=
        if ((k <=? n) && (n <=? 21))%bool then ds ++ zeros (n - k)
        else if ((0 <? n) && (n <=? 21))%bool then
          firstn (Z.to_nat n) ds ++ lit "." ++ skipn (Z.to_nat n) ds
        else if ((-6 <? n) && (n <=? 0))%bool then lit "0." ++ zeros (- n) ++ ds
        else
          let ex := n - 1 in
          let tail := lit "e" ++ (if ex <? 0 then lit "-" else lit "+") ++ decimal_digits (Z.abs ex) in
          match ds with
          | [d] => d :: tail
          | d :: rest => d :: lit "." ++ rest ++ tail
          | [] => tail
          end in
      if neg then lit "-" ++ body else body
  end.

(* ===================================================================== *)
(** * Values, exceptions and conversions *)
(* ===================================================================== *)

(** The values the handler meets: what [JSON.parse] builds from the upstream
    body, what the query-string parser puts in [req.query] (strings, arrays
    and plain objects), [undefined], and the members a plain object inherits
    from [Object.prototype]. An object is the list of its own properties; a
    key is looked up from the left. [VNative src] is an inherited member whose
    conversion to a string is [src]. *)
Inductive value : Type :=
| VUndefined
| VNull
| VBool (b : bool)
| VNum (x : number)
| VStr (s : str)
| VArr (elems : list value)
| VObj (props : list (str * value))
| VNative (src : str).

(** A thrown [Error]: its [name] and [message]. *)
Record exn : Type := Exn { exn_name : str; exn_message : str }.

Definition TypeError (msg : string) : exn := Exn (lit "TypeError") (lit msg).

(** The completion of an evaluation: a value or a thrown exception. *)
Inductive result (A : Type) : Type :=
| Ok (a : A)
| Throw (e : exn).
Arguments Ok {A} a.
Arguments Throw {A} e.

Definition rbind {A B} (r : result A) (f : A -> result B) : result B :=
  match r with
  | Ok a => f a
  | Throw e => Throw e
  end.

Declare Scope result_scope.
Delimit Scope result_scope with result.
Notation "x <- c ;; k" := (rbind c (fun x => k))
  (at level 61, c at next level, right associativity) : result_scope.

Fixpoint lookup (k : str) (props : list (str * value)) : option value :=
  match props with
  | [] => None
  | (k', v) :: rest => if str_eqb k k' then Some v else lookup k rest
  end.

Definition has_key (k : str) (props : list (str * value)) : bool :=
  match lookup k props with
  | Some _ => true
  | None => false
  end.

Definition native_function (name : string) : value :=
  VNative (lit "function " ++ lit name ++ lit "() { [native code] }").

(** The members of [Object.prototype], which every plain object inherits. *)
Definition object_prototype : list (str * value) :=
  [ (lit "constructor", native_function "Object");
    (lit "__defineGetter__", native_function "__defineGetter__");
    (lit "__defineSetter__", native_function "__defineSetter__");
    (lit "hasOwnProperty", native_function "hasOwnProperty");
    (lit "__lookupGetter__", native_function "__lookupGetter__");
    (lit "__lookupSetter__", native_function "__lookupSetter__");
    (lit "isPrototypeOf", native_function "isPrototypeOf");
    (lit "propertyIsEnumerable", native_function "propertyIsEnumerable");
    (lit "toString", native_function "toString");
    (lit "valueOf", native_function "valueOf");
    (lit "__proto__", VNative (lit "[object Object]"));
    (lit "toLocaleString", native_function "toLocaleString") ].

(** [v[k]] and [v.k]. On [null] and [undefined] the access throws. On a plain
    object the own properties come first, then [Object.prototype]. The other
    receivers (primitives, arrays) are only ever asked for the twelve field
    names of the schema, which none of them has: the access gives
    [undefined]. *)
Definition get (v : value) (k : str) : result value :=
  match v with
  | VUndefined =>
      Throw (Exn (lit "TypeError")
               (lit "Cannot read properties of undefined (reading '" ++ k ++ lit "')"))
  | VNull =>
      Throw (Exn (lit "TypeError")
               (lit "Cannot read properties of null (reading '" ++ k ++ lit "')"))
  | VObj props =>
      match lookup k props with
      | Some x => Ok x
      | None =>
          match lookup k object_prototype with
          | Some x => Ok x
          | None => Ok VUndefined
          end
      end
  | _ => Ok VUndefined
  end.

(** ToBoolean *)
Definition truthy (v : value) : bool :=
  match v with
  | VUndefined | VNull => false
  | VBool b => b
  | VNum x =>
      match x with
      | S754_nan | S754_zero _ => false
      | _ => true
      end
  | VStr s =>
      match s with
      | [] => false
      | _ => true
      end
  | VArr _ | VObj _ | VNative _ => true
  end.

(** [Array.prototype.join(",")], given the conversion of one element. *)
Fixpoint join_with {A} (f : A -> result str) (l : list A) : result str :=
  match l with
  | [] => Ok []
  | [x] => f x
  | x :: rest => (a <- f x ;; b <- join_with f rest ;; Ok (a ++ lit "," ++ b))%result
  end.

(** ToString, with ToPrimitive for objects. An array converts through
    [join(",")], where [null] and [undefined] elements give the empty string.
    A plain object converts through [Object.prototype.toString], unless it
    has an own property [toString]: data is never callable, and with the
    inherited [valueOf] returning the object itself no primitive is reached. *)
Fixpoint to_string (v : value) : result str :=
  match v with
  | VUndefined => Ok (lit "undefined")
  | VNull => Ok (lit "null")
  | VBool b => Ok (if b then lit "true" else lit "false")
  | VNum x => Ok (number_to_string x)
  | VStr s => Ok s
  | VArr elems =>
      join_with (fun x => match x with
                          | VUndefined | VNull => Ok []
                          | _ => to_string x
                          end) elems
  | VObj props =>
      if has_key (lit "toString") props
      then Throw (TypeError "Cannot convert object to primitive value")
      else Ok (lit "[object Object]")
  | VNative src => Ok src
  end.

(** ToPrimitive: primitives are unchanged, objects give the string that
    their [toString] returns (their [valueOf] returns the object itself). *)
Definition to_primitive (v : value) : result value :=
  match v with
  | VArr _ | VObj _ | VNative _ => (s <- to_string v ;; Ok (VStr s))%result
  | _ => Ok v
  end.

(** ToNumber: [Number(v)]. *)
Definition to_number (v : value) : result number :=
  (p <- to_primitive v ;;
   Ok match p with
      | VUndefined => NaN
      | VNull => pos_zero
      | VBool b => if b then number_of_Z 1 else pos_zero
      | VNum x => x
      | VStr s => string_to_number s
      | _ => NaN
      end)%result.

(** [x === y] where one side is a string or a number, as everywhere in the
    handler: equal types and equal contents. *)
Definition strict_equals (x y : value) : bool :=
  match x, y with
  | VUndefined, VUndefined => true
  | VNull, VNull => true
  | VBool a, VBool b => Bool.eqb a b
  | VNum a, VNum b => number_eqb a b
  | VStr a, VStr b => str_eqb a b
  | _, _ => false
  end.

(** [x < y]: both sides to primitives, the left one first; two strings are
    compared as strings, anything else as numbers, and a NaN on either side
    makes the comparison false. *)
Definition less_than (x y : value) : result bool :=
  (px <- to_primitive x ;;
   py <- to_primitive y ;;
   match px, py with
   | VStr a, VStr b => Ok (str_ltb a b)
   | _, _ =>
       nx <- to_number px ;;
       ny <- to_number py ;;
       Ok (SFltb nx ny)
   end)%result.

(** [x > y]: the same conversions in the same order, operands swapped in
    the comparison. *)
Definition greater_than (x y : value) : result bool :=
  (px <- to_primitive x ;;
   py <- to_primitive y ;;
   match px, py with
   | VStr a, VStr b => Ok (str_ltb b a)
   | _, _ =>
       nx <- to_number px ;;
       ny <- to_number py ;;
       Ok (SFltb ny nx)
   end)%result.

(* ===================================================================== *)
(** * Regular expressions *)
(* ===================================================================== *)

(** The fragment of the regular expression language that the three patterns
    of [parseSimpleFilter] use. [Bol] and [Eol] are [^] and [$] (no [m]
    flag); [Star] and [Opt] are the greedy [*] and [?]; [Group i r] is the
    [i]-th capturing parenthesis. *)
Inductive regex : Type :=
| Eps
| Bol
| Eol
| Class (p : N -> bool)
| Cat (r1 r2 : regex)
| Star (r : regex)
| Opt (r : regex)
| Group (i : nat) (r : regex).

(** One given code unit. *)
Definition Chr (c : N) : regex := Class (N.eqb c).

(** [r+] *)
Definition Plus (r : regex) : regex := Cat r (Star r).

(** [r{n}] *)
Fixpoint Times (n : nat) (r : regex) : regex :=
  match n with
  | O => Eps
  | S n' => Cat r (Times n' r)
  end.

(** A sequence of patterns, and a literal word. *)
Definition Seq (rs : list regex) : regex := fold_right Cat Eps rs.
Definition Word (w : string) : regex := Seq (map Chr (lit w)).

(** The texts of the groups that took part in the match, latest first. *)
Definition captures := list (nat * str).

Fixpoint capture (i : nat) (m : captures) : option str :=
  match m with
  | [] => None
  | (j, s) :: m' => if Nat.eqb i j then Some s else capture i m'
  end.

(** The backtracking matcher, in continuation-passing style: [rmatch r s pos
    caps k] matches [r] at the head of the remaining input [s], which starts
    at index [pos] of the subject, and hands the rest to [k]; alternatives
    are tried in priority order and the first success is the result. An
    iteration of [*] that consumes nothing is rejected, so the length of the
    input bounds the number of iterations. *)
Fixpoint rmatch (r : regex) (s : str) (pos : nat) (caps : captures)
    (k : str -> nat -> captures -> option captures) {struct r} : option captures :=
  match r with
  | Eps => k s pos caps
  | Bol => if Nat.eqb pos 0 then k s pos caps else None
  | Eol =>
      match s with
      | [] => k s pos caps
      | _ :: _ => None
      end
  | Class p =>
      match s with
      | c :: s' => if p c then k s' (S pos) caps else None
      | [] => None
      end
  | Cat r1 r2 => rmatch r1 s pos caps (fun s1 p1 c1 => rmatch r2 s1 p1 c1 k)
  | Opt r1 =>
      match rmatch r1 s pos caps k with
      | Some m => Some m
      | None => k s pos caps
      end
  | Group i r1 =>
      rmatch r1 s pos caps
        (fun s1 p1 c1 => k s1 p1 ((i, firstn (p1 - pos) s) :: c1))
  | Star r1 =>
      (fix loop (fuel : nat) (s : str) (pos : nat) (caps : captures) {struct fuel}
         : option captures :=
         match fuel with
         | O => k s pos caps
         | S fuel' =>
             match rmatch r1 s pos caps
                     (fun s1 p1 c1 => if Nat.eqb p1 pos then None else loop fuel' s1 p1 c1) with
             | Some m => Some m
             | None => k s pos caps
             end
         end) (length s) s pos caps
  end.

(** [RegExp.prototype.exec] without the [g] flag: the first start index, from
    the left, at which the pattern matches. *)
Fixpoint exec_from (r : regex) (s : str) (pos : nat) : option captures :=
  match rmatch r s pos [] (fun _ _ caps => Some caps) with
  | Some m => Some m
  | None =>
      match s with
      | [] => None
      | _ :: s' => exec_from r s' (S pos)
      end
  end.

(** [s.match(r)] *)
Definition regex_match (r : regex) (s : str) : option captures := exec_from r s 0%nat.

(** [m[i]] for a group that takes part in every match. *)
Definition group (i : nat) (m : captures) : str :=
  match capture i m with
  | Some s => s
  | None => []
  end.

Definition quote : N := 39.

(** [[\w\d_]] *)
Definition field_char (c : N) : bool := (is_word c || is_digit c || N.eqb c 95)%bool.

(** The first pattern of the source: the field [[\w\d_]+] in group 1, [\s+eq\s+],
    then between two quotes group 2, any run of code units other than the
    quote; anchored at both ends. *)
Definition re_string : regex :=
  Seq [ Bol; Group 1 (Plus (Class field_char)); Plus (Class is_space); Word "eq";
        Plus (Class is_space); Chr quote;
        Group 2 (Star (Class (fun c => negb (N.eqb c quote)))); Chr quote; Eol ].

(** [/^([\w\d_]+)\s+eq\s+([+-]?\d+(\.\d+)?)$/]: the second pattern. *)
Definition re_number : regex :=
  Seq [ Bol; Group 1 (Plus (Class field_char)); Plus (Class is_space); Word "eq";
        Plus (Class is_space);
        Group 2 (Seq [ Opt (Class (fun c => (N.eqb c 43 || N.eqb c 45)%bool));
                       Plus (Class is_digit);
                       Opt (Group 3 (Seq [ Chr 46; Plus (Class is_digit) ])) ]);
        Eol ].

(** [/^([\w\d_]+)\s+eq\s+(\d{4}-\d{2}-\d{2})$/]: the third pattern. *)
Definition re_date : regex :=
  Seq [ Bol; Group 1 (Plus (Class field_char)); Plus (Class is_space); Word "eq";
        Plus (Class is_space);
        Group 2 (Seq [ Times 4 (Class is_digit); Chr 45; Times 2 (Class is_digit);
                       Chr 45; Times 2 (Class is_digit) ]);
        Eol ].

(* ===================================================================== *)
(** * [normalizeItem] and [parseSimpleFilter] *)
(* ===================================================================== *)

Local Open Scope result_scope.

(** [toNum]: [null] when [v] is [null], [undefined] or the empty string, and
    [Number(v)] otherwise. *)
Definition toNum (v : value) : result value :=
  if (strict_equals v VNull || strict_equals v VUndefined || strict_equals v (VStr []))%bool
  then Ok VNull
  else (n <- to_number v ;; Ok (VNum n)).

(** [v ?? null] *)
Definition or_null (v : value) : value :=
  match v with
  | VUndefined | VNull => VNull
  | _ => v
  end.

(** [normalizeItem(item)]: the object literal, its properties evaluated in
    order. *)
Definition normalizeItem (item : value) : result value :=
  v <- get item (lit "id") ;; id <- toNum v ;;
  outlet <- get item (lit "outlet") ;;
  date <- get item (lit "date") ;;
  day <- get item (lit "day") ;;
  v <- get item (lit "guest_count") ;; guest_count <- toNum v ;;
  category <- get item (lit "category") ;;
  v <- get item (lit "quantity") ;; quantity <- toNum v ;;
  v <- get item (lit "cost_price") ;; cost_price <- toNum v ;;
  v <- get item (lit "selling_price") ;; selling_price <- toNum v ;;
  v <- get item (lit "total_sales") ;; total_sales <- toNum v ;;
  v <- get item (lit "total_cost_price") ;; total_cost_price <- toNum v ;;
  v <- get item (lit "profit") ;; profit <- toNum v ;;
  Ok (VObj [ (lit "id", id);
             (lit "outlet", or_null outlet);
             (lit "date", or_null date);
             (lit "day", or_null day);
             (lit "guest_count", guest_count);
             (lit "category", or_null category);
             (lit "quantity", quantity);
             (lit "cost_price", cost_price);
             (lit "selling_price", selling_price);
             (lit "total_sales", total_sales);
             (lit "total_cost_price", total_cost_price);
             (lit "profit", profit) ]).

(** The predicate [{ field, value, type }] that [parseSimpleFilter] returns. *)
Record parsed_filter : Type := ParsedFilter {
  pf_field : str;
  pf_value : value;
  pf_type : str
}.

(** [filter.trim()]: only a string has the method. *)
Definition call_trim (v : value) : result str :=
  match v with
  | VStr s => Ok (trim s)
  | _ => Throw (TypeError "filter.trim is not a function")
  end.

(** [parseSimpleFilter(filter)]; [None] is [null]. *)
Definition parseSimpleFilter (filter : value) : result (option parsed_filter) :=
  if negb (truthy filter) then Ok None
  else
    filter <- call_trim filter ;;
    match regex_match re_string filter with
    | Some m => Ok (Some (ParsedFilter (group 1 m) (VStr (group 2 m)) (lit "string")))
    | None =>
        match regex_match re_number filter with
        | Some m =>
            n <- to_number (VStr (group 2 m)) ;;
            Ok (Some (ParsedFilter (group 1 m) (VNum n) (lit "number")))
        | None =>
            match regex_match re_date filter with
            | Some m => Ok (Some (ParsedFilter (group 1 m) (VStr (group 2 m)) (lit "date")))
            | None => Ok None
            end
        end
    end.

(* ===================================================================== *)
(** * The store of array objects *)
(* ===================================================================== *)

(** The handler rebinds [items] to one array object after another and sorts
    one of them in place: arrays live in a store, [items] holds an address. *)
Definition loc := nat.
Definition heap := list (list value).

(** A computation that reads and writes the store and may throw. *)
Definition M (A : Type) : Type := heap -> result A * heap.

Definition mret {A} (a : A) : M A := fun h => (Ok a, h).

Definition mbind {A B} (c : M A) (f : A -> M B) : M B :=
  fun h =>
    match c h with
    | (Ok a, h') => f a h'
    | (Throw e, h') => (Throw e, h')
    end.

Definition lift {A} (r : result A) : M A := fun h => (r, h).

Declare Scope heap_scope.
Delimit Scope heap_scope with heap.
Notation "x <- c ;; k" := (mbind c (fun x => k))
  (at level 61, c at next level, right associativity) : heap_scope.

(** A new array object with the given elements; its address. *)
Definition alloc (l : list value) : M loc :=
  fun h => (Ok (length h), h ++ [l]).

(** The elements of the array at an address. *)
Definition load (a : loc) : M (list value) :=
  fun h => (Ok (nth a h []), h).

Fixpoint update (h : heap) (a : loc) (l : list value) : heap :=
  match h, a with
  | [], _ => []
  | _ :: h', O => l :: h'
  | x :: h', S a' => x :: update h' a' l
  end.

(** Overwrites the elements of the array at an address. *)
Definition store (a : loc) (l : list value) : M unit :=
  fun h => (Ok tt, update h a l).

(** ** The list computations behind the array methods *)

(** The calls of the callback of [map], left to right. *)
Fixpoint map_result (f : value -> result value) (l : list value) : result (list value) :=
  match l with
  | [] => Ok []
  | x :: l' => (y <- f x ;; ys <- map_result f l' ;; Ok (y :: ys))%result
  end.

(** The calls of the callback of [filter], left to right. *)
Fixpoint filter_result (f : value -> result bool) (l : list value) : result (list value) :=
  match l with
  | [] => Ok []
  | x :: l' =>
      (b <- f x ;; ys <- filter_result f l' ;; Ok (if b then x :: ys else ys))%result
  end.

(** Sorting with a comparator, as a stable insertion sort: [x] goes after
    [y] when [cmp x y > 0]. The language fixes the result of [sort] only for
    a consistent comparator, and then it is the stable sorted permutation,
    which is what this computes; for the others the order is left to the
    implementation, and this need not be the order that an engine gives. A
    sequence in which every record compares as equal to its neighbour is left
    as it is, here as in V8, whose sort first takes the longest run of
    neighbours that do not descend. *)
Fixpoint insert_sorted (cmp : value -> value -> result Z) (x : value) (l : list value)
    : result (list value) :=
  match l with
  | [] => Ok [x]
  | y :: l' =>
      (c <- cmp x y ;;
       if 0 <? c then (r <- insert_sorted cmp x l' ;; Ok (y :: r)) else Ok (x :: l))%result
  end.

Fixpoint sort_result (cmp : value -> value -> result Z) (l : list value)
    : result (list value) :=
  match l with
  | [] => Ok []
  | x :: l' => (r <- sort_result cmp l' ;; insert_sorted cmp x r)%result
  end.

(** The index that [slice] makes of a relative position in an array of
    length [len]: negative positions count from the end, and everything is
    clamped to [0 .. len]. *)
Definition relative_index (len : Z) (r : intinf) : Z :=
  match r with
  | MinusInf => 0
  | Int z => if z <? 0 then Z.max (len + z) 0 else Z.min z len
  | PlusInf => len
  end.

(** The elements that [slice(start, end)] copies; [end_ = None] is an absent
    second argument. *)
Definition slice_list (l : list value) (start : number) (end_ : option number) : list value :=
  let len := Z.of_nat (length l) in
  let k := relative_index len (to_integer_or_infinity start) in
  let final :=
    match end_ with
    | None => len
    | Some e => relative_index len (to_integer_or_infinity e)
    end in
  firstn (Z.to_nat (Z.max (final - k) 0)) (skipn (Z.to_nat k) l).

(** ** The array methods *)

(** [Array.prototype.map] over the elements of the upstream array. *)
Definition array_map (f : value -> result value) (l : list value) : M loc :=
  (ys <- lift (map_result f l) ;; alloc ys)%heap.

(** [Array.prototype.filter]: a new array. *)
Definition array_filter (f : value -> result bool) (a : loc) : M loc :=
  (l <- load a ;; ys <- lift (filter_result f l) ;; alloc ys)%heap.

(** [Array.prototype.sort]: the array itself is rewritten, once the sorted
    order is known; a comparator that throws leaves it as it was. *)
Definition array_sort (cmp : value -> value -> result Z) (a : loc) : M unit :=
  (l <- load a ;; ys <- lift (sort_result cmp l) ;; store a ys)%heap.

(** [Array.prototype.slice]: a new array. *)
Definition array_slice (a : loc) (start : number) (end_ : option number) : M loc :=
  (l <- load a ;; alloc (slice_list l start end_))%heap.

(* ===================================================================== *)
(** * The handler of [GET /odata/Transactions] *)
(* ===================================================================== *)

(** [req.query]: each parameter is a string, an array or an object of the
    query-string parser, or [undefined] when absent. *)
Record query : Type := Query {
  q_top : value;
  q_skip : value;
  q_orderby : value;
  q_filter : value;
  q_count : value
}.

(** What the handler reads of the request; [req_host] is [req.get("host")],
    absent when the request has no [Host] header. *)
Record request : Type := Request {
  req_protocol : str;
  req_host : option str;
  req_query : query
}.

(** The callback of [items.filter]. *)
Definition filter_callback (parsedFilter : parsed_filter) (i : value) : result bool :=
  (val <- get i (pf_field parsedFilter) ;;
   if str_eqb (pf_type parsedFilter) (lit "number") then
     n <- to_number val ;; Ok (strict_equals (VNum n) (pf_value parsedFilter))
   else if str_eqb (pf_type parsedFilter) (lit "date") then
     s <- to_string val ;; p <- to_string (pf_value parsedFilter) ;; Ok (starts_with s p)
   else
     s <- to_string val ;; Ok (strict_equals (VStr s) (pf_value parsedFilter)))%result.

(** [$orderby.split(" ")]: only a string has the method. *)
Definition call_split (v : value) : result (list str) :=
  match v with
  | VStr s => Ok (split 32 s)
  | _ => Throw (TypeError "$orderby.split is not a function or its return value is not iterable")
  end.

(** [const dir = direction === "desc" ? -1 : 1], where [direction] is the
    second piece of the split, [undefined] when there is none. *)
Definition direction_of (pieces : list str) : Z :=
  match nth_error pieces 1 with
  | Some direction => if str_eqb direction (lit "desc") then -1 else 1
  | None => 1
  end.

(** The comparator of [items.sort]. *)
Definition sort_callback (field : str) (dir : Z) (a b : value) : result Z :=
  (x <- get a field ;; y <- get b field ;; gt <- greater_than x y ;;
   if gt then Ok dir
   else
     x <- get a field ;; y <- get b field ;; lt <- less_than x y ;;
     if lt then Ok (- dir) else Ok 0)%result.

(** The body of the OData answer and of the error answers. *)
Inductive body : Type :=
| ODataResponse (context : str) (items : list value) (count : option nat)
| ErrorResponse (error : str) (status : option N).

(** The template literal of ["@odata.context"]. *)
Definition odata_context (req : request) : str :=
  req_protocol req ++ lit "://"
  ++ match req_host req with Some h => h | None => lit "undefined" end
  ++ lit "/odata/$metadata#Transactions".

(** [// Apply server-side $filter (simple eq)] *)
Definition apply_filter (filter : value) (items : loc) : M loc :=
  (parsedFilter <- lift (parseSimpleFilter filter) ;;
   match parsedFilter with
   | Some pf => array_filter (filter_callback pf) items
   | None => mret items
   end)%heap.

(** [// Apply $orderby]: [items] keeps its address. *)
Definition apply_orderby (orderby : value) (items : loc) : M unit :=
  (if truthy orderby then
     pieces <- lift (call_split orderby) ;;
     array_sort (sort_callback (nth 0 pieces []) (direction_of pieces)) items
   else mret tt)%heap.

(** [// Apply $skip] *)
Definition apply_skip (skip : value) (items : loc) : M loc :=
  (if truthy skip then
     n <- lift (to_number skip) ;; array_slice items n None
   else mret items)%heap.

(** [// Apply $top] *)
Definition apply_top (top : value) (items : loc) : M loc :=
  (if truthy top then
     n <- lift (to_number top) ;; array_slice items pos_zero (Some n)
   else mret items)%heap.

(** The four statements in the order of the source; the address that
    [items] holds at the end. *)
Definition pipeline (q : query) (items : loc) : M loc :=
  (items <- apply_filter (q_filter q) items ;;
   _ <- apply_orderby (q_orderby q) items ;;
   items <- apply_skip (q_skip q) items ;;
   apply_top (q_top q) items)%heap.

(** [$count === "true"] *)
Definition count_requested (q : query) : bool :=
  strict_equals (q_count q) (VStr (lit "true")).

(** [Array.isArray(data) ? data : []]: the elements of the upstream body when
    it is an array, none otherwise. *)
Definition elements (data : value) : list value :=
  match data with
  | VArr elems => elems
  | _ => []
  end.

(** The handler from [let items = ...] to the assembly of [odataResponse],
    given the parsed upstream body [data]. *)
Definition respond (req : request) (data : value) : M body :=
  let q := req_query req in
  let items := elements data in
  (items <- array_map normalizeItem items ;;
   items <- pipeline q items ;;
   value <- load items ;;
   mret (ODataResponse (odata_context req) value
           (if count_requested q then Some (length value) else None)))%heap.

(** What the upstream server does with the request: it answers with a status
    after [ms] milliseconds and its body then parses, fails to parse or never
    ends; or the connection fails after [ms] milliseconds; or nothing ever
    comes back. *)
Inductive body_read : Type :=
| BodyJson (data : value)
| BodyFails (e : exn)
| BodyStalls.

Inductive upstream : Type :=
| UpResponds (ms : N) (status : N) (payload : body_read)
| UpFails (ms : N) (e : exn)
| UpSilent.

Inductive fetch_outcome : Type :=
| Resolved (status : N) (payload : body_read)
| Rejected (e : exn)
| Pending.

Definition AbortError : exn := Exn (lit "AbortError") (lit "The user aborted a request.").

(** [setTimeout(() => controller.abort(), 10000)] *)
Definition timeout_ms : N := 10000.

(** [await fetch(upstreamUrl, { ..., signal })] of part_000: the timer of
    10 s aborts a fetch that has not settled before. *)
Definition fetch_with_timeout (u : upstream) : fetch_outcome :=
  match u with
  | UpResponds ms status payload =>
      if N.ltb ms timeout_ms then Resolved status payload else Rejected AbortError
  | UpFails ms e => if N.ltb ms timeout_ms then Rejected e else Rejected AbortError
  | UpSilent => Rejected AbortError
  end.

(** [await fetch(upstreamUrl, ...)] of index.js: no timer. *)
Definition fetch_plain (u : upstream) : fetch_outcome :=
  match u with
  | UpResponds _ status payload => Resolved status payload
  | UpFails _ e => Rejected e
  | UpSilent => Pending
  end.

(** [response.ok] *)
Definition response_ok (status : N) : bool := in_range 200 299 status.

Record response : Type := Response { res_status : N; res_body : body }.

(** The [catch] block of part_000. *)
Definition on_error (e : exn) : response :=
  if str_eqb (exn_name e) (lit "AbortError")
  then Response 504 (ErrorResponse (lit "Upstream timeout") None)
  else Response 500 (ErrorResponse (exn_message e) None).

(** The [catch] block of index.js. *)
Definition on_error_plain (e : exn) : response :=
  Response 500 (ErrorResponse (exn_message e) None).

(** The handler after the fetch has settled; the store starts empty with
    each request. [None]: no answer is ever sent. *)
Definition answer (catch : exn -> response) (req : request) (f : fetch_outcome)
    : option response :=
  match f with
  | Pending => None
  | Rejected e => Some (catch e)
  | Resolved status payload =>
      if negb (response_ok status)
      then Some (Response 500 (ErrorResponse (lit "Upstream API error") (Some status)))
      else
        match payload with
        | BodyStalls => None
        | BodyFails e => Some (catch e)
        | BodyJson data =>
            match fst (respond req data []) with
            | Ok b => Some (Response 200 b)
            | Throw e => Some (catch e)
            end
        end
  end.

(** [app.get('/odata/Transactions', ...)] of part_000, for a request that the
    middleware [requireBasicAuth] has let through. *)
Definition handler (req : request) (u : upstream) : option response :=
  answer on_error req (fetch_with_timeout u).

(** [app.get('/odata/Transactions', ...)] of index.js. *)
Definition handler_plain (req : request) (u : upstream) : option response :=
  answer on_error_plain req (fetch_plain u).

(** The pipeline on a normalized sequence [l] that sits alone in the store:
    the completion with the final result set, and the store at the end. *)
Definition run_pipeline (q : query) (l : list value) : result (list value) * heap :=
  ((items <- alloc l ;; items <- pipeline q items ;; load items)%heap) [].

(* ===================================================================== *)
(** * The words of the specification *)
(* ===================================================================== *)

(** ** The stages as plain list transformations

    "Manually filtering, then sorting, then slicing" a list: each stage as a
    function from lists to lists, with no store. *)

Definition filter_stage (filter : value) (l : list value) : result (list value) :=
  (parsedFilter <- parseSimpleFilter filter ;;
   match parsedFilter with
   | Some pf => filter_result (filter_callback pf) l
   | None => Ok l
   end)%result.

Definition order_stage (orderby : value) (l : list value) : result (list value) :=
  (if truthy orderby then
     pieces <- call_split orderby ;;
     sort_result (sort_callback (nth 0 pieces []) (direction_of pieces)) l
   else Ok l)%result.

Definition skip_stage (skip : value) (l : list value) : result (list value) :=
  (if truthy skip then n <- to_number skip ;; Ok (slice_list l n None) else Ok l)%result.

Definition top_stage (top : value) (l : list value) : result (list value) :=
  (if truthy top then n <- to_number top ;; Ok (slice_list l pos_zero (Some n)) else Ok l)%result.

(** Filter, then order, then skip, then top. *)
Definition staged (q : query) (l : list value) : result (list value) :=
  (l1 <- filter_stage (q_filter q) l ;;
   l2 <- order_stage (q_orderby q) l1 ;;
   l3 <- skip_stage (q_skip q) l2 ;;
   top_stage (q_top q) l3)%result.

(** ** Sample data

    The upstream row [{ "id": n }], the record that [normalizeItem] makes of
    it, and a request for a query. *)
Definition row (n : Z) : value := VObj [ (lit "id", VNum (number_of_Z n)) ].

Definition record (n : Z) : value :=
  VObj [ (lit "id", VNum (number_of_Z n)); (lit "outlet", VNull); (lit "date", VNull);
         (lit "day", VNull); (lit "guest_count", VNull); (lit "category", VNull);
         (lit "quantity", VNull); (lit "cost_price", VNull); (lit "selling_price", VNull);
         (lit "total_sales", VNull); (lit "total_cost_price", VNull);
         (lit "profit", VNull) ].

Definition request_for (q : query) : request :=
  Request (lit "http") (Some (lit "localhost:3000")) q.

Definition context_of_sample : str :=
  lit "http://localhost:3000/odata/$metadata#Transactions".

(** ** The upstream fetch against the timer

    The fetch "exceeds the bounded timeout" when the GET is not over 10 000 ms
    after the request: the server is silent, or what it does comes later, or
    it sends its status in time and then a body that never ends. *)
Definition exceeds_timeout (u : upstream) : bool :=
  match u with
  | UpResponds ms _ payload =>
      (N.ltb timeout_ms ms
       || match payload with
          | BodyStalls => true
          | _ => false
          end)%bool
  | UpFails ms _ => N.ltb timeout_ms ms
  | UpSilent => true
  end.

(** ** The filter grammar

    The three forms of section 4.2, read off the text: a field of word
    characters, [eq] between two runs of whitespace, and a literal. *)

Definition is_field (f : str) : Prop :=
  f <> [] /\ Forall (fun c => is_word c = true) f.

Definition is_blank (w : str) : Prop :=
  w <> [] /\ Forall (fun c => is_space c = true) w.

Definition is_digits (d : str) : Prop :=
  d <> [] /\ Forall (fun c => is_digit c = true) d.

(** [<field> eq <literal>] *)
Definition clause (t literal : str) : Prop :=
  exists f w1 w2,
    is_field f /\ is_blank w1 /\ is_blank w2 /\ t = f ++ w1 ++ lit "eq" ++ w2 ++ literal.

(** A quoted string with no quote inside. *)
Definition string_literal (v : str) : Prop :=
  exists text, ~ In quote text /\ v = quote :: text ++ [quote].

(** An optional sign, digits, an optional fraction. *)
Definition number_literal (v : str) : Prop :=
  exists sign whole frac,
    (sign = [] \/ sign = lit "+" \/ sign = lit "-") /\
    is_digits whole /\
    (frac = [] \/ exists d, is_digits d /\ frac = 46%N :: d) /\
    v = sign ++ whole ++ frac.

(** [YYYY-MM-DD] *)
Definition date_literal (v : str) : Prop :=
  exists y m d,
    Forall (fun c => is_digit c = true) (y ++ m ++ d) /\
    length y = 4%nat /\ length m = 2%nat /\ length d = 2%nat /\
    v = y ++ lit "-" ++ m ++ lit "-" ++ d.

Definition string_form (t : str) : Prop := exists v, string_literal v /\ clause t v.
Definition number_form (t : str) : Prop := exists v, number_literal v /\ clause t v.
Definition date_form (t : str) : Prop := exists v, date_literal v /\ clause t v.

(** ** The order specification, split "on the first whitespace"

    The text before the first whitespace code unit, and the text after it
    when there is one. *)
Fixpoint split_first_whitespace (s : str) : str * option str :=
  match s with
  | [] => ([], None)
  | c :: s' =>
      if is_space c then ([], Some s')
      else let (f, d) := split_first_whitespace s' in (c :: f, d)
  end.

(** ** Regular expressions, declaratively

    [matches r pos a rest]: [r] matches the text [a] that starts at index
    [pos] of the subject and is followed by [rest]. *)
Inductive matches : regex -> nat -> str -> str -> Prop :=
| M_Eps pos rest : matches Eps pos [] rest
| M_Bol rest : matches Bol 0 [] rest
| M_Eol pos : matches Eol pos [] []
| M_Class p c pos rest : p c = true -> matches (Class p) pos [c] rest
| M_Cat r1 r2 pos a b rest :
    matches r1 pos a (b ++ rest) ->
    matches r2 (pos + length a) b rest ->
    matches (Cat r1 r2) pos (a ++ b) rest
| M_Star_nil r pos rest : matches (Star r) pos [] rest
| M_Star_cons r pos a b rest :
    matches r pos a (b ++ rest) ->
    matches (Star r) (pos + length a) b rest ->
    matches (Star r) pos (a ++ b) rest
| M_Opt_none r pos rest : matches (Opt r) pos [] rest
| M_Opt_some r pos a rest : matches r pos a rest -> matches (Opt r) pos a rest
| M_Group i r pos a rest : matches r pos a rest -> matches (Group i r) pos a rest.

(** What a successful run of the matcher hands to its continuation: the
    text it matched, the rest, and the captures. *)
Definition sound_at (r : regex) : Prop :=
  forall s pos caps k m,
    rmatch r s pos caps k = Some m ->
    exists a rest caps',
      s = a ++ rest /\ matches r pos a rest /\
      k rest (pos + length a)%nat caps' = Some m.

(** The part that the three patterns share: [^(field)\s+eq\s+], before the
    pattern of the literal. *)
Definition clause_head (tail : regex) : regex :=
  Cat Bol (Cat (Group 1 (Plus (Class field_char))) (Cat (Plus (Class is_space))
    (Cat (Word "eq") (Cat (Plus (Class is_space)) tail)))).

(** The matcher accepts the text [a] at index [pos], followed by [rest],
    whenever the continuation accepts what follows. *)
Definition accepts (r : regex) (a rest : str) (pos : nat) : Prop :=
  forall k,
    (forall caps, exists m, k rest (pos + length a)%nat caps = Some m) ->
    forall caps, exists m, rmatch r (a ++ rest) pos caps k = Some m.

(** ** Values that convert to a string

    [String] and [Number] reach a primitive on every value except a plain
    object with an own property [toString], alone or inside arrays. *)
Fixpoint convertible (v : value) : bool :=
  match v with
  | VArr elems => forallb convertible elems
  | VObj props => negb (has_key (lit "toString") props)
  | _ => true
  end.

(** A record whose own properties all convert. *)
Definition plain_record (v : value) : bool :=
  match v with
  | VObj props => forallb (fun kv => convertible (snd kv)) props
  | _ => false
  end.

(** The value of [item.k] for a key that [Object.prototype] does not have. *)
Definition own (props : list (str * value)) (k : str) : value :=
  match lookup k props with
  | Some x => x
  | None => VUndefined
  end.

(** The twelve keys of the schema, in the order of the object literal, and
    the eight numeric ones. *)
Definition schema_keys : list str :=
  map lit [ "id"; "outlet"; "date"; "day"; "guest_count"; "category"; "quantity";
            "cost_price"; "selling_price"; "total_sales"; "total_cost_price";
            "profit" ]%string.

Definition numeric_keys : list str :=
  map lit [ "id"; "guest_count"; "quantity"; "cost_price"; "selling_price";
            "total_sales"; "total_cost_price"; "profit" ]%string.

(** [x >= z] for a number and an integer, on the exact values. *)
Definition number_geb_Z (x : number) (z : Z) : bool :=
  match x with
  | S754_nan => false
  | S754_zero _ => z <=? 0
  | S754_infinity neg => negb neg
  | S754_finite neg m e =>
      if neg then
        if 0 <=? e then z <=? - (Z.pos m * 2 ^ e) else z * 2 ^ (- e) <=? - Z.pos m
      else
        if 0 <=? e then z <=? Z.pos m * 2 ^ e else z * 2 ^ (- e) <=? Z.pos m
  end.

(** A string, or absent. *)
Definition string_or_absent (v : value) : bool :=
  match v with
  | VStr _ | VUndefined => true
  | _ => false
  end.

(** ** More words for the normalizer *)

(** The four fields that pass through. *)
Definition string_keys : list str :=
  map lit [ "outlet"; "date"; "day"; "category" ]%string.

(** The record whose twelve fields are [null]. *)
Definition null_record : value :=
  VObj (map (fun k => (k, VNull)) schema_keys).

(** [null], [undefined] and the empty string: what [toNum] turns into
    [null]. *)
Definition nullish (v : value) : bool :=
  match v with
  | VUndefined | VNull | VStr [] => true
  | _ => false
  end.

(** ** More words for the handler *)

(** The timer of part_000 fires: nothing has settled the fetch before
    10 000 ms. *)
Definition timer_fires (u : upstream) : bool :=
  match u with
  | UpResponds ms _ _ => negb (N.ltb ms timeout_ms)
  | UpFails ms _ => negb (N.ltb ms timeout_ms)
  | UpSilent => true
  end.

(** The error, if any, that the upstream side raises: a failed connection or
    a body that does not parse. *)
Definition upstream_error (u : upstream) : option exn :=
  match u with
  | UpFails _ e => Some e
  | UpResponds _ status (BodyFails e) => if response_ok status then Some e else None
  | _ => None
  end.

Definition named_abort (e : exn) : bool := str_eqb (exn_name e) (lit "AbortError").

(** ** More words for the stages *)

(** What [Array.prototype.filter] keeps, as a plain list filter: the records
    on which the callback answers [true]. *)
Definition kept_by (pf : parsed_filter) (l : list value) : list value :=
  filter (fun r => match filter_callback pf r with
                   | Ok b => b
                   | Throw _ => false
                   end) l.

(** [a] may stand before [b] in the order of [$orderby] on a field whose
    values are strings: not after it in the lexicographic order when
    ascending, not before it when descending. *)
Definition in_string_order (field : str) (dir : Z) (a b : value) : Prop :=
  exists x y,
    get a field = Ok (VStr x) /\ get b field = Ok (VStr y) /\
    (if 0 <? dir then str_ltb y x = false else str_ltb x y = false).

(** ** The order that [$orderby] asks for

    The comparator compares two field values as [>] and [<] do: two texts
    by their code units, two numbers by their value, [null] counting as 0.
    NaN is neither greater nor less than anything, and a text beside [null]
    or beside a number is compared as the number it converts to: on such
    fields the comparator describes no order. The fields that have an order
    are those that hold texts only, or numbers other than NaN and [null]
    only. *)
Inductive kind : Type := Text | Numeric.

Definition numeric_key (v : value) : option number :=
  match v with
  | VNum S754_nan => None
  | VNum x => Some x
  | VNull => Some pos_zero
  | _ => None
  end.

Definition of_kind (k : kind) (v : value) : Prop :=
  match k with
  | Text => exists s, v = VStr s
  | Numeric => exists n, numeric_key v = Some n
  end.

(** Every record holds a value of kind [k] in the field. *)
Definition holds (k : kind) (field : str) (r : value) : Prop :=
  exists x, get r field = Ok x /\ of_kind k x.

(** [x] is not greater than [y]. *)
Definition not_greater (x y : value) : Prop :=
  match x, y with
  | VStr a, VStr b => str_ltb b a = false
  | _, _ =>
      exists nx ny,
        numeric_key x = Some nx /\ numeric_key y = Some ny /\ SFltb ny nx = false
  end.

(** [a] may stand before [b] in a sequence that ascends, or descends, on the
    field: a sequence is sorted when this holds of every record and every
    later one. *)
Definition ascending (field : str) (a b : value) : Prop :=
  exists x y, get a field = Ok x /\ get b field = Ok y /\ not_greater x y.

Definition descending (field : str) (a b : value) : Prop :=
  exists x y, get a field = Ok x /\ get b field = Ok y /\ not_greater y x.

(** The place of a number other than NaN in the order of numbers: the
    comparison of two numbers is the lexicographic comparison of their
    ranks. *)
Definition rank (x : number) : Z * Z * Z :=
  match x with
  | S754_nan => (0, 0, 0)
  | S754_infinity true => (-2, 0, 0)
  | S754_infinity false => (2, 0, 0)
  | S754_zero _ => (0, 0, 0)
  | S754_finite true m e => (-1, - e, - Z.pos m)
  | S754_finite false m e => (1, e, Z.pos m)
  end.

Definition rank_lt (a b : Z * Z * Z) : Prop :=
  let '(a1, a2, a3) := a in
  let '(b1, b2, b3) := b in
  a1 < b1 \/ (a1 = b1 /\ (a2 < b2 \/ (a2 = b2 /\ a3 < b3))).

(** A record with one field. *)
Definition with_field (k : string) (v : value) : value := VObj [ (lit k, v) ].

(** ** Matches with their captures

    [captured r pos a rest c c']: [r] matches [a] at index [pos] before
    [rest], and takes the captures from [c] to [c']: each group that matches
    puts its text on top. *)
Inductive captured : regex -> nat -> str -> str -> captures -> captures -> Prop :=
| C_Eps pos rest c : captured Eps pos [] rest c c
| C_Bol rest c : captured Bol 0 [] rest c c
| C_Eol pos c : captured Eol pos [] [] c c
| C_Class p ch pos rest c : p ch = true -> captured (Class p) pos [ch] rest c c
| C_Cat r1 r2 pos a b rest c c1 c2 :
    captured r1 pos a (b ++ rest) c c1 ->
    captured r2 (pos + length a) b rest c1 c2 ->
    captured (Cat r1 r2) pos (a ++ b) rest c c2
| C_Star_nil r pos rest c : captured (Star r) pos [] rest c c
| C_Star_cons r pos a b rest c c1 c2 :
    captured r pos a (b ++ rest) c c1 ->
    captured (Star r) (pos + length a) b rest c1 c2 ->
    captured (Star r) pos (a ++ b) rest c c2
| C_Opt_none r pos rest c : captured (Opt r) pos [] rest c c
| C_Opt_some r pos a rest c c1 :
    captured r pos a rest c c1 -> captured (Opt r) pos a rest c c1
| C_Group i r pos a rest c c1 :
    captured r pos a rest c c1 -> captured (Group i r) pos a rest c ((i, a) :: c1).

(** A pattern with no group in it. *)
Fixpoint groupless (r : regex) : bool :=
  match r with
  | Cat r1 r2 => groupless r1 && groupless r2
  | Star r1 | Opt r1 => groupless r1
  | Group _ _ => false
  | _ => true
  end.

(** The patterns of the three literals, after the shared head. *)
Definition string_tail : regex :=
  Cat (Chr quote) (Cat (Group 2 (Star (Class (fun c => negb (N.eqb c quote)))))
    (Cat (Chr quote) (Cat Eol Eps))).

Definition number_body : regex :=
  Seq [ Opt (Class (fun c => (N.eqb c 43 || N.eqb c 45)%bool));
        Plus (Class is_digit);
        Opt (Group 3 (Seq [ Chr 46; Plus (Class is_digit) ])) ].

Definition date_body : regex :=
  Seq [ Times 4 (Class is_digit); Chr 45; Times 2 (Class is_digit);
        Chr 45; Times 2 (Class is_digit) ].

(* ===================================================================== *)
(** * Basic authentication of the OData routes *)
(* ===================================================================== *)

(** The later version of the service puts [requireBasicAuth] in front of
    every route under [/odata]. *)

(** ** UTF-8

    [Buffer.from(s)] holds the UTF-8 encoding of the string: a surrogate pair
    is one code point of four bytes, and a surrogate without its partner is
    encoded as U+FFFD. *)
Definition is_high (c : N) : bool := in_range 55296 56319 c.
Definition is_low (c : N) : bool := in_range 56320 57343 c.

Definition utf8_of_code_point (cp : N) : list N :=
  (if cp <? 128 then [cp]
   else if cp <? 2048 then [192 + cp / 64; 128 + cp mod 64]
   else if cp <? 65536 then [224 + cp / 4096; 128 + (cp / 64) mod 64; 128 + cp mod 64]
   else [240 + cp / 262144; 128 + (cp / 4096) mod 64; 128 + (cp / 64) mod 64;
         128 + cp mod 64])%N.

Definition replacement : list N := utf8_of_code_point 65533.

Fixpoint utf8 (s : str) : list N :=
  match s with
  | [] => []
  | c :: s' =>
      if is_high c then
        match s' with
        | lo :: s'' =>
            if is_low lo
            then utf8_of_code_point (65536 + (c - 55296) * 1024 + (lo - 56320))%N ++ utf8 s''
            else replacement ++ utf8 s'
        | [] => replacement
        end
      else if is_low c then replacement ++ utf8 s'
      else utf8_of_code_point c ++ utf8 s'
  end.

(** Well-formed UTF-16: code units of 16 bits, every surrogate in a pair. *)
Fixpoint well_formed (s : str) : bool :=
  match s with
  | [] => true
  | c :: s' =>
      if is_high c then
        match s' with
        | lo :: s'' => is_low lo && well_formed s''
        | [] => false
        end
      else negb (is_low c) && (c <? 65536)%N && well_formed s'
  end.

(** The text that a UTF-8 encoding stands for, read one sequence of one to
    four bytes at a time. *)
Fixpoint utf16_of_utf8 (bs : list N) : str :=
  match bs with
  | [] => []
  | b1 :: r1 =>
      if (b1 <? 128)%N then b1 :: utf16_of_utf8 r1
      else
        match r1 with
        | [] => []
        | b2 :: r2 =>
            if (b1 <? 224)%N then ((b1 - 192) * 64 + (b2 - 128))%N :: utf16_of_utf8 r2
            else
              match r2 with
              | [] => []
              | b3 :: r3 =>
                  if (b1 <? 240)%N
                  then ((b1 - 224) * 4096 + (b2 - 128) * 64 + (b3 - 128))%N :: utf16_of_utf8 r3
                  else
                    match r3 with
                    | [] => []
                    | b4 :: r4 =>
                        let v := ((b1 - 240) * 262144 + (b2 - 128) * 4096 + (b3 - 128) * 64
                                  + (b4 - 128) - 65536)%N in
                        (55296 + v / 1024)%N :: (56320 + v mod 1024)%N :: utf16_of_utf8 r4
                    end
              end
        end
  end.

(** ** [safeEqual] *)

Definition RangeError (msg : string) : exn := Exn (lit "RangeError") (lit msg).

(** [crypto.timingSafeEqual]: it refuses buffers of different lengths. *)
Definition timingSafeEqual (a b : list N) : result bool :=
  if Nat.eqb (length a) (length b) then Ok (str_eqb a b)
  else Throw (RangeError "Input buffers must have the same byte length").

(** [safeEqual(a, b)]: whatever is thrown inside counts as a difference. *)
Definition safeEqual (a b : value) : bool :=
  match
    (sa <- to_string a ;;
     let bufA := utf8 sa in
     sb <- to_string b ;;
     let bufB := utf8 sb in
     if negb (Nat.eqb (length bufA) (length bufB)) then Ok false
     else timingSafeEqual bufA bufB)%result
  with
  | Ok r => r
  | Throw _ => false
  end.

(** ** [requireBasicAuth] *)

(** [Array.prototype.join(sep)] on an array of strings. *)
Fixpoint join (sep : str) (l : list str) : str :=
  match l with
  | [] => []
  | [x] => x
  | x :: rest => x ++ sep ++ join sep rest
  end.

(** A variable of [process.env]: a string, or [undefined] when it is not set. *)
Definition env (x : option str) : value :=
  match x with
  | Some s => VStr s
  | None => VUndefined
  end.

(** What the middleware does with a request: it hands it on, or it answers. *)
Inductive auth_result : Type :=
| Next
| Reply (status : Z) (www_authenticate : str) (error : str).

(** [res.set('WWW-Authenticate', ...)] and [res.status(401).json(...)]; the
    realm is written between double quotes, code unit 34. *)
Definition unauthorized : auth_result :=
  Reply 401 (lit "Basic realm=" ++ [34%N] ++ lit "OData" ++ [34%N]) (lit "Unauthorized").

(** [split.shift()]: the first piece, [undefined] when there is none. *)
Definition shift (pieces : list str) : value * list str :=
  match pieces with
  | [] => (VUndefined, [])
  | p :: rest => (VStr p, rest)
  end.

(** [requireBasicAuth(req, res, next)] for the configured [ODATA_USER] and
    [ODATA_PASS] and the [authorization] header of the request, absent or a
    string. [from_base64] is [Buffer.from(x, 'base64').toString('utf8')],
    Node's decoding of base64 and then of UTF-8: the middleware is modelled
    for any such function, and what it throws is answered like a bad
    header. The warning that the first branch logs is left out. *)
Definition requireBasicAuth (from_base64 : str -> result str)
    (ODATA_USER ODATA_PASS : option str) (authorization : option str) : auth_result :=
  if (negb (truthy (env ODATA_USER)) || negb (truthy (env ODATA_PASS)))%bool then Next
  else
    let auth := env authorization in
    match auth with
    | VStr a =>
        if (negb (truthy auth) || negb (starts_with a (lit "Basic ")))%bool then unauthorized
        else
          let base64Cred := skipn (length (lit "Basic ")) a in
          match from_base64 base64Cred with
          | Throw _ => unauthorized
          | Ok decoded =>
              let (user, split) := shift (split 58 decoded) in
              let pass := join (lit ":") split in
              if (safeEqual user (env ODATA_USER) && safeEqual (VStr pass) (env ODATA_PASS))%bool
              then Next
              else unauthorized
          end
    | _ => unauthorized
    end.

(* ===================================================================== *)
(** * Strings: basic facts *)
(* ===================================================================== *)

Lemma str_eqb_eq (a b : str) : str_eqb a b = true <-> a = b.
Proof.
  revert b; induction a as [|x a IH]; intros [|y b]; simpl; split; intro H;
    try reflexivity; try discriminate.
  - apply andb_prop in H as [Hx Hr]. apply N.eqb_eq in Hx. apply IH in Hr. congruence.
  - inversion H; subst. rewrite N.eqb_refl. simpl. now apply IH.
Qed.


Lemma str_eqb_neq (a b : str) : str_eqb a b = false <-> a <> b.
Proof.
  split.
  - intros H E. apply str_eqb_eq in E. congruence.
  - intro H. destruct (str_eqb a b) eqn:E; [|reflexivity].
    apply str_eqb_eq in E. contradiction.
Qed.

(* ===================================================================== *)
(** * The matcher is sound for the declarative reading *)
(* ===================================================================== *)

Section MatcherSound.

Lemma sound_star (r : regex) : sound_at r -> sound_at (Star r).
Proof.
  intros IHr s pos caps k m. simpl.
  generalize (length s) as fuel. intro fuel.
  revert s pos caps.
  induction fuel as [|fuel IHf]; intros s pos caps H.
  - exists [], s, caps. rewrite Nat.add_0_r. repeat split; [constructor | exact H].
  - match type of H with
    | match ?X with _ => _ end = _ => destruct X as [m'|] eqn:E
    end.
    + inversion H; subst m'. apply IHr in E as (a & rest & caps' & -> & Ha & Hk).
      destruct (Nat.eqb (pos + length a) pos); [discriminate|].
      apply IHf in Hk as (b & rest' & caps'' & -> & Hb & Hk).
      exists (a ++ b), rest', caps''. rewrite length_app, Nat.add_assoc, app_assoc.
      repeat split; [|exact Hk]. now constructor.
    + exists [], s, caps. rewrite Nat.add_0_r. repeat split; [constructor | exact H].
Qed.

Lemma rmatch_sound (r : regex) : sound_at r.
Proof.
  induction r as [ | | | p | r1 IH1 r2 IH2 | r IH | r IH | i r IH ].
  - intros s pos caps k m H. simpl in H.
    exists [], s, caps. rewrite Nat.add_0_r. repeat split; [constructor | exact H].
  - intros s pos caps k m H. simpl in H.
    destruct (Nat.eqb pos 0) eqn:E; [|discriminate]. apply Nat.eqb_eq in E. subst pos.
    exists [], s, caps. repeat split; [constructor | exact H].
  - intros s pos caps k m H. simpl in H. destruct s; [|discriminate].
    exists [], [], caps. rewrite Nat.add_0_r. repeat split; [constructor | exact H].
  - intros s pos caps k m H. simpl in H. destruct s as [|c s]; [discriminate|].
    destruct (p c) eqn:E; [|discriminate].
    exists [c], s, caps. simpl. rewrite Nat.add_1_r.
    repeat split; [now constructor | exact H].
  - intros s pos caps k m H. simpl in H.
    apply IH1 in H as (a & rest & caps' & -> & Ha & H).
    apply IH2 in H as (b & rest' & caps'' & -> & Hb & H).
    exists (a ++ b), rest', caps''. rewrite length_app, Nat.add_assoc, app_assoc.
    repeat split; [|exact H]. now constructor.
  - now apply sound_star.
  - intros s pos caps k m H. simpl in H.
    destruct (rmatch r s pos caps k) as [m'|] eqn:E.
    + inversion H; subst m'. apply IH in E as (a & rest & caps' & -> & Ha & Hk).
      exists a, rest, caps'. repeat split; [|exact Hk]. now constructor.
    + exists [], s, caps. rewrite Nat.add_0_r. repeat split; [constructor | exact H].
  - intros s pos caps k m H. simpl in H.
    apply IH in H as (a & rest & caps' & -> & Ha & Hk).
    eexists a, rest, _. repeat split; [|exact Hk]. now constructor.
Qed.

End MatcherSound.

(** ** Reading a match back *)

Lemma matches_cat r1 r2 pos s rest :
  matches (Cat r1 r2) pos s rest ->
  exists a b, s = a ++ b /\ matches r1 pos a (b ++ rest) /\
              matches r2 (pos + length a)%nat b rest.
Proof. intro H. inversion H; subst. eauto. Qed.

Lemma matches_class p pos s rest :
  matches (Class p) pos s rest -> exists c, s = [c] /\ p c = true.
Proof. intro H. inversion H; subst. eauto. Qed.

Lemma matches_eps pos s rest : matches Eps pos s rest -> s = [].
Proof. intro H. now inversion H. Qed.

Lemma matches_eol pos s rest : matches Eol pos s rest -> s = [] /\ rest = [].
Proof. intro H. now inversion H. Qed.

Lemma matches_group i r pos s rest :
  matches (Group i r) pos s rest -> matches r pos s rest.
Proof. intro H. now inversion H. Qed.

Lemma matches_opt r pos s rest :
  matches (Opt r) pos s rest -> s = [] \/ matches r pos s rest.
Proof. intro H. inversion H; subst; auto. Qed.

Lemma matches_star_class p pos s rest :
  matches (Star (Class p)) pos s rest -> Forall (fun c => p c = true) s.
Proof.
  intro H. remember (Star (Class p)) as r eqn:E.
  induction H; try discriminate.
  - constructor.
  - inversion E; subst. apply Forall_app. split; [|now apply IHmatches2].
    apply matches_class in H as (c & -> & Hc). now repeat constructor.
Qed.

Lemma matches_plus_class p pos s rest :
  matches (Plus (Class p)) pos s rest -> s <> [] /\ Forall (fun c => p c = true) s.
Proof.
  intro H. apply matches_cat in H as (a & b & -> & Ha & Hb).
  apply matches_class in Ha as (c & -> & Hc). apply matches_star_class in Hb.
  split; [discriminate|]. now constructor.
Qed.

Lemma matches_chr c pos s rest : matches (Chr c) pos s rest -> s = [c].
Proof.
  intro H. apply matches_class in H as (c' & -> & Hc). apply N.eqb_eq in Hc. now subst.
Qed.

Lemma matches_word_eq pos s rest : matches (Word "eq") pos s rest -> s = lit "eq".
Proof.
  intro H. apply matches_cat in H as (a & b & -> & Ha & Hb). apply matches_chr in Ha as ->.
  apply matches_cat in Hb as (a & b' & -> & Ha & Hb). apply matches_chr in Ha as ->.
  apply matches_eps in Hb as ->. reflexivity.
Qed.

Lemma matches_times_class p n pos s rest :
  matches (Times n (Class p)) pos s rest ->
  length s = n /\ Forall (fun c => p c = true) s.
Proof.
  revert pos s. induction n as [|n IH]; intros pos s H; simpl in H.
  - apply matches_eps in H as ->. now split.
  - apply matches_cat in H as (a & b & -> & Ha & Hb).
    apply matches_class in Ha as (c & -> & Hc). apply IH in Hb as [Hl Hf].
    simpl. split; [now f_equal | now constructor].
Qed.

Lemma field_char_word c : field_char c = is_word c.
Proof.
  unfold field_char, is_word.
  destruct (in_range 97 122 c), (in_range 65 90 c), (is_digit c), (N.eqb c 95); reflexivity.
Qed.

Lemma matches_clause_head (tail : regex) pos s rest :
  matches (clause_head tail) pos s rest ->
  exists f w1 w2 v p,
    is_field f /\ is_blank w1 /\ is_blank w2 /\
    s = f ++ w1 ++ lit "eq" ++ w2 ++ v /\ matches tail p v rest.
Proof.
  unfold clause_head. intro H.
  apply matches_cat in H as (a0 & s0 & -> & H0 & H). inversion H0; subst. clear H0.
  apply matches_cat in H as (f & s1 & -> & Hf & H). apply matches_group in Hf.
  apply matches_plus_class in Hf as [Hf1 Hf2].
  apply matches_cat in H as (w1 & s2 & -> & Hw1 & H). apply matches_plus_class in Hw1.
  apply matches_cat in H as (e & s3 & -> & He & H). apply matches_word_eq in He as ->.
  apply matches_cat in H as (w2 & v & -> & Hw2 & H). apply matches_plus_class in Hw2.
  exists f, w1, w2, v. eexists. repeat split; try tauto; [|exact H].
  eapply Forall_impl; [|exact Hf2]. intros c Hc. now rewrite <- field_char_word.
Qed.

(** A pattern that starts with [^] matches at index 0 or nowhere. *)
Lemma exec_from_bol tail s pos :
  pos <> 0%nat -> exec_from (Cat Bol tail) s pos = None.
Proof.
  revert pos. induction s as [|c s IH]; intros pos Hpos; simpl;
    destruct (Nat.eqb pos 0) eqn:E;
    try (apply Nat.eqb_eq in E; contradiction); auto.
Qed.

Lemma regex_match_anchored tail s m :
  regex_match (Cat Bol tail) s = Some m ->
  exists a rest, s = a ++ rest /\ matches (Cat Bol tail) 0 a rest.
Proof.
  unfold regex_match. intro H.
  assert (E : rmatch (Cat Bol tail) s 0 [] (fun _ _ caps => Some caps) = Some m).
  { destruct s as [|c s]; simpl in H |- *.
    - now destruct (rmatch tail [] 0 [] (fun _ _ caps => Some caps)).
    - destruct (rmatch tail (c :: s) 0 [] (fun _ _ caps => Some caps)); [exact H|].
      rewrite exec_from_bol in H by discriminate. discriminate. }
  apply rmatch_sound in E as (a & rest & caps' & -> & Ha & _). eauto.
Qed.

Ltac close_clause f w1 w2 :=
  exists f, w1, w2; rewrite ?app_nil_r; simpl;
  repeat match goal with |- _ /\ _ => split end; try assumption; try reflexivity.

Lemma match_string_form t m : regex_match re_string t = Some m -> string_form t.
Proof.
  intro H. change re_string with
    (clause_head (Cat (Chr quote) (Cat (Group 2 (Star (Class (fun c => negb (N.eqb c quote)))))
       (Cat (Chr quote) (Cat Eol Eps))))) in H.
  apply regex_match_anchored in H as (a & rest & -> & H).
  apply matches_clause_head in H as (f & w1 & w2 & v & p & Hf & Hw1 & Hw2 & -> & H).
  apply matches_cat in H as (q1 & s1 & -> & Hq1 & H). apply matches_chr in Hq1 as ->.
  apply matches_cat in H as (text & s2 & -> & Ht & H). apply matches_group in Ht.
  apply matches_star_class in Ht.
  apply matches_cat in H as (q2 & s3 & -> & Hq2 & H). apply matches_chr in Hq2 as ->.
  apply matches_cat in H as (z & s4 & -> & Hz & H). apply matches_eol in Hz as [-> Hnil].
  apply app_eq_nil in Hnil as [-> ->].
  exists (quote :: text ++ [quote]). split.
  - exists text. split; [|reflexivity]. intro Hin.
    rewrite Forall_forall in Ht. apply Ht in Hin. now rewrite N.eqb_refl in Hin.
  - now close_clause f w1 w2.
Qed.

Lemma match_number_form t m : regex_match re_number t = Some m -> number_form t.
Proof.
  intro H. change re_number with
    (clause_head (Cat (Group 2 (Seq [ Opt (Class (fun c => (N.eqb c 43 || N.eqb c 45)%bool));
                                      Plus (Class is_digit);
                                      Opt (Group 3 (Seq [ Chr 46; Plus (Class is_digit) ])) ]))
       (Cat Eol Eps))) in H.
  apply regex_match_anchored in H as (a & rest & -> & H).
  apply matches_clause_head in H as (f & w1 & w2 & v & p & Hf & Hw1 & Hw2 & -> & H).
  apply matches_cat in H as (n & s1 & -> & Hn & H). apply matches_group in Hn.
  apply matches_cat in H as (z & s2 & -> & Hz & H). apply matches_eol in Hz as [-> Hnil].
  apply app_eq_nil in Hnil as [-> ->]. rewrite !app_nil_r.
  unfold Seq in Hn; simpl in Hn.
  apply matches_cat in Hn as (sign & n1 & -> & Hs & Hn).
  apply matches_cat in Hn as (whole & n2 & -> & Hw & Hn). apply matches_plus_class in Hw.
  apply matches_cat in Hn as (frac & n3 & -> & Hfr & Hn). apply matches_eps in Hn as ->.
  exists (sign ++ whole ++ frac). split.
  - exists sign, whole, frac. repeat split; try tauto.
    + apply matches_opt in Hs as [->|Hs]; [now left|].
      apply matches_class in Hs as (c & -> & Hc). apply orb_prop in Hc as [Hc|Hc];
        apply N.eqb_eq in Hc; subst; auto.
    + apply matches_opt in Hfr as [->|Hfr]; [now left|]. right.
      apply matches_group in Hfr.
      apply matches_cat in Hfr as (dot & d & -> & Hdot & Hd). apply matches_chr in Hdot as ->.
      apply matches_cat in Hd as (d1 & d2 & -> & Hd1 & Hd2). apply matches_eps in Hd2 as ->.
      apply matches_plus_class in Hd1. exists d1. rewrite app_nil_r. now split.
  - now close_clause f w1 w2.
Qed.

Lemma match_date_form t m : regex_match re_date t = Some m -> date_form t.
Proof.
  intro H. change re_date with
    (clause_head (Cat (Group 2 (Seq [ Times 4 (Class is_digit); Chr 45; Times 2 (Class is_digit);
                                      Chr 45; Times 2 (Class is_digit) ]))
       (Cat Eol Eps))) in H.
  apply regex_match_anchored in H as (a & rest & -> & H).
  apply matches_clause_head in H as (f & w1 & w2 & v & p & Hf & Hw1 & Hw2 & -> & H).
  apply matches_cat in H as (n & s1 & -> & Hn & H). apply matches_group in Hn.
  apply matches_cat in H as (z & s2 & -> & Hz & H). apply matches_eol in Hz as [-> Hnil].
  apply app_eq_nil in Hnil as [-> ->]. rewrite !app_nil_r.
  unfold Seq in Hn. cbn [fold_right] in Hn.
  apply matches_cat in Hn as (y & n1 & -> & Hy & Hn). apply matches_times_class in Hy as [Hy1 Hy2].
  apply matches_cat in Hn as (h1 & n2 & -> & Hh1 & Hn). apply matches_chr in Hh1 as ->.
  apply matches_cat in Hn as (mo & n3 & -> & Hm & Hn). apply matches_times_class in Hm as [Hm1 Hm2].
  apply matches_cat in Hn as (h2 & n4 & -> & Hh2 & Hn). apply matches_chr in Hh2 as ->.
  apply matches_cat in Hn as (d & n5 & -> & Hd & Hn). apply matches_times_class in Hd as [Hd1 Hd2].
  apply matches_eps in Hn as ->. rewrite !app_nil_r.
  exists (y ++ lit "-" ++ mo ++ lit "-" ++ d). split.
  - exists y, mo, d. repeat split; auto. rewrite !Forall_app. tauto.
  - now close_clause f w1 w2.
Qed.

(** ** The matcher accepts the texts of the grammar *)

Lemma accepts_eps rest pos : accepts Eps [] rest pos.
Proof. intros k Hk caps. simpl. rewrite Nat.add_0_r in Hk. apply Hk. Qed.

Lemma accepts_bol rest : accepts Bol [] rest 0.
Proof. intros k Hk caps. simpl. apply Hk. Qed.

Lemma accepts_eol pos : accepts Eol [] [] pos.
Proof. intros k Hk caps. simpl. rewrite Nat.add_0_r in Hk. apply Hk. Qed.

Lemma accepts_class p c rest pos : p c = true -> accepts (Class p) [c] rest pos.
Proof.
  intros Hc k Hk caps. simpl. rewrite Hc. simpl in Hk. rewrite Nat.add_1_r in Hk. apply Hk.
Qed.

Lemma accepts_cat r1 r2 a b rest pos :
  accepts r1 a (b ++ rest) pos -> accepts r2 b rest (pos + length a) ->
  accepts (Cat r1 r2) (a ++ b) rest pos.
Proof.
  intros H1 H2 k Hk caps. simpl. rewrite <- app_assoc. apply H1.
  intro caps'. apply H2. intro caps''.
  rewrite length_app, Nat.add_assoc in Hk. apply Hk.
Qed.

Lemma accepts_group i r a rest pos : accepts r a rest pos -> accepts (Group i r) a rest pos.
Proof. intros H k Hk caps. simpl. apply H. intro caps'. apply Hk. Qed.

Lemma accepts_opt_some r a rest pos : accepts r a rest pos -> accepts (Opt r) a rest pos.
Proof. intros H k Hk caps. simpl. destruct (H k Hk caps) as [m ->]. eauto. Qed.

Lemma accepts_opt_none r rest pos : accepts (Opt r) [] rest pos.
Proof.
  intros k Hk caps. simpl. destruct (rmatch r rest pos caps k); [eauto|].
  rewrite Nat.add_0_r in Hk. apply Hk.
Qed.

(** One iteration of [*] on a class. *)
Lemma star_class_cons p c s pos caps k :
  rmatch (Star (Class p)) (c :: s) pos caps k =
  match (if p c then rmatch (Star (Class p)) s (S pos) caps k else None) with
  | Some m => Some m
  | None => k (c :: s) pos caps
  end.
Proof.
  cbn -[Nat.eqb]. destruct (p c); [|reflexivity].
  assert (E : Nat.eqb (S pos) pos = false) by (apply Nat.eqb_neq; lia).
  rewrite E. reflexivity.
Qed.

Lemma accepts_star_class p a rest pos :
  Forall (fun c => p c = true) a -> accepts (Star (Class p)) a rest pos.
Proof.
  intros Ha. revert pos. induction Ha as [|c a Hc Ha IH]; intros pos k Hk caps.
  - rewrite Nat.add_0_r in Hk. cbn [app]. destruct rest as [|c rest].
    + simpl. apply Hk.
    + rewrite star_class_cons.
      destruct (if p c then rmatch (Star (Class p)) rest (S pos) caps k else None); eauto.
  - cbn [app]. rewrite star_class_cons, Hc.
    destruct (IH (S pos) k) with (caps := caps) as [m ->]; [|eauto].
    intro caps'. cbn [length] in Hk. rewrite Nat.add_succ_r in Hk. apply Hk.
Qed.

Lemma accepts_plus_class p a rest pos :
  a <> [] -> Forall (fun c => p c = true) a -> accepts (Plus (Class p)) a rest pos.
Proof.
  intros Hne Ha. destruct a as [|c a]; [contradiction|]. inversion Ha; subst.
  change (c :: a) with ([c] ++ a). apply accepts_cat.
  - now apply accepts_class.
  - now apply accepts_star_class.
Qed.

Lemma accepts_times_class p a rest pos :
  Forall (fun c => p c = true) a -> accepts (Times (length a) (Class p)) a rest pos.
Proof.
  intro Ha. revert pos. induction Ha as [|c a Hc Ha IH]; intro pos; cbn [length Times].
  - apply accepts_eps.
  - change (c :: a) with ([c] ++ a). apply accepts_cat; [now apply accepts_class | apply IH].
Qed.

Lemma accepts_chr c rest pos : accepts (Chr c) [c] rest pos.
Proof. apply accepts_class. apply N.eqb_refl. Qed.

Lemma accepts_word_eq rest pos : accepts (Word "eq") (lit "eq") rest pos.
Proof.
  change (lit "eq") with ([101%N] ++ [113%N] ++ []).
  apply accepts_cat; [apply accepts_chr|]. apply accepts_cat; [apply accepts_chr|].
  apply accepts_eps.
Qed.

Lemma accepts_clause_head tail f w1 w2 v rest :
  is_field f -> is_blank w1 -> is_blank w2 ->
  accepts tail v rest (length f + length w1 + 2 + length w2) ->
  accepts (clause_head tail) (f ++ w1 ++ lit "eq" ++ w2 ++ v) rest 0.
Proof.
  intros [Hf1 Hf2] [Hw1 Hw1'] [Hw2 Hw2'] Ht. unfold clause_head.
  change (f ++ w1 ++ lit "eq" ++ w2 ++ v) with ([] ++ f ++ w1 ++ lit "eq" ++ w2 ++ v).
  apply accepts_cat; [apply accepts_bol|]. cbn [length Nat.add].
  apply accepts_cat.
  { apply accepts_group. apply accepts_plus_class; [assumption|].
    eapply Forall_impl; [|exact Hf2]. intros c Hc. now rewrite field_char_word. }
  apply accepts_cat; [now apply accepts_plus_class|].
  apply accepts_cat; [apply accepts_word_eq|].
  apply accepts_cat; [now apply accepts_plus_class|].
  change (length (lit "eq")) with 2%nat. exact Ht.
Qed.

(** A pattern that the matcher accepts on the whole subject is found by
    [match]. *)
Lemma accepts_regex_match r t : accepts r t [] 0 -> exists m, regex_match r t = Some m.
Proof.
  intro H. unfold regex_match.
  destruct (H (fun _ _ caps => Some caps) (fun caps => ex_intro _ caps eq_refl) []) as [m Hm].
  rewrite app_nil_r in Hm.
  destruct t; simpl; rewrite Hm; eauto.
Qed.

Lemma string_form_match t : string_form t -> exists m, regex_match re_string t = Some m.
Proof.
  intros (v & (text & Htext & ->) & f & w1 & w2 & Hf & Hw1 & Hw2 & ->).
  apply accepts_regex_match.
  change re_string with
    (clause_head (Cat (Chr quote) (Cat (Group 2 (Star (Class (fun c => negb (N.eqb c quote)))))
       (Cat (Chr quote) (Cat Eol Eps))))).
  apply accepts_clause_head; try assumption.
  change (quote :: text ++ [quote]) with ([quote] ++ text ++ [quote]).
  apply accepts_cat; [apply accepts_chr|].
  replace (text ++ [quote]) with (text ++ [quote] ++ [] ++ []) by now rewrite !app_nil_r.
  apply accepts_cat.
  { apply accepts_group. apply accepts_star_class. apply Forall_forall. intros c Hc.
    apply negb_true_iff. apply N.eqb_neq. intros ->. contradiction. }
  apply accepts_cat; [apply accepts_chr|].
  apply accepts_cat; [apply accepts_eol | apply accepts_eps].
Qed.

Lemma number_form_match t : number_form t -> exists m, regex_match re_number t = Some m.
Proof.
  intros (v & (sign & whole & frac & Hsign & [Hw Hw'] & Hfrac & ->)
            & f & w1 & w2 & Hf & Hw1 & Hw2 & ->).
  apply accepts_regex_match.
  change re_number with
    (clause_head (Cat (Group 2 (Seq [ Opt (Class (fun c => (N.eqb c 43 || N.eqb c 45)%bool));
                                      Plus (Class is_digit);
                                      Opt (Group 3 (Seq [ Chr 46; Plus (Class is_digit) ])) ]))
       (Cat Eol Eps))).
  apply accepts_clause_head; try assumption.
  replace (sign ++ whole ++ frac) with ((sign ++ whole ++ frac ++ []) ++ [] ++ [])
    by now rewrite !app_nil_r.
  apply accepts_cat; [|apply accepts_cat; [apply accepts_eol | apply accepts_eps]].
  apply accepts_group. unfold Seq. cbn [fold_right].
  apply accepts_cat.
  { destruct Hsign as [-> | [-> | ->]];
      [apply accepts_opt_none | | ]; apply accepts_opt_some; now apply accepts_class. }
  apply accepts_cat; [now apply accepts_plus_class|].
  apply accepts_cat; [|apply accepts_eps].
  destruct Hfrac as [-> | (d & [Hd Hd'] & ->)]; [apply accepts_opt_none|].
  apply accepts_opt_some. apply accepts_group.
  replace (46%N :: d) with ([46%N] ++ d ++ []) by now rewrite app_nil_r.
  apply accepts_cat; [apply accepts_chr|].
  apply accepts_cat; [now apply accepts_plus_class | apply accepts_eps].
Qed.

Lemma date_form_match t : date_form t -> exists m, regex_match re_date t = Some m.
Proof.
  intros (v & (y & mo & d & Hall & Hy & Hm & Hd & ->) & f & w1 & w2 & Hf & Hw1 & Hw2 & ->).
  apply accepts_regex_match.
  change re_date with
    (clause_head (Cat (Group 2 (Seq [ Times 4 (Class is_digit); Chr 45; Times 2 (Class is_digit);
                                      Chr 45; Times 2 (Class is_digit) ]))
       (Cat Eol Eps))).
  apply accepts_clause_head; try assumption.
  rewrite !Forall_app in Hall. destruct Hall as (Hdy & Hdm & Hdd).
  replace (y ++ lit "-" ++ mo ++ lit "-" ++ d)
    with ((y ++ [45%N] ++ mo ++ [45%N] ++ d ++ []) ++ [] ++ [])
    by now rewrite !app_nil_r.
  apply accepts_cat; [|apply accepts_cat; [apply accepts_eol | apply accepts_eps]].
  apply accepts_group. unfold Seq. cbn [fold_right].
  rewrite <- Hy at 1. apply accepts_cat; [now apply accepts_times_class|].
  apply accepts_cat; [apply accepts_chr|].
  rewrite <- Hm at 1. apply accepts_cat; [now apply accepts_times_class|].
  apply accepts_cat; [apply accepts_chr|].
  rewrite <- Hd at 1. apply accepts_cat; [now apply accepts_times_class | apply accepts_eps].
Qed.

(** Every form has whitespace around [eq]. *)
Lemma clause_has_space t v : clause t v -> existsb is_space t = true.
Proof.
  intros (f & w1 & w2 & _ & [Hne Hw1] & _ & ->).
  destruct w1 as [|c w1]; [contradiction|]. inversion Hw1; subst.
  rewrite existsb_app. apply orb_true_iff. right. simpl. now rewrite H1.
Qed.

Lemma form_has_space t :
  string_form t \/ number_form t \/ date_form t -> existsb is_space t = true.
Proof.
  intros [(v & _ & H) | [(v & _ & H) | (v & _ & H)]]; eapply clause_has_space; eauto.
Qed.

(* ===================================================================== *)
(** * The filter parser *)
(* ===================================================================== *)

(** C1. [parseSimpleFilter] turns ["outlet eq 'Airport'"] into the string
    predicate on [outlet] with value ["Airport"], ["id eq 42"] into the number
    predicate on [id] with value 42, ["date eq 2025-08-01"] into the date
    predicate on [date] with value ["2025-08-01"]; and every string that,
    once trimmed, has none of the three forms of the grammar gives [null]. *)
Theorem parseSimpleFilter_grammar :
  parseSimpleFilter (VStr (lit "outlet eq 'Airport'"))
    = Ok (Some (ParsedFilter (lit "outlet") (VStr (lit "Airport")) (lit "string")))
  /\ parseSimpleFilter (VStr (lit "id eq 42"))
    = Ok (Some (ParsedFilter (lit "id") (VNum (number_of_Z 42)) (lit "number")))
  /\ parseSimpleFilter (VStr (lit "date eq 2025-08-01"))
    = Ok (Some (ParsedFilter (lit "date") (VStr (lit "2025-08-01")) (lit "date")))
  /\ forall s : str,
       ~ string_form (trim s) -> ~ number_form (trim s) -> ~ date_form (trim s) ->
       parseSimpleFilter (VStr s) = Ok None.
Proof.
  split; [vm_compute; reflexivity|].
  split; [vm_compute; reflexivity|].
  split; [vm_compute; reflexivity|].
  intros s Hs Hn Hd. unfold parseSimpleFilter.
  destruct (truthy (VStr s)); [|reflexivity].
  cbn [negb call_trim rbind].
  destruct (regex_match re_string (trim s)) as [m|] eqn:E1.
  { exfalso. apply Hs. eapply match_string_form; eauto. }
  destruct (regex_match re_number (trim s)) as [m|] eqn:E2.
  { exfalso. apply Hn. eapply match_number_form; eauto. }
  destruct (regex_match re_date (trim s)) as [m|] eqn:E3.
  { exfalso. apply Hd. eapply match_date_form; eauto. }
  reflexivity.
Qed.

(** ["bogus"] has none of the forms, and parses to [null]. *)
Lemma parseSimpleFilter_grammar_witness :
  ~ string_form (trim (lit "bogus")) /\ ~ number_form (trim (lit "bogus")) /\
  ~ date_form (trim (lit "bogus")) /\
  parseSimpleFilter (VStr (lit "bogus")) = Ok None.
Proof.
  assert (H : forall P : str -> Prop,
             (forall t, P t -> existsb is_space t = true) -> ~ P (trim (lit "bogus"))).
  { intros P HP HPt. apply HP in HPt. vm_compute in HPt. discriminate. }
  assert (H1 : ~ string_form (trim (lit "bogus"))).
  { apply H. intros t Ht. apply form_has_space. auto. }
  assert (H2 : ~ number_form (trim (lit "bogus"))).
  { apply H. intros t Ht. apply form_has_space. auto. }
  assert (H3 : ~ date_form (trim (lit "bogus"))).
  { apply H. intros t Ht. apply form_has_space. auto. }
  split; [exact H1|]. split; [exact H2|]. split; [exact H3|].
  exact (proj2 (proj2 (proj2 parseSimpleFilter_grammar)) (lit "bogus") H1 H2 H3).
Defined.

Lemma form_nonempty t : string_form t \/ number_form t \/ date_form t -> t <> [].
Proof. intros H E. apply form_has_space in H. subst. discriminate. Qed.

Lemma trim_nil : trim [] = [].
Proof. reflexivity. Qed.

(** The parser against the grammar, in full: on a string it never throws;
    it answers the predicate of the first form, in the order string, number,
    date, that the trimmed string has, and [null] exactly when it has
    none. *)
Lemma parseSimpleFilter_first_form (s : str) :
  match parseSimpleFilter (VStr s) with
  | Ok None =>
      ~ string_form (trim s) /\ ~ number_form (trim s) /\ ~ date_form (trim s)
  | Ok (Some pf) =>
      (pf_type pf = lit "string" /\ string_form (trim s))
      \/ (pf_type pf = lit "number" /\ ~ string_form (trim s) /\ number_form (trim s))
      \/ (pf_type pf = lit "date" /\ ~ string_form (trim s) /\ ~ number_form (trim s)
          /\ date_form (trim s))
  | Throw _ => False
  end.
Proof.
  unfold parseSimpleFilter. destruct s as [|c s].
  - cbn [truthy negb]. rewrite trim_nil.
    repeat split; intro H; eapply form_nonempty; eauto.
  - cbn [truthy negb call_trim rbind]. set (t := trim (c :: s)).
    destruct (regex_match re_string t) as [m|] eqn:E1.
    { left. split; [reflexivity|]. eapply match_string_form; eauto. }
    assert (H1 : ~ string_form t).
    { intro H. apply string_form_match in H as [m H]. congruence. }
    destruct (regex_match re_number t) as [m|] eqn:E2.
    { cbn. right; left. repeat split; auto. eapply match_number_form; eauto. }
    assert (H2 : ~ number_form t).
    { intro H. apply number_form_match in H as [m H]. congruence. }
    destruct (regex_match re_date t) as [m|] eqn:E3.
    { right; right. repeat split; auto. eapply match_date_form; eauto. }
    repeat split; auto.
    intro H. apply date_form_match in H as [m H]. congruence.
Qed.


(* ===================================================================== *)
(** * Conversions *)
(* ===================================================================== *)

(** Induction on values, through the elements of arrays and the properties
    of objects. *)
Lemma value_induction (P : value -> Prop) :
  P VUndefined -> P VNull -> (forall b, P (VBool b)) -> (forall x, P (VNum x)) ->
  (forall s, P (VStr s)) ->
  (forall elems, Forall P elems -> P (VArr elems)) ->
  (forall props, Forall (fun kv => P (snd kv)) props -> P (VObj props)) ->
  (forall src, P (VNative src)) ->
  forall v, P v.
Proof.
  intros HU HN HB HNum HS HA HO HNat.
  fix IH 1. intros [ | | b | x | s | elems | props | src ];
    [ apply HU | apply HN | apply HB | apply HNum | apply HS | apply HA | apply HO
    | apply HNat ].
  - induction elems as [|e elems IHe]; constructor; [apply IH | exact IHe].
  - induction props as [|[k e] props IHp]; constructor; [apply IH | exact IHp].
Qed.

Lemma join_with_ok {A} (f : A -> result str) (l : list A) :
  Forall (fun x => exists s, f x = Ok s) l -> exists s, join_with f l = Ok s.
Proof.
  induction 1 as [|x l [s Hs] Hl [t Ht]]; simpl; [eauto|].
  destruct l as [|y l]; [eauto|]. rewrite Hs. cbn [rbind]. rewrite Ht. cbn [rbind]. eauto.
Qed.

Lemma join_with_throws {A} (f : A -> result str) (l : list A) s :
  join_with f l = Ok s -> Forall (fun x => exists t, f x = Ok t) l.
Proof.
  revert s. induction l as [|x l IH]; intros s H; [constructor|].
  simpl in H. destruct l as [|y l].
  - constructor; eauto.
  - destruct (f x) as [a|e] eqn:Ex; [|discriminate]. cbn [rbind] in H.
    destruct (join_with f (y :: l)) as [b|e] eqn:El; [|discriminate].
    constructor; eauto.
Qed.

(** [String(v)] returns exactly on the convertible values. *)
Lemma to_string_convertible (v : value) :
  convertible v = true <-> exists s, to_string v = Ok s.
Proof.
  induction v as [ | | b | x | s | elems IH | props _ | src ] using value_induction;
    simpl; try (split; eauto; fail).
  - split.
    + intro H. apply join_with_ok. rewrite forallb_forall in H.
      rewrite Forall_forall in IH |- *. intros x Hx.
      specialize (IH x Hx). specialize (H x Hx). apply IH in H.
      destruct x; eauto.
    + intros [s H]. apply join_with_throws in H. apply forallb_forall. intros x Hx.
      rewrite Forall_forall in IH, H. apply (IH x Hx). specialize (H x Hx).
      destruct x; simpl; eauto.
  - destruct (has_key (lit "toString") props); simpl; split; eauto.
    + discriminate.
    + intros [s H]. discriminate.
Qed.

Lemma to_primitive_ok (v : value) :
  convertible v = true -> exists p, to_primitive v = Ok p /\ to_primitive p = Ok p.
Proof.
  intro H. apply to_string_convertible in H as [s Hs].
  destruct v; simpl in *; try (eexists; split; reflexivity).
  - rewrite Hs. eexists; split; reflexivity.
  - rewrite Hs. eexists; split; reflexivity.
Qed.

Lemma to_number_ok (v : value) :
  convertible v = true -> exists n, to_number v = Ok n.
Proof.
  intro H. apply to_primitive_ok in H as (p & Hp & _). unfold to_number. rewrite Hp.
  cbn [rbind]. eauto.
Qed.

Lemma to_number_throws (v : value) n : to_number v = Ok n -> convertible v = true.
Proof.
  unfold to_number. intro H. apply to_string_convertible.
  destruct v; simpl in *; eauto.
  - destruct (join_with _ elems); [eauto | discriminate].
  - destruct (has_key (lit "toString") props); [discriminate | eauto].
Qed.

(* ===================================================================== *)
(** * The normalizer *)
(* ===================================================================== *)

Lemma get_own props k :
  lookup k object_prototype = None -> get (VObj props) k = Ok (own props k).
Proof. intro H. unfold get, own. rewrite H. now destruct (lookup k props). Qed.

(** [toNum] on what [null], [undefined] and the empty string are. *)
Lemma toNum_nullish v :
  v = VUndefined \/ v = VNull \/ v = VStr [] -> toNum v = Ok VNull.
Proof. intros [-> | [-> | ->]]; reflexivity. Qed.

Lemma toNum_returns v : (exists r, toNum v = Ok r) <-> convertible v = true.
Proof.
  unfold toNum. split.
  - intros [r H].
    destruct (strict_equals v VNull || strict_equals v VUndefined || strict_equals v (VStr []))%bool
      eqn:E.
    + destruct v; try reflexivity; discriminate.
    + destruct (to_number v) as [n|e] eqn:En; [|discriminate].
      eapply to_number_throws; eauto.
  - intro H. destruct (_ || _)%bool; [eauto|].
    apply to_number_ok in H as [n ->]. cbn [rbind]. eauto.
Qed.

(** The object literal of [normalizeItem] on a plain object: only the eight
    calls of [toNum] can throw. *)
Lemma normalizeItem_object props :
  normalizeItem (VObj props) =
  (id <- toNum (own props (lit "id")) ;;
   guest_count <- toNum (own props (lit "guest_count")) ;;
   quantity <- toNum (own props (lit "quantity")) ;;
   cost_price <- toNum (own props (lit "cost_price")) ;;
   selling_price <- toNum (own props (lit "selling_price")) ;;
   total_sales <- toNum (own props (lit "total_sales")) ;;
   total_cost_price <- toNum (own props (lit "total_cost_price")) ;;
   profit <- toNum (own props (lit "profit")) ;;
   Ok (VObj [ (lit "id", id);
              (lit "outlet", or_null (own props (lit "outlet")));
              (lit "date", or_null (own props (lit "date")));
              (lit "day", or_null (own props (lit "day")));
              (lit "guest_count", guest_count);
              (lit "category", or_null (own props (lit "category")));
              (lit "quantity", quantity);
              (lit "cost_price", cost_price);
              (lit "selling_price", selling_price);
              (lit "total_sales", total_sales);
              (lit "total_cost_price", total_cost_price);
              (lit "profit", profit) ]))%result.
Proof.
  unfold normalizeItem.
  rewrite !get_own by reflexivity. cbn [rbind]. reflexivity.
Qed.

Ltac each_numeric_key H :=
  unfold numeric_keys in H; cbn [map In] in H;
  repeat match type of H with
         | _ \/ _ => destruct H as [H | H]
         end; [ subst .. | contradiction ].

Ltac split_toNum H :=
  rewrite normalizeItem_object in H;
  repeat match type of H with
         | rbind (toNum ?v) _ = _ =>
             let E := fresh "E" in destruct (toNum v) eqn:E; cbn [rbind] in H; [|discriminate]
         end.

(** C2 (amended). On a raw record [normalizeItem] returns exactly when the
    value of each of the eight numeric fields converts to a primitive (it
    throws on an object with an own [toString], alone or inside arrays); and
    whenever it returns, the result has the twelve keys of the schema and no
    other, and a numeric field whose input is absent, [null] or the empty
    string is [null]. *)
Theorem normalizeItem_schema (props : list (str * value)) :
  ((exists r, normalizeItem (VObj props) = Ok r) <->
   (forall k, In k numeric_keys -> convertible (own props k) = true))
  /\ forall r, normalizeItem (VObj props) = Ok r ->
       exists fields,
         r = VObj fields /\ map fst fields = schema_keys /\
         forall k, In k numeric_keys ->
           lookup k props = None \/ lookup k props = Some VNull
             \/ lookup k props = Some (VStr []) ->
           lookup k fields = Some VNull.
Proof.
  split; [split|].
  - intros [r H] k Hk. split_toNum H.
    each_numeric_key Hk; apply toNum_returns; eauto.
  - intro H. rewrite normalizeItem_object.
    repeat match goal with
           | |- exists r, rbind (toNum (own props ?k)) _ = _ =>
               let E := fresh "E" in
               destruct (proj2 (toNum_returns (own props k))) as [? E];
               [ apply H; unfold numeric_keys; cbn [map In]; tauto
               | rewrite E; cbn [rbind] ]
           end.
    eauto.
  - intros r H. split_toNum H. inversion H; subst r. clear H.
    eexists. split; [reflexivity|]. split; [reflexivity|].
    intros k Hk Hnull.
    assert (Hown : own props k = VUndefined \/ own props k = VNull \/ own props k = VStr []).
    { unfold own. destruct Hnull as [-> | [-> | ->]]; auto. }
    apply toNum_nullish in Hown.
    each_numeric_key Hk;
      match goal with
      | E : toNum (own props ?k) = Ok ?a |- lookup ?k _ = _ =>
          rewrite Hown in E; inversion E; subst a; reflexivity
      end.
Qed.

(** [normalizeItem] throws on a record whose [id] is an object with an own
    property [toString]. *)
Lemma normalizeItem_throws_on_own_toString :
  normalizeItem (VObj [ (lit "id", VObj [ (lit "toString", VNum pos_zero) ]) ])
  = Throw (TypeError "Cannot convert object to primitive value").
Proof. vm_compute. reflexivity. Qed.

(** A record with a numeric string, an extra field and an empty string. *)
Lemma normalizeItem_schema_witness :
  let props := [ (lit "id", VStr (lit "7")); (lit "extra", VBool true);
                 (lit "profit", VStr []) ] in
  exists fields,
    normalizeItem (VObj props) = Ok (VObj fields) /\ map fst fields = schema_keys /\
    lookup (lit "profit") fields = Some VNull.
Proof.
  intro props.
  assert (E : exists r, normalizeItem (VObj props) = Ok r) by (vm_compute; eauto).
  destruct E as [r E].
  destruct (proj2 (normalizeItem_schema props) r E) as (fields & -> & Hk & Hn).
  exists fields. split; [exact E|]. split; [exact Hk|].
  apply Hn.
  - unfold numeric_keys. cbn [map In]. tauto.
  - right; right. reflexivity.
Defined.

(* ===================================================================== *)
(** * The store *)
(* ===================================================================== *)

Lemma nth_error_fresh (h : heap) l : nth_error (h ++ [l]) (length h) = Some l.
Proof. rewrite nth_error_app2 by lia. now rewrite Nat.sub_diag. Qed.

Lemma nth_error_old (h : heap) l a :
  (a < length h)%nat -> nth_error (h ++ [l]) a = nth_error h a.
Proof. intro H. now rewrite nth_error_app1. Qed.

Lemma nth_of_nth_error (h : heap) a l : nth_error h a = Some l -> nth a h [] = l.
Proof. intro H. now apply nth_error_nth. Qed.

Lemma length_update (h : heap) a l : length (update h a l) = length h.
Proof. revert a; induction h as [|x h IH]; intros [|a]; simpl; auto. Qed.

Lemma nth_error_update_same (h : heap) a l :
  (a < length h)%nat -> nth_error (update h a l) a = Some l.
Proof.
  revert a; induction h as [|x h IH]; intros [|a] H; simpl in *; try lia; auto.
  apply IH. lia.
Qed.

Lemma nth_error_update_other (h : heap) a b l :
  a <> b -> nth_error (update h a l) b = nth_error h b.
Proof.
  revert a b; induction h as [|x h IH]; intros [|a] [|b] H; simpl; auto; try congruence.
Qed.

(** ** What each statement of the pipeline does to the store *)

Section Stages.

Variables (h : heap) (a : loc) (l : list value).
Hypothesis Ha : nth_error h a = Some l.

Lemma load_at : load a h = (Ok l, h).
Proof. unfold load. now rewrite (nth_of_nth_error _ _ _ Ha). Qed.

Lemma apply_filter_eq filter :
  apply_filter filter a h =
  match parseSimpleFilter filter with
  | Throw e => (Throw e, h)
  | Ok None => (Ok a, h)
  | Ok (Some pf) =>
      match filter_result (filter_callback pf) l with
      | Ok ys => (Ok (length h), h ++ [ys])
      | Throw e => (Throw e, h)
      end
  end.
Proof.
  unfold apply_filter, mbind, lift, array_filter, mbind, lift, mret, alloc.
  destruct (parseSimpleFilter filter) as [[pf|]|e]; try reflexivity.
  rewrite load_at. now destruct (filter_result (filter_callback pf) l).
Qed.

Lemma apply_orderby_eq orderby :
  apply_orderby orderby a h =
  if truthy orderby then
    match call_split orderby with
    | Throw e => (Throw e, h)
    | Ok pieces =>
        match sort_result (sort_callback (nth 0 pieces []) (direction_of pieces)) l with
        | Ok ys => (Ok tt, update h a ys)
        | Throw e => (Throw e, h)
        end
    end
  else (Ok tt, h).
Proof.
  unfold apply_orderby, mbind, lift, array_sort, mbind, lift, mret, store.
  destruct (truthy orderby); [|reflexivity].
  destruct (call_split orderby) as [pieces|e]; [|reflexivity].
  rewrite load_at. now destruct (sort_result _ l).
Qed.

Lemma apply_skip_eq skip :
  apply_skip skip a h =
  if truthy skip then
    match to_number skip with
    | Ok n => (Ok (length h), h ++ [slice_list l n None])
    | Throw e => (Throw e, h)
    end
  else (Ok a, h).
Proof.
  unfold apply_skip, mbind, lift, array_slice, mbind, mret, alloc.
  destruct (truthy skip); [|reflexivity].
  destruct (to_number skip) as [n|e]; [|reflexivity]. now rewrite load_at.
Qed.

Lemma apply_top_eq top :
  apply_top top a h =
  if truthy top then
    match to_number top with
    | Ok n => (Ok (length h), h ++ [slice_list l pos_zero (Some n)])
    | Throw e => (Throw e, h)
    end
  else (Ok a, h).
Proof.
  unfold apply_top, mbind, lift, array_slice, mbind, mret, alloc.
  destruct (truthy top); [|reflexivity].
  destruct (to_number top) as [n|e]; [|reflexivity]. now rewrite load_at.
Qed.

End Stages.

(** ** The pipeline against the list stages *)

Lemma nth_error_lt (h : heap) a l : nth_error h a = Some l -> (a < length h)%nat.
Proof. intro H. apply nth_error_Some. congruence. Qed.

Lemma filter_sim h a l filter :
  nth_error h a = Some l ->
  match apply_filter filter a h with
  | (Ok a', h') => exists l', filter_stage filter l = Ok l' /\ nth_error h' a' = Some l'
  | (Throw e, _) => filter_stage filter l = Throw e
  end.
Proof.
  intro Ha. rewrite (apply_filter_eq _ _ _ Ha). unfold filter_stage.
  destruct (parseSimpleFilter filter) as [[pf|]|e]; cbn [rbind]; eauto.
  destruct (filter_result (filter_callback pf) l) as [ys|e]; eauto using nth_error_fresh.
Qed.

Lemma order_sim h a l orderby :
  nth_error h a = Some l ->
  match apply_orderby orderby a h with
  | (Ok _, h') => exists l', order_stage orderby l = Ok l' /\ nth_error h' a = Some l'
  | (Throw e, _) => order_stage orderby l = Throw e
  end.
Proof.
  intro Ha. rewrite (apply_orderby_eq _ _ _ Ha). unfold order_stage.
  destruct (truthy orderby); eauto.
  destruct (call_split orderby) as [pieces|e]; cbn [rbind]; eauto.
  destruct (sort_result _ l) as [ys|e]; eauto.
  exists ys. split; [reflexivity|]. apply nth_error_update_same. eapply nth_error_lt; eauto.
Qed.

Lemma skip_sim h a l skip :
  nth_error h a = Some l ->
  match apply_skip skip a h with
  | (Ok a', h') => exists l', skip_stage skip l = Ok l' /\ nth_error h' a' = Some l'
  | (Throw e, _) => skip_stage skip l = Throw e
  end.
Proof.
  intro Ha. rewrite (apply_skip_eq _ _ _ Ha). unfold skip_stage.
  destruct (truthy skip); eauto.
  destruct (to_number skip) as [n|e]; cbn [rbind]; eauto using nth_error_fresh.
Qed.

Lemma top_sim h a l top :
  nth_error h a = Some l ->
  match apply_top top a h with
  | (Ok a', h') => exists l', top_stage top l = Ok l' /\ nth_error h' a' = Some l'
  | (Throw e, _) => top_stage top l = Throw e
  end.
Proof.
  intro Ha. rewrite (apply_top_eq _ _ _ Ha). unfold top_stage.
  destruct (truthy top); eauto.
  destruct (to_number top) as [n|e]; cbn [rbind]; eauto using nth_error_fresh.
Qed.

Lemma pipeline_sim q h a l :
  nth_error h a = Some l ->
  match pipeline q a h with
  | (Ok a', h') => exists l', staged q l = Ok l' /\ nth_error h' a' = Some l'
  | (Throw e, _) => staged q l = Throw e
  end.
Proof.
  intro Ha. unfold pipeline, staged, mbind.
  pose proof (filter_sim _ _ _ (q_filter q) Ha) as H1.
  destruct (apply_filter (q_filter q) a h) as [[a1|e] h1];
    [destruct H1 as (l1 & -> & H1) | now rewrite H1]. cbn [rbind].
  pose proof (order_sim _ _ _ (q_orderby q) H1) as H2.
  destruct (apply_orderby (q_orderby q) a1 h1) as [[[]|e] h2];
    [destruct H2 as (l2 & -> & H2) | now rewrite H2]. cbn [rbind].
  pose proof (skip_sim _ _ _ (q_skip q) H2) as H3.
  destruct (apply_skip (q_skip q) a1 h2) as [[a3|e] h3];
    [destruct H3 as (l3 & -> & H3) | now rewrite H3]. cbn [rbind].
  exact (top_sim _ _ _ (q_top q) H3).
Qed.

Lemma run_pipeline_staged q l : fst (run_pipeline q l) = staged q l.
Proof.
  unfold run_pipeline, mbind, alloc. cbn [app length].
  assert (Ha : nth_error [l] 0 = Some l) by reflexivity.
  pose proof (pipeline_sim q _ _ _ Ha) as H.
  destruct (pipeline q 0%nat [l]) as [[a'|e] h']; [|now rewrite H].
  destruct H as (l' & -> & H). unfold load. cbn [fst].
  now rewrite (nth_of_nth_error _ _ _ H).
Qed.

(** The body that [respond] assembles, from the list stages. *)
Lemma respond_staged req data :
  fst (respond req data []) =
  (normalized <- map_result normalizeItem (elements data) ;;
   items <- staged (req_query req) normalized ;;
   Ok (ODataResponse (odata_context req) items
         (if count_requested (req_query req) then Some (length items) else None)))%result.
Proof.
  unfold respond, mbind, array_map, mbind, lift, alloc.
  destruct (map_result normalizeItem (elements data)) as [normalized|e]; [|reflexivity].
  cbn [rbind app length].
  assert (Ha : nth_error [normalized] 0 = Some normalized) by reflexivity.
  pose proof (pipeline_sim (req_query req) _ _ _ Ha) as H.
  destruct (pipeline (req_query req) 0%nat [normalized]) as [[a'|e] h']; [|now rewrite H].
  destruct H as (l' & -> & H). unfold load, mret. cbn [fst rbind].
  now rewrite (nth_of_nth_error _ _ _ H).
Qed.

(* ===================================================================== *)
(** * The order of the stages *)
(* ===================================================================== *)

(** C3. On every sequence and for every combination of [$filter],
    [$orderby], [$skip] and [$top], the pipeline gives what filtering, then
    ordering, then skipping, then taking the top gives; and for the rows with
    ids 1 to 5 the query [$orderby=id desc&$skip=1&$top=2] answers the
    records with ids 4 and 3. *)
Theorem pipeline_order :
  (forall (q : query) (l : list value),
     fst (run_pipeline q l) =
     (l1 <- filter_stage (q_filter q) l ;;
      l2 <- order_stage (q_orderby q) l1 ;;
      l3 <- skip_stage (q_skip q) l2 ;;
      top_stage (q_top q) l3)%result)
  /\ handler
       (request_for (Query (VStr (lit "2")) (VStr (lit "1")) (VStr (lit "id desc"))
                       VUndefined VUndefined))
       (UpResponds 120 200 (BodyJson (VArr (map row [1; 2; 3; 4; 5]))))
     = Some (Response 200 (ODataResponse context_of_sample [record 4; record 3] None)).
Proof.
  split.
  - intros q l. apply run_pipeline_staged.
  - vm_compute. reflexivity.
Qed.

(* ===================================================================== *)
(** * The count *)
(* ===================================================================== *)





(* ===================================================================== *)
(** * Upstream failures *)
(* ===================================================================== *)

(** C7. The handler of part_000 against the two promises of the claim.
    The first holds: when the upstream answers in time with a status outside
    200..299, the answer is 500 with the error ["Upstream API error"] and that
    status. The second holds as long as the timer is running: a fetch that has
    not settled when the timer fires is answered 504 with the error
    ["Upstream timeout"]. But the timer is cleared as soon as the fetch
    resolves, and the body is read afterwards with no bound: when the status
    arrives in time and is 2xx and the body never ends, the fetch exceeds the
    timeout and the request is never answered. *)
Theorem upstream_failures (req : request) :
  (forall ms status payload,
     (ms < timeout_ms)%N -> response_ok status = false ->
     handler req (UpResponds ms status payload)
     = Some (Response 500 (ErrorResponse (lit "Upstream API error") (Some status))))
  /\ (forall u,
        timer_fires u = true ->
        handler req u = Some (Response 504 (ErrorResponse (lit "Upstream timeout") None)))
  /\ (forall ms status,
        (ms < timeout_ms)%N -> response_ok status = true ->
        exceeds_timeout (UpResponds ms status BodyStalls) = true
        /\ handler req (UpResponds ms status BodyStalls) = None).
Proof.
  split; [|split].
  - intros ms status payload Hms Hok. unfold handler, answer, fetch_with_timeout.
    apply N.ltb_lt in Hms. rewrite Hms, Hok. reflexivity.
  - intros u H. unfold handler, answer, fetch_with_timeout.
    destruct u as [ms status payload | ms e | ]; cbn [timer_fires] in H; [| |reflexivity];
      apply negb_true_iff in H; rewrite H; reflexivity.
  - intros ms status Hms Hok. split.
    + cbn [exceeds_timeout]. apply orb_true_r.
    + unfold handler, answer, fetch_with_timeout.
      apply N.ltb_lt in Hms. rewrite Hms, Hok. reflexivity.
Qed.

(** An upstream that answers 503 after 120 ms, one that answers after 15 s,
    and one that answers 200 after 120 ms with a body that never ends. *)
Lemma upstream_failures_witness :
  let req := request_for (Query VUndefined VUndefined VUndefined VUndefined VUndefined) in
  handler req (UpResponds 120 503 BodyStalls)
    = Some (Response 500 (ErrorResponse (lit "Upstream API error") (Some 503%N)))
  /\ handler req (UpResponds 15000 200 (BodyJson (VArr [])))
    = Some (Response 504 (ErrorResponse (lit "Upstream timeout") None))
  /\ exceeds_timeout (UpResponds 120 200 BodyStalls) = true
  /\ handler req (UpResponds 120 200 BodyStalls) = None.
Proof.
  intro req. destruct (upstream_failures req) as (H1 & H2 & H3).
  split; [apply H1; reflexivity|].
  split; [apply H2; reflexivity|].
  apply H3; reflexivity.
Defined.

(* ===================================================================== *)
(** * A null field against the number 0 *)
(* ===================================================================== *)

Lemma filter_result_keeps f l kept r :
  filter_result f l = Ok kept -> In r l -> f r = Ok true -> In r kept.
Proof.
  revert kept. induction l as [|x l IH]; intros kept H Hin Hr; [contradiction|].
  simpl in H. destruct (f x) as [b|e] eqn:Ex; [|discriminate]. cbn [rbind] in H.
  destruct (filter_result f l) as [ys|e]; [|discriminate]. cbn [rbind] in H.
  inversion H; subst. destruct Hin as [->|Hin].
  - rewrite Hr in Ex. inversion Ex; subst. now left.
  - specialize (IH ys eq_refl Hin Hr). destruct b; [now right | exact IH].
Qed.

(** C10. [$filter=id eq 0] parses to the number predicate with value 0, and
    a number predicate with value 0 keeps every record whose field is
    [null]: [Number(null)] is 0. *)
Theorem null_field_equals_zero :
  parseSimpleFilter (VStr (lit "id eq 0"))
    = Ok (Some (ParsedFilter (lit "id") (VNum pos_zero) (lit "number")))
  /\ forall (r : value) (field : str) (l kept : list value),
       get r field = Ok VNull -> In r l ->
       filter_result (filter_callback (ParsedFilter field (VNum pos_zero) (lit "number"))) l
         = Ok kept ->
       filter_callback (ParsedFilter field (VNum pos_zero) (lit "number")) r = Ok true
       /\ In r kept.
Proof.
  split; [vm_compute; reflexivity|].
  intros r field l kept Hget Hin Hf.
  assert (Hr : filter_callback (ParsedFilter field (VNum pos_zero) (lit "number")) r = Ok true).
  { unfold filter_callback. cbn [pf_field pf_type pf_value]. rewrite Hget. reflexivity. }
  split; [exact Hr|]. eapply filter_result_keeps; eauto.
Qed.

(** The record with id 1 has a null [guest_count]. *)
Lemma null_field_equals_zero_witness :
  filter_callback (ParsedFilter (lit "guest_count") (VNum pos_zero) (lit "number")) (record 1)
    = Ok true
  /\ In (record 1) [record 1].
Proof.
  apply (proj2 null_field_equals_zero (record 1) (lit "guest_count") [record 1] [record 1]).
  - reflexivity.
  - now left.
  - vm_compute. reflexivity.
Defined.

(* ===================================================================== *)
(** * Skip *)
(* ===================================================================== *)

Lemma relative_index_range len r :
  0 <= len -> 0 <= relative_index len r <= len.
Proof.
  intro H. destruct r as [ | z | ]; simpl; try lia.
  destruct (z <? 0) eqn:E; lia.
Qed.

(** [slice(start)] drops the elements before the start index. *)
Lemma slice_from l n :
  slice_list l n None
  = skipn (Z.to_nat (relative_index (Z.of_nat (length l)) (to_integer_or_infinity n))) l.
Proof.
  unfold slice_list.
  pose proof (relative_index_range _ (to_integer_or_infinity n) (Nat2Z.is_nonneg (length l))) as Hk.
  apply firstn_all2. rewrite length_skipn. lia.
Qed.

Lemma geb_relative_index n len :
  0 <= len -> number_geb_Z n len = true ->
  relative_index len (to_integer_or_infinity n) = len.
Proof.
  intros Hlen H.
  destruct n as [s | s | | s m e];
    unfold number_geb_Z in H; unfold to_integer_or_infinity, relative_index.
  - apply Z.leb_le in H. change (0 <? 0) with false. cbv iota. lia.
  - destruct s; [discriminate | reflexivity].
  - discriminate.
  - assert (Hp : forall x, 0 < 2 ^ x \/ 2 ^ x = 0).
    { intro x. destruct (Z.le_gt_cases 0 x); [left; now apply Z.pow_pos_nonneg | right].
      now apply Z.pow_neg_r. }
    destruct s.
    + exfalso. destruct (0 <=? e) eqn:Ee; apply Z.leb_le in H.
      * apply Z.leb_le in Ee. assert (0 < 2 ^ e) by now apply Z.pow_pos_nonneg.
        assert (0 < Z.pos m * 2 ^ e) by (apply Z.mul_pos_pos; lia). lia.
      * apply Z.leb_gt in Ee. assert (0 < 2 ^ (- e)) by (apply Z.pow_pos_nonneg; lia).
        assert (0 <= len * 2 ^ (- e)) by (apply Z.mul_nonneg_nonneg; lia). lia.
    + destruct (0 <=? e) eqn:Ee; apply Z.leb_le in H.
      * apply Z.leb_le in Ee. assert (0 < 2 ^ e) by now apply Z.pow_pos_nonneg.
        assert (0 < Z.pos m * 2 ^ e) by (apply Z.mul_pos_pos; lia).
        destruct (Z.pos m * 2 ^ e <? 0) eqn:E; [apply Z.ltb_lt in E; lia | lia].
      * apply Z.leb_gt in Ee. assert (Hpow : 0 < 2 ^ (- e)) by (apply Z.pow_pos_nonneg; lia).
        assert (len <= Z.pos m / 2 ^ (- e)) by (apply Z.div_le_lower_bound; lia).
        destruct (Z.pos m / 2 ^ (- e) <? 0) eqn:E; [apply Z.ltb_lt in E; lia | lia].
Qed.

(** A value that is not truthy converts to NaN or to a zero. *)
Lemma falsy_number v n :
  truthy v = false -> to_number v = Ok n ->
  n = NaN \/ exists s, n = S754_zero s.
Proof.
  destruct v as [ | | [|] | x | s | elems | props | src ]; simpl; intros Ht Hn;
    try discriminate; injection Hn as <-.
  - now left.
  - right. now exists false.
  - right. now exists false.
  - destruct x; try discriminate; [right; eauto | now left].
  - destruct s; [|discriminate]. right. now exists false.
Qed.

(** C5 (amended). A skip count at or above the length of the sequence
    leaves nothing; a skip value that converts to NaN leaves the sequence as
    it is; a negative skip value of integer part [-k] is not taken as zero:
    the last [k] records remain (all of them when [k] is the length or
    more). *)
Theorem skip_bounds (h : heap) (a : loc) (l : list value) (skip : value) (n : number) :
  nth_error h a = Some l ->
  to_number skip = Ok n ->
  exists a' h',
    apply_skip skip a h = (Ok a', h') /\
    (number_geb_Z n (Z.of_nat (length l)) = true -> nth_error h' a' = Some []) /\
    (n = NaN -> nth_error h' a' = Some l) /\
    (forall k : nat, (0 < k)%nat -> to_integer_or_infinity n = Int (- Z.of_nat k) ->
       nth_error h' a' = Some (skipn (length l - k) l)).
Proof.
  intros Ha Hn. rewrite (apply_skip_eq _ _ _ Ha), Hn.
  destruct (truthy skip) eqn:Ht.
  - exists (length h), (h ++ [slice_list l n None]). split; [reflexivity|].
    rewrite nth_error_fresh, slice_from. repeat split.
    + intro H. rewrite geb_relative_index by (auto; lia).
      now rewrite Nat2Z.id, skipn_all.
    + intros ->. unfold to_integer_or_infinity, NaN, relative_index.
      change (0 <? 0) with false. cbv iota. rewrite Z.min_l by lia. reflexivity.
    + intros k Hk ->. f_equal. f_equal. unfold relative_index.
      destruct (- Z.of_nat k <? 0) eqn:E; [|apply Z.ltb_ge in E; lia]. lia.
  - exists a, h. split; [reflexivity|]. rewrite Ha.
    destruct (falsy_number _ _ Ht Hn) as [-> | [s ->]]; repeat split; try discriminate; auto.
    + intros k Hk H. simpl in H. inversion H. lia.
    + simpl. intro H. apply Z.leb_le in H. destruct l; [reflexivity | simpl in H; lia].
    + intros k Hk H. simpl in H. inversion H. lia.
Qed.

(** [$skip=7] on five records, at address 0 of the store. *)
Lemma skip_bounds_witness :
  let l := map record [1; 2; 3; 4; 5] in
  exists a' h',
    apply_skip (VStr (lit "7")) 0%nat [l] = (Ok a', h') /\ nth_error h' a' = Some [].
Proof.
  intro l.
  destruct (skip_bounds [l] 0%nat l (VStr (lit "7")) (number_of_Z 7) eq_refl)
    as (a' & h' & H & Hge & _).
  - vm_compute. reflexivity.
  - exists a', h'. split; [exact H|]. apply Hge. vm_compute. reflexivity.
Defined.

(** [$skip=-2] on the records with ids 1 to 5: the value is negative, and
    the stage does not pass the sequence through but keeps the last two. *)
Lemma negative_skip_counts_from_the_end :
  let l := map record [1; 2; 3; 4; 5] in
  to_number (VStr (lit "-2")) = Ok (number_of_Z (-2))
  /\ apply_skip (VStr (lit "-2")) 0%nat [l] = (Ok 1%nat, [l; [record 4; record 5]])
  /\ [record 4; record 5] <> l.
Proof.
  intro l. split; [vm_compute; reflexivity|]. split; [vm_compute; reflexivity|].
  discriminate.
Qed.

(* ===================================================================== *)
(** * Order *)
(* ===================================================================== *)

Lemma split_without (sep : N) (s : str) : ~ In sep s -> split sep s = [s].
Proof.
  induction s as [|c s IH]; intro H; [reflexivity|]. simpl.
  destruct (N.eqb c sep) eqn:E.
  - apply N.eqb_eq in E. subst. exfalso. apply H. now left.
  - rewrite IH; [reflexivity|]. intro Hin. apply H. now right.
Qed.

Lemma split_at (sep : N) (f t : str) : ~ In sep f -> split sep (f ++ sep :: t) = f :: split sep t.
Proof.
  induction f as [|c f IH]; intro H; simpl.
  - now rewrite N.eqb_refl.
  - destruct (N.eqb c sep) eqn:E.
    + apply N.eqb_eq in E. subst. exfalso. apply H. now left.
    + rewrite IH; [reflexivity|]. intro Hin. apply H. now right.
Qed.

Lemma first_separator (sep : N) (s : str) :
  ~ In sep s \/ exists f t, ~ In sep f /\ s = f ++ sep :: t.
Proof.
  induction s as [|c s [IH | (f & t & Hf & ->)]].
  - left. auto.
  - destruct (N.eq_dec c sep) as [->|Hc].
    + right. exists [], s. auto.
    + left. intros [H|H]; auto.
  - destruct (N.eq_dec c sep) as [->|Hc].
    + right. exists [], (f ++ sep :: t). auto.
    + right. exists (c :: f), t. split; [|reflexivity]. intros [H|H]; auto.
Qed.

Lemma direction_desc pieces :
  direction_of pieces = -1 <-> nth_error pieces 1 = Some (lit "desc").
Proof.
  unfold direction_of. destruct (nth_error pieces 1) as [d|]; split; intro H;
    try discriminate.
  - destruct (str_eqb d (lit "desc")) eqn:E; [|discriminate].
    apply str_eqb_eq in E. now subst.
  - inversion H. reflexivity.
Qed.

Lemma direction_either pieces : direction_of pieces = -1 \/ direction_of pieces = 1.
Proof.
  unfold direction_of. destruct (nth_error pieces 1) as [d|]; auto.
  destruct (str_eqb d (lit "desc")); auto.
Qed.


(* ===================================================================== *)
(** * Malformed parameters *)
(* ===================================================================== *)

Lemma parse_string_or_absent filter :
  string_or_absent filter = true -> exists r, parseSimpleFilter filter = Ok r.
Proof.
  destruct filter; try discriminate; intros _; unfold parseSimpleFilter.
  - simpl. eauto.
  - destruct (truthy (VStr s)); cbn [negb call_trim rbind]; [|eauto].
    destruct (regex_match re_string (trim s)); [eauto|].
    destruct (regex_match re_number (trim s)); [cbn; eauto|].
    destruct (regex_match re_date (trim s)); eauto.
Qed.

(** The value of a parsed predicate is a string or a number. *)
Lemma parsed_value_convertible filter pf :
  parseSimpleFilter filter = Ok (Some pf) -> convertible (pf_value pf) = true.
Proof.
  unfold parseSimpleFilter. destruct (negb (truthy filter)); [discriminate|].
  destruct (call_trim filter) as [t|e]; [|discriminate]. cbn [rbind].
  destruct (regex_match re_string t); [intro H; inversion H; reflexivity|].
  destruct (regex_match re_number t); [cbn; intro H; inversion H; reflexivity|].
  destruct (regex_match re_date t); [intro H; inversion H; reflexivity|discriminate].
Qed.

Lemma lookup_convertible props k x :
  forallb (fun kv => convertible (snd kv)) props = true ->
  lookup k props = Some x -> convertible x = true.
Proof.
  induction props as [|[k' v] props IH]; simpl; [discriminate|].
  intros H. apply andb_prop in H as [Hv Hp].
  destruct (str_eqb k k'); [intro E; inversion E; now subst | now apply IH].
Qed.

(** Every field of a plain record converts, own or inherited. *)
Lemma get_plain r k :
  plain_record r = true -> exists x, get r k = Ok x /\ convertible x = true.
Proof.
  destruct r; try discriminate. unfold plain_record, get. intro H.
  destruct (lookup k props) as [x|] eqn:E.
  - exists x. split; [reflexivity|]. eapply lookup_convertible; eauto.
  - destruct (lookup k object_prototype) as [x|] eqn:Ep.
    + exists x. split; [reflexivity|].
      eapply (lookup_convertible object_prototype); [reflexivity | exact Ep].
    + exists VUndefined. auto.
Qed.

Lemma to_number_primitive p : to_primitive p = Ok p -> exists n, to_number p = Ok n.
Proof. intro H. unfold to_number. rewrite H. cbn [rbind]. eauto. Qed.

Lemma comparison_ok x y :
  convertible x = true -> convertible y = true ->
  (exists b, greater_than x y = Ok b) /\ (exists b, less_than x y = Ok b).
Proof.
  intros Hx Hy.
  apply to_primitive_ok in Hx as (px & Hx & Hpx). apply to_primitive_ok in Hy as (py & Hy & Hpy).
  unfold greater_than, less_than. rewrite Hx, Hy. cbn [rbind].
  destruct (to_number_primitive _ Hpx) as [nx Hnx]. destruct (to_number_primitive _ Hpy) as [ny Hny].
  rewrite Hnx, Hny. cbn [rbind].
  split; destruct px, py; eauto.
Qed.

Lemma filter_callback_ok pf r :
  convertible (pf_value pf) = true -> plain_record r = true ->
  exists b, filter_callback pf r = Ok b.
Proof.
  intros Hv Hr. destruct (get_plain _ (pf_field pf) Hr) as (x & Hx & Hc).
  unfold filter_callback. rewrite Hx. cbn [rbind].
  destruct (to_number_ok _ Hc) as [n ->].
  destruct (proj1 (to_string_convertible x) Hc) as [s ->].
  destruct (proj1 (to_string_convertible _) Hv) as [p ->]. cbn [rbind].
  destruct (str_eqb (pf_type pf) (lit "number")); [eauto|].
  destruct (str_eqb (pf_type pf) (lit "date")); eauto.
Qed.

Lemma sort_callback_ok field dir a b :
  plain_record a = true -> plain_record b = true ->
  exists c, sort_callback field dir a b = Ok c.
Proof.
  intros Ha Hb. destruct (get_plain _ field Ha) as (x & Hx & Hcx).
  destruct (get_plain _ field Hb) as (y & Hy & Hcy).
  destruct (comparison_ok _ _ Hcx Hcy) as [[g Hg] [s Hs]].
  unfold sort_callback. rewrite Hx, Hy. cbn [rbind]. rewrite Hg, Hs. cbn [rbind].
  destruct g; [eauto|]. destruct s; eauto.
Qed.

Section Total.

Variable P : value -> Prop.

Lemma filter_result_ok f l :
  (forall x, P x -> exists b, f x = Ok b) -> Forall P l ->
  exists ys, filter_result f l = Ok ys /\ Forall P ys.
Proof.
  intros Hf. induction 1 as [|x l Hx Hl (ys & IH & Hys)]; simpl; [eauto|].
  destruct (Hf x Hx) as [b ->]. rewrite IH. cbn [rbind].
  destruct b; eauto.
Qed.

Lemma insert_sorted_ok cmp x l :
  (forall a b, P a -> P b -> exists c, cmp a b = Ok c) -> P x -> Forall P l ->
  exists ys, insert_sorted cmp x l = Ok ys /\ Forall P ys.
Proof.
  intros Hc Hx. induction 1 as [|y l Hy Hl (ys & IH & Hys)]; simpl; [eauto|].
  destruct (Hc x y Hx Hy) as [c ->]. cbn [rbind].
  destruct (0 <? c); [rewrite IH; cbn [rbind]|]; eauto.
Qed.

Lemma sort_result_ok cmp l :
  (forall a b, P a -> P b -> exists c, cmp a b = Ok c) -> Forall P l ->
  exists ys, sort_result cmp l = Ok ys /\ Forall P ys.
Proof.
  intros Hc. induction 1 as [|x l Hx Hl (ys & IH & Hys)]; simpl; [eauto|].
  rewrite IH. cbn [rbind]. now apply insert_sorted_ok.
Qed.

End Total.

Lemma to_number_string_or_absent v :
  string_or_absent v = true -> exists n, to_number v = Ok n.
Proof. destruct v; try discriminate; intros _; cbn; eauto. Qed.

Lemma staged_ok q l :
  string_or_absent (q_filter q) = true -> string_or_absent (q_orderby q) = true ->
  convertible (q_skip q) = true -> convertible (q_top q) = true ->
  Forall (fun r => plain_record r = true) l ->
  exists out, staged q l = Ok out.
Proof.
  intros Hf Ho Hs Ht Hl. unfold staged.
  assert (H1 : exists l1, filter_stage (q_filter q) l = Ok l1
                          /\ Forall (fun r => plain_record r = true) l1).
  { unfold filter_stage. destruct (parse_string_or_absent _ Hf) as [[pf|] E]; rewrite E;
      cbn [rbind]; [|eauto].
    apply filter_result_ok; [|assumption]. intros x Hx. apply filter_callback_ok; auto.
    eapply parsed_value_convertible; eauto. }
  destruct H1 as (l1 & -> & Hl1). cbn [rbind].
  assert (H2 : exists l2, order_stage (q_orderby q) l1 = Ok l2).
  { unfold order_stage. destruct (q_orderby q) as [ | | | | s | | | ]; try discriminate.
    - cbn. eauto.
    - destruct (truthy (VStr s)); [|eauto]. cbn [call_split rbind].
      destruct (sort_result_ok (fun r => plain_record r = true)
                  (sort_callback (nth 0 (split 32 s) []) (direction_of (split 32 s))) l1)
        as (ys & E & _); [|exact Hl1|eauto].
      intros a b Ha Hb. now apply sort_callback_ok. }
  destruct H2 as (l2 & ->). cbn [rbind].
  assert (H3 : exists l3, skip_stage (q_skip q) l2 = Ok l3).
  { unfold skip_stage. destruct (truthy (q_skip q)); [|eauto].
    destruct (to_number_ok _ Hs) as [n ->]. cbn [rbind]. eauto. }
  destruct H3 as (l3 & ->). cbn [rbind].
  unfold top_stage. destruct (truthy (q_top q)); [|eauto].
  destruct (to_number_ok _ Ht) as [n ->]. cbn [rbind]. eauto.
Qed.


(* ===================================================================== *)
(** * What the pipeline leaves in the store *)
(* ===================================================================== *)

Lemma nth_error_extended (h ext : heap) b :
  (b < length h)%nat -> nth_error (h ++ ext) b = nth_error h b.
Proof. intro H. now apply nth_error_app1. Qed.

(** [filter], [slice]: the store grows by at most one array, the others are
    as before. *)
Lemma apply_filter_frame h a l filter r h' :
  nth_error h a = Some l -> apply_filter filter a h = (r, h') ->
  (h' = h /\ (r = Ok a \/ exists e, r = Throw e))
  \/ exists ys, h' = h ++ [ys] /\ r = Ok (length h).
Proof.
  intros Ha. rewrite (apply_filter_eq _ _ _ Ha).
  destruct (parseSimpleFilter filter) as [[pf|]|e].
  - destruct (filter_result (filter_callback pf) l) as [ys|e]; intro H; inversion H; eauto.
  - intro H; inversion H; eauto.
  - intro H; inversion H; eauto.
Qed.

Lemma apply_skip_frame h a l skip r h' :
  nth_error h a = Some l -> apply_skip skip a h = (r, h') ->
  (h' = h /\ (r = Ok a \/ exists e, r = Throw e))
  \/ exists ys, h' = h ++ [ys] /\ r = Ok (length h).
Proof.
  intros Ha. rewrite (apply_skip_eq _ _ _ Ha).
  destruct (truthy skip); [|intro H; inversion H; eauto].
  destruct (to_number skip); intro H; inversion H; eauto.
Qed.

Lemma apply_top_frame h a l top r h' :
  nth_error h a = Some l -> apply_top top a h = (r, h') ->
  (h' = h /\ (r = Ok a \/ exists e, r = Throw e))
  \/ exists ys, h' = h ++ [ys] /\ r = Ok (length h).
Proof.
  intros Ha. rewrite (apply_top_eq _ _ _ Ha).
  destruct (truthy top); [|intro H; inversion H; eauto].
  destruct (to_number top); intro H; inversion H; eauto.
Qed.

(** [sort]: no new array; the array at the address of [items] holds the
    sorted sequence, the others are as before. *)
Lemma apply_orderby_frame h a l orderby r h' :
  nth_error h a = Some l -> apply_orderby orderby a h = (r, h') ->
  (h' = h /\ (truthy orderby = false \/ exists e, r = Throw e))
  \/ exists ys, truthy orderby = true /\ order_stage orderby l = Ok ys
                /\ h' = update h a ys /\ r = Ok tt.
Proof.
  intros Ha. rewrite (apply_orderby_eq _ _ _ Ha). unfold order_stage.
  destruct (truthy orderby); [|intro H; inversion H; eauto].
  destruct (call_split orderby) as [pieces|e]; [|intro H; inversion H; eauto].
  cbn [rbind]. destruct (sort_result _ l) as [ys|e]; intro H; inversion H; eauto 7.
Qed.

Lemma tail_frame q h a l r h' :
  nth_error h a = Some l ->
  mbind (apply_skip (q_skip q) a) (fun items => apply_top (q_top q) items) h = (r, h') ->
  exists ext, h' = h ++ ext.
Proof.
  intros Ha. unfold mbind.
  destruct (apply_skip (q_skip q) a h) as [r1 h1] eqn:E1.
  apply (apply_skip_frame _ _ _ _ _ _ Ha) in E1 as [[-> [-> | [e ->]]] | (ys & -> & ->)].
  - intro E2. apply (apply_top_frame _ _ _ _ _ _ Ha) in E2 as [[-> _] | (zs & -> & _)].
    + exists []. now rewrite app_nil_r.
    + eauto.
  - intro H. inversion H. exists []. now rewrite app_nil_r.
  - intro E2.
    apply (apply_top_frame _ _ _ _ _ _ (nth_error_fresh h ys)) in E2
      as [[-> _] | (zs & -> & _)].
    + eauto.
    + exists [ys; zs]. now rewrite <- app_assoc.
Qed.

(** The store after the pipeline, for [items] at address [a] holding [l]:
    the other arrays are as before; the array at [a] is as before when a
    predicate was parsed or [$orderby] is absent or empty, and holds the
    sorted sequence when no predicate was parsed. *)
Lemma pipeline_frame q h a l r h' :
  nth_error h a = Some l -> pipeline q a h = (r, h') ->
  (forall b, (b < length h)%nat -> b <> a -> nth_error h' b = nth_error h b)
  /\ ((exists pf, parseSimpleFilter (q_filter q) = Ok (Some pf))
      \/ truthy (q_orderby q) = false -> nth_error h' a = Some l)
  /\ (parseSimpleFilter (q_filter q) = Ok None ->
      forall ys, order_stage (q_orderby q) l = Ok ys -> nth_error h' a = Some ys).
Proof.
  intros Ha. pose proof (nth_error_lt _ _ _ Ha) as Hlt.
  unfold pipeline. unfold mbind at 1. rewrite (apply_filter_eq _ _ _ Ha).
  destruct (parseSimpleFilter (q_filter q)) as [[pf|]|e] eqn:Ep.
  - (* a predicate: the filtered array is new, and it is the one sorted *)
    destruct (filter_result (filter_callback pf) l) as [ys|e].
    + unfold mbind at 1.
      destruct (apply_orderby (q_orderby q) (length h) (h ++ [ys])) as [r2 h2] eqn:E2.
      pose proof (nth_error_fresh h ys) as Hys.
      apply (apply_orderby_frame _ _ _ _ _ _ Hys) in E2.
      assert (H2 : exists zs, nth_error h2 (length h) = Some zs
                   /\ length h2 = S (length h)
                   /\ forall b, (b < length h)%nat -> nth_error h2 b = nth_error h b).
      { destruct E2 as [[-> _] | (zs & _ & _ & -> & _)].
        - exists ys. rewrite length_app. cbn [length]. repeat split; [exact Hys | lia |].
          intros b Hb. now apply nth_error_old.
        - exists zs. rewrite length_update, length_app. cbn [length].
          repeat split; [|lia|].
          + apply nth_error_update_same. rewrite length_app. cbn [length]. lia.
          + intros b Hb. rewrite nth_error_update_other by lia. now apply nth_error_old. }
      destruct H2 as (zs & Hzs & Hlen & Hold).
      destruct r2 as [[]|e].
      * intro E3. apply (tail_frame _ _ _ _ _ _ Hzs) in E3 as [ext ->].
        assert (Hall : forall b, (b < length h)%nat -> nth_error (h2 ++ ext) b = nth_error h b).
        { intros b Hb. rewrite nth_error_extended by lia. now apply Hold. }
        repeat split.
        -- intros b Hb _. now apply Hall.
        -- intros _. rewrite Hall by assumption. exact Ha.
        -- discriminate.
      * intro H. inversion H; subst. repeat split.
        -- intros b Hb _. now apply Hold.
        -- intros _. rewrite Hold by assumption. exact Ha.
        -- discriminate.
    + intro H. inversion H; subst. repeat split; auto. discriminate.
  - (* no predicate: the array at [a] is the one sorted *)
    unfold mret. unfold mbind at 1.
    destruct (apply_orderby (q_orderby q) a h) as [r2 h2] eqn:E2.
    pose proof (order_sim _ _ _ (q_orderby q) Ha) as Hsim. rewrite E2 in Hsim.
    apply (apply_orderby_frame _ _ _ _ _ _ Ha) in E2.
    destruct r2 as [[]|e].
    + destruct Hsim as (zs & Hzs & Hat). intro E3.
      pose proof E3 as E3'. apply (tail_frame _ _ _ _ _ _ Hat) in E3' as [ext ->].
      assert (Hlen : length h2 = length h).
      { destruct E2 as [[-> _] | (ys & _ & _ & -> & _)]; [reflexivity | apply length_update]. }
      repeat split.
      * intros b Hb Hne. rewrite nth_error_extended by lia.
        destruct E2 as [[-> _] | (ys & _ & _ & -> & _)]; [reflexivity|].
        now apply nth_error_update_other.
      * intros [[pf' Hpf] | Hf]; [discriminate|].
        rewrite nth_error_extended by lia.
        destruct E2 as [[-> _] | (ys & Ht & _)]; [exact Ha | congruence].
      * intros _ ys Hys. rewrite nth_error_extended by lia. congruence.
    + intro H. inversion H; subst. destruct E2 as [[-> _] | (ys & _ & _ & _ & Hr)];
        [|discriminate].
      repeat split; auto. intros _ ys Hys. congruence.
  - intro H. inversion H; subst. repeat split; auto. discriminate.
Qed.

Lemma snd_run_pipeline q l : snd (run_pipeline q l) = snd (pipeline q 0%nat [l]).
Proof.
  unfold run_pipeline, mbind, alloc. cbn [app length].
  destruct (pipeline q 0%nat [l]) as [[a'|e] h']; reflexivity.
Qed.

(** C9 (amended). The filter, skip and top statements, when they apply, put
    their result in a new array and leave every array of the store as it
    was. The order statement makes no new array: it sorts the array that
    [items] holds, in place. So after the pipeline the normalized sequence is
    as it was when a filter predicate was parsed (the filtered copy is the
    one sorted) or when [$orderby] is absent or empty; when no predicate was
    parsed, the normalized sequence itself holds the sorted order. *)
Theorem stages_and_the_store :
  (forall h a l v r h',
     nth_error h a = Some l ->
     apply_filter v a h = (r, h') \/ apply_skip v a h = (r, h')
       \/ apply_top v a h = (r, h') ->
     (forall b, (b < length h)%nat -> nth_error h' b = nth_error h b)
     /\ (forall a', r = Ok a' ->
           (a' = a /\ h' = h) \/ (a' = length h /\ length h' = S (length h))))
  /\ (forall h a l orderby r h',
        nth_error h a = Some l ->
        apply_orderby orderby a h = (r, h') ->
        length h' = length h
        /\ (forall b, b <> a -> nth_error h' b = nth_error h b)
        /\ (r = Ok tt -> forall ys, order_stage orderby l = Ok ys ->
            nth_error h' a = Some ys))
  /\ (forall q l,
        ((exists pf, parseSimpleFilter (q_filter q) = Ok (Some pf))
         \/ truthy (q_orderby q) = false ->
         nth_error (snd (run_pipeline q l)) 0 = Some l)
        /\ (parseSimpleFilter (q_filter q) = Ok None ->
            forall ys, order_stage (q_orderby q) l = Ok ys ->
            nth_error (snd (run_pipeline q l)) 0 = Some ys)).
Proof.
  split; [|split].
  - intros h a l v r h' Ha H.
    assert (F : (h' = h /\ (r = Ok a \/ exists e, r = Throw e))
                \/ exists ys, h' = h ++ [ys] /\ r = Ok (length h)).
    { destruct H as [H | [H | H]];
        eauto using apply_filter_frame, apply_skip_frame, apply_top_frame. }
    destruct F as [[-> Hr] | (ys & -> & ->)]; split.
    + reflexivity.
    + intros a' ->. destruct Hr as [Hr | [e Hr]]; inversion Hr. auto.
    + intros b Hb. now apply nth_error_old.
    + intros a' Hr. inversion Hr. right. rewrite length_app. cbn [length]. lia.
  - intros h a l orderby r h' Ha H.
    pose proof (order_sim _ _ _ orderby Ha) as Hsim. rewrite H in Hsim.
    apply (apply_orderby_frame _ _ _ _ _ _ Ha) in H.
    destruct H as [[-> _] | (ys & _ & _ & -> & ->)].
    + repeat split; auto. intros -> ys Hys. destruct Hsim as (zs & Hzs & Hat). congruence.
    + repeat split.
      * apply length_update.
      * intros b Hb. apply nth_error_update_other. congruence.
      * intros _ zs Hzs. destruct Hsim as (zs' & Hzs' & Hat). congruence.
  - intros q l. rewrite snd_run_pipeline.
    destruct (pipeline q 0%nat [l]) as [r h'] eqn:E.
    assert (Ha : nth_error [l] 0 = Some l) by reflexivity.
    destruct (pipeline_frame _ _ _ _ _ _ Ha E) as (_ & H1 & H2). cbn [snd]. auto.
Qed.

(** Two records: with [$filter=id eq 1] and [$orderby=id desc] the normalized
    sequence is as it was; with [$orderby=id desc] alone it holds the sorted
    order. *)
Lemma stages_and_the_store_witness :
  let l := [record 1; record 2] in
  nth_error
    (snd (run_pipeline (Query VUndefined VUndefined (VStr (lit "id desc"))
                          (VStr (lit "id eq 1")) VUndefined) l)) 0
    = Some l
  /\ nth_error
       (snd (run_pipeline (Query VUndefined VUndefined (VStr (lit "id desc"))
                             VUndefined VUndefined) l)) 0
     = Some [record 2; record 1].
Proof.
  intro l. split.
  - apply (proj1 (proj2 (proj2 stages_and_the_store) _ l)). left.
    eexists. vm_compute. reflexivity.
  - apply (proj2 (proj2 (proj2 stages_and_the_store) _ l)).
    + reflexivity.
    + vm_compute. reflexivity.
Defined.

(** [$orderby=id desc] and no filter on the normalized sequence of the
    records 1 and 2: the pipeline answers the array it was given, and that
    array is no longer in its order. *)
Lemma orderby_sorts_the_source_in_place :
  let q := Query VUndefined VUndefined (VStr (lit "id desc")) VUndefined VUndefined in
  let l := [record 1; record 2] in
  run_pipeline q l = (Ok [record 2; record 1], [[record 2; record 1]])
  /\ pipeline q 0%nat [l] = (Ok 0%nat, [[record 2; record 1]])
  /\ nth_error (snd (run_pipeline q l)) 0 <> Some l.
Proof.
  intros q l. split; [vm_compute; reflexivity|]. split; [vm_compute; reflexivity|].
  vm_compute. discriminate.
Qed.

(* ===================================================================== *)
(** * Checks of the run-time model on known values *)
(* ===================================================================== *)

Example number_of_strings :
  map (fun s => string_to_number (lit s))
      [ "42"; " 12.5e1 "; EmptyString; "abc"; "0x1F"; "-0"; "1e400"; "5."; "."; "12px" ]%string
  = [ number_of_Z 42; number_of_Z 125; pos_zero; NaN; number_of_Z 31; neg_zero;
      infinity false; number_of_Z 5; NaN; NaN ].
Proof. vm_compute. reflexivity. Qed.

Example string_of_numbers :
  map (fun s => number_to_string (string_to_number (lit s)))
      [ "42"; "-2"; "0.1"; "12.50"; "1e21"; "0.0000001"; "123456789012345680000";
        "5e-324"; "0.30000000000000004"; "9007199254740993"; "abc"; "-0" ]%string
  = map lit
      [ "42"; "-2"; "0.1"; "12.5"; "1e+21"; "1e-7"; "123456789012345680000";
        "5e-324"; "0.30000000000000004"; "9007199254740992"; "NaN"; "0" ]%string.
Proof. vm_compute. reflexivity. Qed.

Example conversions_of_values :
  to_number (VArr [ VStr (lit "7") ]) = Ok (number_of_Z 7)
  /\ to_number (VArr [ VStr (lit "1"); VStr (lit "2") ]) = Ok NaN
  /\ to_string (VArr [ VNum (number_of_Z 1); VNull; VArr [ VBool true ] ]) = Ok (lit "1,,true")
  /\ to_string (VObj [ (lit "valueOf", VNum pos_zero) ]) = Ok (lit "[object Object]")
  /\ to_number (VObj []) = Ok NaN
  /\ get (record 1) (lit "constructor") = Ok (native_function "Object").
Proof. vm_compute. repeat split. Qed.

Example filters_on_records :
  let l := map record [1; 2; 3] in
  fst (run_pipeline (Query VUndefined VUndefined VUndefined (VStr (lit "id eq 2")) VUndefined) l)
    = Ok [record 2]
  /\ fst (run_pipeline (Query VUndefined VUndefined VUndefined (VStr (lit "id eq '2'")) VUndefined) l)
    = Ok [record 2]
  /\ fst (run_pipeline (Query VUndefined VUndefined VUndefined (VStr (lit "outlet eq 'null'")) VUndefined) l)
    = Ok l
  /\ fst (run_pipeline (Query VUndefined VUndefined VUndefined (VStr (lit "id eq 0002")) VUndefined) l)
    = Ok [record 2].
Proof. vm_compute. repeat split. Qed.

(** The handler of index.js has no timer: it never answers a silent
    upstream, where the handler of part_000 answers 504. *)
Example silent_upstream (req : request) :
  handler_plain req UpSilent = None
  /\ handler req UpSilent = Some (Response 504 (ErrorResponse (lit "Upstream timeout") None)).
Proof. split; reflexivity. Qed.


(* ===================================================================== *)
(** * The sort and the normalized records *)
(* ===================================================================== *)

Lemma insert_sorted_permutation cmp x l r :
  insert_sorted cmp x l = Ok r -> Permutation (x :: l) r.
Proof.
  revert r. induction l as [|y l IH]; intros r H; simpl in H.
  - inversion H. apply Permutation_refl.
  - destruct (cmp x y) as [c|e]; [|discriminate]. cbn [rbind] in H.
    destruct (0 <? c).
    + destruct (insert_sorted cmp x l) as [r'|e]; [|discriminate]. cbn [rbind] in H.
      inversion H; subst. eapply perm_trans; [apply perm_swap|].
      apply perm_skip. now apply IH.
    + inversion H. apply Permutation_refl.
Qed.

(** When [sort] returns, the array holds the records it held, reordered. *)
Lemma sort_result_permutation cmp l r : sort_result cmp l = Ok r -> Permutation l r.
Proof.
  revert r. induction l as [|x l IH]; intros r H; simpl in H.
  - inversion H. apply perm_nil.
  - destruct (sort_result cmp l) as [r'|e]; [|discriminate]. cbn [rbind] in H.
    eapply perm_trans; [apply perm_skip, IH; reflexivity|].
    eapply insert_sorted_permutation; eauto.
Qed.

Lemma toNum_convertible v x : toNum v = Ok x -> convertible x = true.
Proof.
  unfold toNum. destruct (_ || _)%bool.
  - intro H. inversion H. reflexivity.
  - destruct (to_number v); [|discriminate]. intro H. inversion H. reflexivity.
Qed.

Lemma or_null_convertible v : convertible v = true -> convertible (or_null v) = true.
Proof. destruct v; auto. Qed.

(** The record that [normalizeItem] returns is plain when the four string
    fields of the row convert, as they do in a flat row. *)
Lemma normalizeItem_plain_record props r :
  normalizeItem (VObj props) = Ok r ->
  (forall k, In k schema_keys -> convertible (own props k) = true) ->
  plain_record r = true.
Proof.
  intros H Hs. split_toNum H. inversion H; subst r. clear H.
  unfold plain_record. cbn [forallb snd].
  repeat match goal with
         | E : toNum _ = Ok ?a |- _ => apply toNum_convertible in E; rewrite E
         end.
  rewrite !or_null_convertible; [reflexivity | | | | ];
    apply Hs; unfold schema_keys; cbn [map In]; tauto.
Qed.

Example orderings :
  let l := map record [2; 3; 1] in
  fst (run_pipeline (Query VUndefined VUndefined (VStr (lit "id desc")) VUndefined VUndefined) l)
    = Ok (map record [3; 2; 1])
  /\ fst (run_pipeline (Query VUndefined VUndefined (VStr (lit "id")) VUndefined VUndefined) l)
    = Ok (map record [1; 2; 3])
  /\ fst (run_pipeline (Query VUndefined VUndefined (VStr (lit "id DESC")) VUndefined VUndefined) l)
    = Ok (map record [1; 2; 3])
  /\ fst (run_pipeline (Query VUndefined VUndefined (VStr (lit "id  desc")) VUndefined VUndefined) l)
    = Ok (map record [1; 2; 3])
  /\ fst (run_pipeline (Query VUndefined VUndefined (VStr (lit "id desc x")) VUndefined VUndefined) l)
    = Ok (map record [3; 2; 1])
  /\ fst (run_pipeline (Query VUndefined VUndefined (VStr (lit "nothing")) VUndefined VUndefined) l)
    = Ok l.
Proof. vm_compute. repeat split. Qed.


(* ===================================================================== *)
(** * More on the normalizer *)
(* ===================================================================== *)

Lemma toNum_cases v r :
  toNum v = Ok r ->
  (nullish v = true /\ r = VNull)
  \/ (nullish v = false /\ exists n, to_number v = Ok n /\ r = VNum n).
Proof.
  unfold toNum.
  destruct (strict_equals v VNull || strict_equals v VUndefined || strict_equals v (VStr []))%bool
    eqn:E.
  - intro H. inversion H. left. split; [|reflexivity].
    destruct v as [ | | | | [|c s] | | | ]; try reflexivity; discriminate.
  - destruct (to_number v) as [n|e] eqn:En; [|discriminate]. cbn [rbind].
    intro H. inversion H. right. split; [|eauto].
    destruct v as [ | | | | [|c s] | | | ]; try reflexivity; discriminate.
Qed.

Lemma toNum_again v r : toNum v = Ok r -> toNum r = Ok r.
Proof.
  intro H. apply toNum_cases in H as [[_ ->] | [_ (n & _ & ->)]]; reflexivity.
Qed.

Lemma or_null_again v : or_null (or_null v) = or_null v.
Proof. now destruct v. Qed.

(** X1. Normalizing is idempotent: a record that [normalizeItem] returned
    is returned unchanged when it is normalized again. *)
Theorem normalizeItem_idempotent (item r : value) :
  normalizeItem item = Ok r -> normalizeItem r = Ok r.
Proof.
  destruct item as [ | | b | x | s | elems | props | src ];
    [ discriminate | discriminate | | | | | | ];
    [ intro H; inversion H; vm_compute; reflexivity ..
    | | intro H; inversion H; vm_compute; reflexivity ].
  intro H. split_toNum H. inversion H; subst r. clear H.
  rewrite normalizeItem_object.
  repeat match goal with
         | |- context [own ?F ?k] =>
             match F with
             | props => fail 1
             | _ =>
                 let v := eval cbv in k in
                 let t := constr:(own F k) in
                 let u := eval cbv [own lookup str_eqb lit list_ascii_of_string map
                                      N_of_ascii N.eqb Pos.eqb andb N_of_digits
                                      N.add N.mul Pos.add Pos.mul Pos.succ N.double
                                      N.succ_double] in t in
                 change t with u
             end
         end.
  repeat match goal with
         | E : toNum _ = Ok ?a |- context [toNum ?a] =>
             rewrite (toNum_again _ _ E); cbn [rbind]
         end.
  rewrite !or_null_again. reflexivity.
Qed.

Lemma normalizeItem_idempotent_witness : normalizeItem (record 7) = Ok (record 7).
Proof.
  apply (normalizeItem_idempotent (row 7) (record 7)). vm_compute. reflexivity.
Defined.

Ltac each_key H keys :=
  unfold keys in H; cbn [map In] in H;
  repeat match type of H with
         | _ \/ _ => destruct H as [H | H]
         end; [ subst .. | contradiction ].

(** X2. The type discipline of a normalized record: a numeric field is
    [null] when its input is absent, [null] or the empty string, and
    otherwise the number [Number(input)] (NaN for a text that is no number),
    never a string or [undefined]; a string field is its input, or [null]
    when the input is absent or [null]. *)
Theorem normalizeItem_fields (props fields : list (str * value)) :
  normalizeItem (VObj props) = Ok (VObj fields) ->
  (forall k, In k numeric_keys ->
     (nullish (own props k) = true /\ lookup k fields = Some VNull)
     \/ (nullish (own props k) = false
         /\ exists n, to_number (own props k) = Ok n /\ lookup k fields = Some (VNum n)))
  /\ (forall k, In k string_keys -> lookup k fields = Some (or_null (own props k))).
Proof.
  intro H. split_toNum H. inversion H; subst fields. clear H. split.
  - intros k Hk.
    each_key Hk numeric_keys;
      match goal with
      | E : toNum (own props ?k) = Ok ?a |- context [nullish (own props ?k)] =>
          apply toNum_cases in E as [[E ->] | [E (n & En & ->)]];
            [ left; split; [exact E | reflexivity]
            | right; split; [exact E | exists n; split; [exact En | reflexivity]] ]
      end.
  - intros k Hk. each_key Hk string_keys; reflexivity.
Qed.

(** A row with a numeric text, a text that is no number, an empty string and
    a missing outlet. *)
Lemma normalizeItem_fields_witness :
  let props := [ (lit "id", VStr (lit "7")); (lit "quantity", VStr (lit "abc"));
                 (lit "profit", VStr []); (lit "day", VStr (lit "Mon")) ] in
  exists fields,
    normalizeItem (VObj props) = Ok (VObj fields)
    /\ lookup (lit "quantity") fields = Some (VNum NaN)
    /\ lookup (lit "outlet") fields = Some VNull
    /\ lookup (lit "day") fields = Some (VStr (lit "Mon")).
Proof.
  intro props.
  assert (E : exists fields, normalizeItem (VObj props) = Ok (VObj fields))
    by (vm_compute; eauto).
  destruct E as [fields E]. exists fields. split; [exact E|].
  destruct (normalizeItem_fields props fields E) as [Hn Hs].
  split; [|split].
  - destruct (Hn (lit "quantity")) as [[Hx _] | [_ (n & Hn' & ->)]].
    + unfold numeric_keys. cbn [map In]. tauto.
    + vm_compute in Hx. discriminate.
    + vm_compute in Hn'. inversion Hn'. reflexivity.
  - rewrite (Hs (lit "outlet")); [reflexivity|]. unfold string_keys. cbn [map In]. tauto.
  - rewrite (Hs (lit "day")); [reflexivity|]. unfold string_keys. cbn [map In]. tauto.
Defined.

(* ===================================================================== *)
(** * What the handler can throw *)
(* ===================================================================== *)

Lemma join_with_throw {A} (f : A -> result str) (P : exn -> Prop) (l : list A) e :
  Forall (fun x => forall e, f x = Throw e -> P e) l ->
  join_with f l = Throw e -> P e.
Proof.
  induction 1 as [|x l Hx Hl IH]; simpl; [discriminate|].
  destruct l as [|y l].
  - apply Hx.
  - destruct (f x) as [a|e'] eqn:Ex; cbn [rbind].
    + destruct (join_with f (y :: l)) as [b|e'']; cbn [rbind]; [discriminate|].
      intro H. inversion H; subst. now apply IH.
    + intro H. inversion H; subst. now apply Hx.
Qed.

(** Every conversion that throws, throws a [TypeError]. *)
Lemma to_string_throw v e : to_string v = Throw e -> exn_name e = lit "TypeError".
Proof.
  revert e.
  induction v as [ | | b | x | s | elems IH | props _ | src ] using value_induction;
    intros e; simpl; try discriminate.
  - apply (join_with_throw _ (fun e => exn_name e = lit "TypeError")).
    eapply Forall_impl; [|exact IH]. intros x Hx e'. destruct x; try discriminate; apply Hx.
  - destruct (has_key (lit "toString") props); [|discriminate].
    intro H. inversion H. reflexivity.
Qed.

Lemma to_primitive_throw v e : to_primitive v = Throw e -> exn_name e = lit "TypeError".
Proof.
  destruct v; simpl; try discriminate;
    match goal with
    | |- context [join_with ?f ?l] =>
        destruct (join_with f l) eqn:E; cbn [rbind]; [discriminate|];
        intro H; inversion H; subst;
        apply (to_string_throw (VArr l)); exact E
    | _ => idtac
    end.
  destruct (has_key (lit "toString") props); cbn [rbind]; [|discriminate].
  intro H. inversion H. reflexivity.
Qed.

Lemma to_number_throw v e : to_number v = Throw e -> exn_name e = lit "TypeError".
Proof.
  unfold to_number. destruct (to_primitive v) as [p|e'] eqn:E; cbn [rbind]; [discriminate|].
  intro H. inversion H; subst. eapply to_primitive_throw; eauto.
Qed.

Lemma get_throw v k e : get v k = Throw e -> exn_name e = lit "TypeError".
Proof.
  destruct v; unfold get; try discriminate;
    try (intro H; inversion H; reflexivity).
  destruct (lookup k props); [discriminate|].
  destruct (lookup k object_prototype); discriminate.
Qed.

Lemma toNum_throw v e : toNum v = Throw e -> exn_name e = lit "TypeError".
Proof.
  unfold toNum. destruct (_ || _)%bool; [discriminate|].
  destruct (to_number v) as [n|e'] eqn:E; cbn [rbind]; [discriminate|].
  intro H. inversion H; subst. eapply to_number_throw; eauto.
Qed.

Ltac throw_step H :=
  match type of H with
  | rbind ?c _ = Throw _ =>
      let E := fresh "E" in
      destruct c eqn:E; cbn [rbind] in H;
      [ | inversion H; subst;
          first [ eapply get_throw; eassumption
                | eapply toNum_throw; eassumption
                | eapply to_number_throw; eassumption
                | eapply to_string_throw; eassumption
                | eapply to_primitive_throw; eassumption ] ]
  end.

Lemma normalizeItem_throw v e : normalizeItem v = Throw e -> exn_name e = lit "TypeError".
Proof.
  unfold normalizeItem. intro H. repeat throw_step H. discriminate.
Qed.


Lemma map_result_throw f l e :
  map_result f l = Throw e -> exists x, In x l /\ f x = Throw e.
Proof.
  induction l as [|x l IH]; simpl; [discriminate|].
  destruct (f x) as [y|e'] eqn:Ex; cbn [rbind].
  - destruct (map_result f l) as [ys|e'']; cbn [rbind]; [discriminate|].
    intro H. inversion H; subst. destruct (IH eq_refl) as (z & Hz & Hfz). eauto.
  - intro H. inversion H; subst. eauto.
Qed.

Lemma map_result_fails f l x e :
  In x l -> f x = Throw e -> exists e', map_result f l = Throw e'.
Proof.
  induction l as [|y l IH]; intros Hin Hx; [contradiction|]. simpl.
  destruct Hin as [-> | Hin].
  - rewrite Hx. cbn [rbind]. eauto.
  - destruct (f y); cbn [rbind]; [|eauto].
    destruct (IH Hin Hx) as [e' ->]. cbn [rbind]. eauto.
Qed.

Lemma filter_result_throw f l e :
  filter_result f l = Throw e -> exists x, In x l /\ f x = Throw e.
Proof.
  induction l as [|x l IH]; simpl; [discriminate|].
  destruct (f x) as [b|e'] eqn:Ex; cbn [rbind].
  - destruct (filter_result f l) as [ys|e'']; cbn [rbind]; [discriminate|].
    intro H. inversion H; subst. destruct (IH eq_refl) as (z & Hz & Hfz). eauto.
  - intro H. inversion H; subst. eauto.
Qed.

Lemma insert_sorted_throw cmp x l e :
  insert_sorted cmp x l = Throw e -> exists a b, cmp a b = Throw e.
Proof.
  induction l as [|y l IH]; simpl; [discriminate|].
  destruct (cmp x y) as [c|e'] eqn:Ec; cbn [rbind].
  - destruct (0 <? c); [|discriminate].
    destruct (insert_sorted cmp x l) as [r|e'']; cbn [rbind]; [discriminate|].
    intro H. inversion H; subst. now apply IH.
  - intro H. inversion H; subst. eauto.
Qed.

Lemma sort_result_throw cmp l e :
  sort_result cmp l = Throw e -> exists a b, cmp a b = Throw e.
Proof.
  induction l as [|x l IH]; simpl; [discriminate|].
  destruct (sort_result cmp l) as [r|e'] eqn:Er; cbn [rbind].
  - apply insert_sorted_throw.
  - intro H. inversion H; subst. now apply IH.
Qed.

Lemma parseSimpleFilter_throw v e :
  parseSimpleFilter v = Throw e -> exn_name e = lit "TypeError".
Proof.
  unfold parseSimpleFilter. destruct (negb (truthy v)); [discriminate|].
  destruct v; cbn [call_trim rbind]; try (intro H; inversion H; reflexivity).
  destruct (regex_match re_string (trim s)); [discriminate|].
  destruct (regex_match re_number (trim s)); [cbn; discriminate|].
  destruct (regex_match re_date (trim s)); discriminate.
Qed.

Lemma filter_callback_throw pf r e :
  convertible (pf_value pf) = true ->
  filter_callback pf r = Throw e -> exn_name e = lit "TypeError".
Proof.
  intros Hv. unfold filter_callback.
  destruct (proj1 (to_string_convertible _) Hv) as [p Hp]. rewrite Hp.
  intro H. throw_step H.
  destruct (str_eqb (pf_type pf) (lit "number")).
  - throw_step H. discriminate.
  - destruct (str_eqb (pf_type pf) (lit "date")); throw_step H; discriminate.
Qed.

Lemma comparison_throw x y e :
  greater_than x y = Throw e \/ less_than x y = Throw e -> exn_name e = lit "TypeError".
Proof.
  unfold greater_than, less_than. intros [H | H];
    throw_step H; throw_step H;
    match type of H with
    | match ?a with _ => _ end = _ =>
        destruct a; try discriminate;
        match type of H with
        | match ?b with _ => _ end = _ => destruct b; try discriminate
        | _ => idtac
        end
    end; repeat throw_step H; discriminate.
Qed.

Lemma sort_callback_throw field dir a b e :
  sort_callback field dir a b = Throw e -> exn_name e = lit "TypeError".
Proof.
  unfold sort_callback. intro H. throw_step H. throw_step H.
  match type of H with
  | rbind (greater_than ?x ?y) _ = _ =>
      destruct (greater_than x y) as [g|e'] eqn:Eg; cbn [rbind] in H;
      [| inversion H; subst; eapply comparison_throw; eauto ]
  end.
  destruct g; [discriminate|].
  match type of H with
  | rbind (less_than ?x ?y) _ = _ =>
      destruct (less_than x y) as [l|e'] eqn:El; cbn [rbind] in H;
      [| inversion H; subst; eapply comparison_throw; eauto ]
  end.
  destruct l; discriminate.
Qed.

(** The list stages throw [TypeError]s only. *)
Lemma staged_throw q l e : staged q l = Throw e -> exn_name e = lit "TypeError".
Proof.
  unfold staged. intro H.
  destruct (filter_stage (q_filter q) l) as [l1|e1] eqn:E1; cbn [rbind] in H.
  2:{ inversion H; subst. unfold filter_stage in E1.
      destruct (parseSimpleFilter (q_filter q)) as [[pf|]|e'] eqn:Ep; cbn [rbind] in E1.
      - apply filter_result_throw in E1 as (x & _ & Hx).
        eapply filter_callback_throw; [|exact Hx]. eapply parsed_value_convertible; eauto.
      - discriminate.
      - inversion E1; subst. eapply parseSimpleFilter_throw; eauto. }
  destruct (order_stage (q_orderby q) l1) as [l2|e2] eqn:E2; cbn [rbind] in H.
  2:{ inversion H; subst. unfold order_stage in E2.
      destruct (truthy (q_orderby q)); [|discriminate].
      destruct (q_orderby q); cbn [call_split rbind] in E2;
        try (inversion E2; reflexivity).
      apply sort_result_throw in E2 as (a & b & Hab). eapply sort_callback_throw; eauto. }
  destruct (skip_stage (q_skip q) l2) as [l3|e3] eqn:E3; cbn [rbind] in H.
  2:{ inversion H; subst. unfold skip_stage in E3.
      destruct (truthy (q_skip q)); [|discriminate]. throw_step E3. discriminate. }
  unfold top_stage in H. destruct (truthy (q_top q)); [|discriminate].
  throw_step H. discriminate.
Qed.

(** Whatever [respond] throws is a [TypeError]. *)
Lemma respond_throw req data e :
  fst (respond req data []) = Throw e -> exn_name e = lit "TypeError".
Proof.
  rewrite respond_staged. intro H.
  destruct (map_result normalizeItem (elements data)) as [normalized|e'] eqn:En;
    cbn [rbind] in H.
  - destruct (staged (req_query req) normalized) as [out|e'] eqn:Es; cbn [rbind] in H;
      [discriminate|]. inversion H; subst. eapply staged_throw; eauto.
  - inversion H; subst. apply map_result_throw in En as (x & _ & Hx).
    eapply normalizeItem_throw; eauto.
Qed.

Lemma on_error_type_error e :
  exn_name e = lit "TypeError" ->
  on_error e = Response 500 (ErrorResponse (exn_message e) None).
Proof. intro H. unfold on_error. rewrite H. reflexivity. Qed.

(* ===================================================================== *)
(** * More on the handler *)
(* ===================================================================== *)

Lemma named_abort_type_error e : exn_name e = lit "TypeError" -> named_abort e = false.
Proof. intro H. unfold named_abort. rewrite H. reflexivity. Qed.

(** X3. A [null] row in the upstream array makes the whole request fail:
    [normalizeItem] throws on it and the handler answers 500 with the message
    of the error, whatever the other rows and the query are. *)
Theorem null_row_fails (req : request) (ms status : N) (rows : list value) :
  (ms < timeout_ms)%N -> response_ok status = true -> In VNull rows ->
  exists msg,
    handler req (UpResponds ms status (BodyJson (VArr rows)))
    = Some (Response 500 (ErrorResponse msg None)).
Proof.
  intros Hms Hok Hin. unfold handler, answer, fetch_with_timeout.
  apply N.ltb_lt in Hms. rewrite Hms, Hok. cbn [negb].
  destruct (map_result_fails normalizeItem rows VNull
              (Exn (lit "TypeError") (lit "Cannot read properties of null (reading 'id')"))
              Hin eq_refl) as [e' He'].
  destruct (fst (respond req (VArr rows) [])) as [b|e] eqn:E.
  - rewrite respond_staged in E. cbn [elements] in E. rewrite He' in E. discriminate.
  - apply respond_throw in E. rewrite (on_error_type_error _ E). eauto.
Qed.

Lemma null_row_fails_witness :
  exists msg,
    handler (request_for (Query VUndefined VUndefined VUndefined VUndefined VUndefined))
            (UpResponds 120 200 (BodyJson (VArr [row 1; VNull; row 3])))
    = Some (Response 500 (ErrorResponse msg None)).
Proof.
  apply null_row_fails; [reflexivity | reflexivity | right; left; reflexivity].
Defined.

Lemma slice_list_nil start end_ : slice_list [] start end_ = [].
Proof. unfold slice_list. now rewrite skipn_nil, firstn_nil. Qed.

Lemma staged_nil q :
  string_or_absent (q_filter q) = true -> string_or_absent (q_orderby q) = true ->
  string_or_absent (q_skip q) = true -> string_or_absent (q_top q) = true ->
  staged q [] = Ok [].
Proof.
  intros Hf Ho Hs Ht. unfold staged, filter_stage.
  destruct (parse_string_or_absent _ Hf) as [[pf|] ->]; cbn [rbind filter_result];
    unfold order_stage;
    (destruct (q_orderby q); try discriminate;
     [ cbn [truthy rbind]
     | destruct (truthy (VStr s)); cbn [call_split rbind sort_result] ]);
    unfold skip_stage;
    (destruct (truthy (q_skip q));
     [ destruct (to_number_string_or_absent _ Hs) as [n ->]; cbn [rbind] | cbn [rbind] ]);
    unfold top_stage;
    (destruct (truthy (q_top q));
     [ destruct (to_number_string_or_absent _ Ht) as [n' ->]; cbn [rbind] | ]);
    rewrite ?slice_list_nil; reflexivity.
Qed.

(** X4. An upstream body that is not an array (an object, a string, a
    number, [null]) is not an error: with query parameters that are strings
    or absent the handler answers 200 with an empty result set, and the count
    0 when [$count=true]. *)
Theorem non_array_body_is_empty (req : request) (ms status : N) (data : value) :
  (ms < timeout_ms)%N -> response_ok status = true ->
  (forall elems, data <> VArr elems) ->
  string_or_absent (q_filter (req_query req)) = true ->
  string_or_absent (q_orderby (req_query req)) = true ->
  string_or_absent (q_skip (req_query req)) = true ->
  string_or_absent (q_top (req_query req)) = true ->
  handler req (UpResponds ms status (BodyJson data))
  = Some (Response 200
            (ODataResponse (odata_context req) []
               (if count_requested (req_query req) then Some 0%nat else None))).
Proof.
  intros Hms Hok Hd Hf Ho Hs Ht. unfold handler, answer, fetch_with_timeout.
  apply N.ltb_lt in Hms. rewrite Hms, Hok. cbn [negb].
  rewrite respond_staged.
  assert (E : elements data = []).
  { destruct data; try reflexivity. exfalso. eapply Hd. reflexivity. }
  rewrite E. cbn [map_result rbind]. rewrite staged_nil by assumption. reflexivity.
Qed.

Lemma non_array_body_is_empty_witness :
  handler (request_for (Query (VStr (lit "5")) VUndefined (VStr (lit "id desc"))
                          (VStr (lit "id eq 1")) (VStr (lit "true"))))
          (UpResponds 120 200 (BodyJson (VObj [ (lit "error", VStr (lit "no data")) ])))
  = Some (Response 200 (ODataResponse context_of_sample [] (Some 0%nat))).
Proof.
  apply (non_array_body_is_empty
           (request_for (Query (VStr (lit "5")) VUndefined (VStr (lit "id desc"))
                           (VStr (lit "id eq 1")) (VStr (lit "true"))))
           120%N 200%N (VObj [ (lit "error", VStr (lit "no data")) ]));
    try reflexivity.
  intros elems. discriminate.
Defined.

(** X5. The handler of part_000 answers 504 in two cases only, and then
    with the body [{error: "Upstream timeout"}]: the timer fired before the
    fetch settled, or the upstream side raised an error named [AbortError].
    Nothing in the rows or in the query makes it answer 504. *)
Theorem gateway_timeout_cases (req : request) (u : upstream) (b : body) :
  handler req u = Some (Response 504 b) <->
  b = ErrorResponse (lit "Upstream timeout") None
  /\ (timer_fires u = true
      \/ exists e, upstream_error u = Some e /\ named_abort e = true).
Proof.
  unfold handler, answer, fetch_with_timeout, on_error, timer_fires, upstream_error,
    named_abort.
  destruct u as [ms status payload | ms e | ].
  - destruct (N.ltb ms timeout_ms); cbn [negb].
    + destruct (response_ok status) eqn:Hok; cbn [negb].
      * destruct payload as [data | e | ].
        -- destruct (fst (respond req data [])) as [b'|e] eqn:E.
           ++ split; [discriminate|]. intros [_ [H | (e & H & _)]]; discriminate.
           ++ apply respond_throw in E. rewrite E. cbn.
              split; [discriminate|]. intros [_ [H | (e' & H & _)]]; discriminate.
        -- destruct (str_eqb (exn_name e) (lit "AbortError")) eqn:Ea.
           ++ split.
              ** intro H. inversion H. split; [reflexivity|]. right. eauto.
              ** intros [-> _]. reflexivity.
           ++ split; [discriminate|].
              intros [_ [H | (e' & H & Hn)]]; [discriminate|]. inversion H; subst. congruence.
        -- split; [discriminate|]. intros [_ [H | (e & H & _)]]; discriminate.
      * split; [discriminate|]. intros [_ [H | (e & H & _)]]; try discriminate.
        destruct payload; discriminate.
    + split.
      * intro H. inversion H. auto.
      * intros [-> _]. reflexivity.
  - destruct (N.ltb ms timeout_ms); cbn [negb].
    + destruct (str_eqb (exn_name e) (lit "AbortError")) eqn:Ea.
      * split.
        -- intro H. inversion H. split; [reflexivity|]. right. eauto.
        -- intros [-> _]. reflexivity.
      * split; [discriminate|].
        intros [_ [H | (e' & H & Hn)]]; [discriminate|]. inversion H; subst. congruence.
    + split.
      * intro H. inversion H. auto.
      * intros [-> _]. reflexivity.
  - split.
    + intro H. inversion H. auto.
    + intros [-> _]. reflexivity.
Qed.

Lemma gateway_timeout_cases_witness :
  handler (request_for (Query VUndefined VUndefined VUndefined VUndefined VUndefined))
          (UpResponds 12000 200 (BodyJson (VArr [row 1])))
  = Some (Response 504 (ErrorResponse (lit "Upstream timeout") None)).
Proof.
  apply (proj2 (gateway_timeout_cases _ _ _)). split; [reflexivity|]. left. reflexivity.
Defined.

(** X6. The handler of part_000 leaves a request without an answer in one
    case only: the upstream answered in time with a status 2xx and the
    reading of its body never ends (the timer is cleared once the fetch has
    resolved). *)
Theorem no_answer_cases (req : request) (u : upstream) :
  handler req u = None <->
  exists ms status,
    u = UpResponds ms status BodyStalls /\ (ms < timeout_ms)%N /\ response_ok status = true.
Proof.
  unfold handler, answer, fetch_with_timeout. split.
  - destruct u as [ms status payload | ms e | ]; try discriminate.
    + destruct (N.ltb ms timeout_ms) eqn:Hms; [|discriminate].
      destruct (response_ok status) eqn:Hok; cbn [negb]; [|discriminate].
      destruct payload as [data | e | ]; try discriminate.
      * destruct (fst (respond req data [])); discriminate.
      * intros _. exists ms, status. apply N.ltb_lt in Hms. auto.
    + destruct (N.ltb ms timeout_ms); discriminate.
  - intros (ms & status & -> & Hms & Hok). apply N.ltb_lt in Hms. now rewrite Hms, Hok.
Qed.

Lemma no_answer_cases_witness :
  handler (request_for (Query VUndefined VUndefined VUndefined VUndefined VUndefined))
          (UpResponds 120 200 BodyStalls) = None.
Proof.
  apply (proj2 (no_answer_cases _ _)). exists 120%N, 200%N.
  split; [reflexivity|]. split; reflexivity.
Defined.

(** X7. The two versions of the handler agree whenever the timer of
    part_000 does not fire and the upstream side raises no error named
    [AbortError]: index.js then answers what part_000 answers. *)
Theorem handlers_agree (req : request) (u : upstream) :
  timer_fires u = false ->
  (forall e, upstream_error u = Some e -> named_abort e = false) ->
  handler_plain req u = handler req u.
Proof.
  unfold handler_plain, handler, answer, fetch_plain, fetch_with_timeout, timer_fires,
    upstream_error, on_error, on_error_plain, named_abort.
  destruct u as [ms status payload | ms e | ]; [| |discriminate].
  - destruct (N.ltb ms timeout_ms); [|discriminate]. intros _ He.
    destruct (response_ok status); cbn [negb]; [|reflexivity].
    destruct payload as [data | e | ]; try reflexivity.
    + destruct (fst (respond req data [])) as [b|e] eqn:E; [reflexivity|].
      apply respond_throw in E. now rewrite E.
    + now rewrite (He e eq_refl).
  - destruct (N.ltb ms timeout_ms); [|discriminate]. intros _ He.
    now rewrite (He e eq_refl).
Qed.

Lemma handlers_agree_witness :
  handler_plain
    (request_for (Query VUndefined VUndefined VUndefined (VArr []) VUndefined))
    (UpResponds 120 200 (BodyJson (VArr [row 1])))
  = handler
      (request_for (Query VUndefined VUndefined VUndefined (VArr []) VUndefined))
      (UpResponds 120 200 (BodyJson (VArr [row 1]))).
Proof.
  apply handlers_agree; [reflexivity | intros e H; discriminate].
Defined.


(* ===================================================================== *)
(** * More on the filter stage *)
(* ===================================================================== *)

Lemma filter_result_filter f l out :
  filter_result f l = Ok out ->
  out = filter (fun r => match f r with Ok b => b | Throw _ => false end) l.
Proof.
  revert out. induction l as [|x l IH]; intros out H; simpl in H |- *.
  - now inversion H.
  - destruct (f x) as [b|e]; [|discriminate]. cbn [rbind] in H.
    destruct (filter_result f l) as [ys|e]; [|discriminate]. cbn [rbind] in H.
    inversion H. rewrite <- (IH ys eq_refl). reflexivity.
Qed.

(** X8. When the filter stage returns, it answers exactly the records on
    which the predicate holds, in the order they had; with no parsed
    predicate it answers the sequence as it is. *)
Theorem filter_stage_keeps (filter : value) (l out : list value) :
  filter_stage filter l = Ok out ->
  (forall pf, parseSimpleFilter filter = Ok (Some pf) -> out = kept_by pf l)
  /\ (parseSimpleFilter filter = Ok None -> out = l).
Proof.
  unfold filter_stage. intro H. split.
  - intros pf Hp. rewrite Hp in H. cbn [rbind] in H. now apply filter_result_filter.
  - intro Hp. rewrite Hp in H. cbn [rbind] in H. now inversion H.
Qed.

Lemma filter_stage_keeps_witness :
  kept_by (ParsedFilter (lit "id") (VNum (number_of_Z 2)) (lit "number"))
          (map record [1; 2; 3; 2])
  = [record 2; record 2].
Proof.
  symmetry.
  apply (proj1 (filter_stage_keeps (VStr (lit "id eq 2")) (map record [1; 2; 3; 2])
                  [record 2; record 2] ltac:(vm_compute; reflexivity))).
  vm_compute. reflexivity.
Defined.

Lemma starts_with_prefix s p : starts_with s p = true <-> exists rest, s = p ++ rest.
Proof.
  revert s. induction p as [|y p IH]; intros s; simpl.
  - split; [intros _; now exists s | intros _; now destruct s].
  - destruct s as [|x s]; simpl.
    + split; [discriminate|]. intros [rest H]. discriminate.
    + split.
      * intro H. apply andb_prop in H as [Hx Hs]. apply N.eqb_eq in Hx. subst.
        apply IH in Hs as [rest ->]. eauto.
      * intros [rest H]. inversion H; subst. rewrite N.eqb_refl. apply IH. eauto.
Qed.

(** X9. What each kind of predicate tests on a field that holds a text
    [s]: a string predicate keeps the record exactly when [s] is the value, a
    date predicate exactly when [s] begins with the date (so a full timestamp
    passes a date-only filter), a number predicate exactly when [Number(s)]
    equals the value. *)
Theorem predicate_kinds (r : value) (field s v : str) (n : number) :
  get r field = Ok (VStr s) ->
  (filter_callback (ParsedFilter field (VStr v) (lit "string")) r = Ok true <-> s = v)
  /\ (filter_callback (ParsedFilter field (VStr v) (lit "date")) r = Ok true
      <-> exists rest, s = v ++ rest)
  /\ (filter_callback (ParsedFilter field (VNum n) (lit "number")) r = Ok true
      <-> number_eqb (string_to_number s) n = true).
Proof.
  intro Hg. unfold filter_callback. cbn [pf_field pf_type pf_value]. rewrite Hg.
  cbn [rbind].
  change (str_eqb (lit "string") (lit "number")) with false.
  change (str_eqb (lit "string") (lit "date")) with false.
  change (str_eqb (lit "date") (lit "number")) with false.
  change (str_eqb (lit "date") (lit "date")) with true.
  change (str_eqb (lit "number") (lit "number")) with true.
  cbn [to_string to_number to_primitive rbind strict_equals].
  split; [|split].
  - rewrite <- str_eqb_eq. split; [intro H; now inversion H | now intros ->].
  - rewrite <- starts_with_prefix. split; [intro H; now inversion H | now intros ->].
  - split; [intro H; now inversion H | now intros ->].
Qed.

Lemma predicate_kinds_witness :
  let r := VObj [ (lit "date", VStr (lit "2025-08-01T10:30:00")) ] in
  filter_callback (ParsedFilter (lit "date") (VStr (lit "2025-08-01")) (lit "date")) r
  = Ok true.
Proof.
  intro r.
  apply (proj1 (proj2 (predicate_kinds r (lit "date") (lit "2025-08-01T10:30:00")
                         (lit "2025-08-01") NaN eq_refl))).
  exists (lit "T10:30:00"). reflexivity.
Defined.

(* ===================================================================== *)
(** * More on the order stage *)
(* ===================================================================== *)

Lemma order_stage_permutes_aux (orderby : value) (l out : list value) :
  order_stage orderby l = Ok out -> Permutation l out.
Proof.
  unfold order_stage. destruct (truthy orderby).
  - destruct (call_split orderby) as [pieces|e]; cbn [rbind]; [|discriminate].
    apply sort_result_permutation.
  - intro H. inversion H. apply Permutation_refl.
Qed.

(** X10. When the order stage returns, the sequence holds the records it
    held, each as often as before: sorting neither drops nor repeats a
    record. *)
Theorem order_stage_permutes (orderby : value) (l out : list value) :
  order_stage orderby l = Ok out -> Permutation l out.
Proof. apply order_stage_permutes_aux. Qed.

Lemma order_stage_permutes_witness :
  Permutation (map record [2; 3; 1]) (map record [3; 2; 1]).
Proof.
  apply (order_stage_permutes (VStr (lit "id desc"))). vm_compute. reflexivity.
Defined.

(** ** The order of strings *)

Lemma str_ltb_irrefl a : str_ltb a a = false.
Proof.
  induction a as [|x a IH]; [reflexivity|]. simpl.
  rewrite N.ltb_irrefl, N.eqb_refl, IH. reflexivity.
Qed.

Lemma str_ltb_trichotomy a b : str_ltb a b = true \/ a = b \/ str_ltb b a = true.
Proof.
  revert b. induction a as [|x a IH]; intros [|y b]; simpl; auto.
  destruct (N.lt_trichotomy x y) as [H | [-> | H]].
  - left. apply N.ltb_lt in H. now rewrite H.
  - rewrite N.ltb_irrefl, N.eqb_refl. simpl.
    destruct (IH b) as [H | [-> | H]]; auto.
  - right; right. apply N.ltb_lt in H. now rewrite H.
Qed.

Lemma str_ltb_trans a b c :
  str_ltb a b = true -> str_ltb b c = true -> str_ltb a c = true.
Proof.
  revert b c. induction a as [|x a IH]; intros [|y b] [|z c]; simpl; try discriminate; auto.
  intros H1 H2.
  apply orb_true_iff in H1. apply orb_true_iff in H2. apply orb_true_iff.
  destruct H1 as [H1 | H1], H2 as [H2 | H2].
  - left. apply N.ltb_lt in H1, H2. apply N.ltb_lt. lia.
  - apply andb_prop in H2 as [H2 _]. apply N.eqb_eq in H2. subst. now left.
  - apply andb_prop in H1 as [H1 _]. apply N.eqb_eq in H1. subst. now left.
  - apply andb_prop in H1 as [H1 H1']. apply andb_prop in H2 as [H2 H2'].
    apply N.eqb_eq in H1, H2. subst. right. rewrite N.eqb_refl. simpl. eapply IH; eauto.
Qed.

Lemma str_ltb_asym a b : str_ltb a b = true -> str_ltb b a = false.
Proof.
  intro H. destruct (str_ltb b a) eqn:E; [|reflexivity].
  pose proof (str_ltb_trans _ _ _ H E) as Ht. rewrite str_ltb_irrefl in Ht. discriminate.
Qed.

(** [x <= y] and [y <= z] give [x <= z], with [<=] as "not greater". *)
Lemma str_not_ltb_trans x y z :
  str_ltb y x = false -> str_ltb z y = false -> str_ltb z x = false.
Proof.
  intros H1 H2. destruct (str_ltb z x) eqn:E; [|reflexivity].
  destruct (str_ltb_trichotomy x y) as [H | [-> | H]]; [| congruence | congruence].
  destruct (str_ltb_trichotomy y z) as [H' | [-> | H']]; [| congruence | congruence].
  pose proof (str_ltb_trans _ _ _ H H') as Ht. apply str_ltb_asym in Ht. congruence.
Qed.

(** ** Insertion keeps a sorted sequence sorted *)

Section Sorting.

Variable R : value -> value -> Prop.
Variable cmp : value -> value -> result Z.
Variable P : value -> Prop.

Hypothesis R_trans : forall a b c, P a -> P b -> P c -> R a b -> R b c -> R a c.
Hypothesis cmp_R :
  forall a b, P a -> P b ->
    exists c, cmp a b = Ok c /\ (if 0 <? c then R b a else R a b).

Lemma insert_sorted_sorted x l :
  P x -> Forall P l -> StronglySorted R l ->
  exists out, insert_sorted cmp x l = Ok out /\ StronglySorted R out
              /\ Permutation (x :: l) out.
Proof.
  intros Hx Hl Hs. induction Hs as [|y l Hs IH Hy]; simpl.
  - exists [x]. repeat split; [repeat constructor | apply Permutation_refl].
  - inversion Hl as [|? ? Py Pl]; subst.
    destruct (cmp_R x y Hx Py) as (c & -> & Hc). cbn [rbind].
    destruct (0 <? c).
    + destruct (IH Pl) as (out & -> & Hout & Hperm). cbn [rbind].
      exists (y :: out). repeat split.
      * constructor; [exact Hout|].
        eapply Permutation_Forall; [exact Hperm|]. constructor; assumption.
      * eapply perm_trans; [apply perm_swap|]. now apply perm_skip.
    + exists (x :: y :: l). repeat split; [|apply Permutation_refl].
      constructor; [now constructor|]. constructor; [exact Hc|].
      rewrite Forall_forall in Hy, Pl |- *. intros z Hz.
      eapply (R_trans x y z); auto.
Qed.

Lemma sort_result_sorted l :
  Forall P l ->
  exists out, sort_result cmp l = Ok out /\ StronglySorted R out /\ Permutation l out.
Proof.
  induction 1 as [|x l Hx Hl (r & Hr & Hs & Hp)]; simpl.
  - exists []. repeat split; constructor.
  - rewrite Hr. cbn [rbind].
    destruct (insert_sorted_sorted x r Hx) as (out & Ho & Hso & Hpo); auto.
    { eapply Permutation_Forall; eauto. }
    exists out. repeat split; auto.
    eapply perm_trans; [apply perm_skip; exact Hp | exact Hpo].
Qed.

End Sorting.

Lemma string_comparison x y :
  greater_than (VStr x) (VStr y) = Ok (str_ltb y x)
  /\ less_than (VStr x) (VStr y) = Ok (str_ltb x y).
Proof. split; reflexivity. Qed.

(** X11. On records whose field holds a text, [$orderby] sorts: the order
    stage returns a permutation of the sequence in which no record stands
    before one that is smaller in the lexicographic order of code units
    (ascending), or before one that is greater (with the token [desc]). *)
Theorem orderby_sorts_texts (s : str) (l : list value) :
  s <> [] ->
  Forall (fun r => exists x, get r (nth 0 (split 32 s) []) = Ok (VStr x)) l ->
  exists out,
    order_stage (VStr s) l = Ok out /\ Permutation l out
    /\ StronglySorted
         (in_string_order (nth 0 (split 32 s) []) (direction_of (split 32 s))) out.
Proof.
  intros Hs Hl. unfold order_stage.
  destruct s as [|c s]; [contradiction|]. cbn [truthy call_split rbind].
  set (field := nth 0 (split 32 (c :: s)) []).
  set (dir := direction_of (split 32 (c :: s))).
  destruct (sort_result_sorted (in_string_order field dir) (sort_callback field dir)
              (fun r => exists x, get r field = Ok (VStr x))) with (l := l)
    as (out & Ho & Hso & Hp); [| | exact Hl | eauto].
  - intros a b d _ _ _ (x & y & Ha & Hb & Hxy) (y' & z & Hb' & Hd & Hyz).
    rewrite Hb in Hb'. inversion Hb'; subst y'.
    exists x, z. repeat split; auto.
    destruct (0 <? dir); eapply str_not_ltb_trans; eauto.
  - intros a b [x Ha] [y Hb]. unfold sort_callback. rewrite Ha, Hb. cbn [rbind].
    destruct (string_comparison x y) as [-> ->]. cbn [rbind].
    assert (Hd : dir = -1 \/ dir = 1) by apply direction_either.
    destruct (str_ltb y x) eqn:Hyx.
    + exists dir. split; [reflexivity|].
      destruct Hd as [-> | ->]; cbn.
      * exists x, y. repeat split; auto. cbn. now apply str_ltb_asym.
      * exists y, x. repeat split; auto. cbn. now apply str_ltb_asym.
    + destruct (str_ltb x y) eqn:Hxy.
      * exists (- dir). split; [reflexivity|].
        destruct Hd as [-> | ->]; cbn.
        -- exists y, x. repeat split; auto.
        -- exists x, y. repeat split; auto.
      * exists 0. split; [reflexivity|]. cbn.
        exists x, y. repeat split; auto. destruct (0 <? dir); assumption.
Qed.

Lemma orderby_sorts_texts_witness :
  let l := map (fun n => VObj [ (lit "outlet", VStr (lit n)) ]) [ "Bar"; "Cafe"; "Airport" ]%string in
  exists out,
    order_stage (VStr (lit "outlet desc")) l = Ok out
    /\ Permutation l out
    /\ StronglySorted (in_string_order (lit "outlet") (-1)) out.
Proof.
  intro l. apply (orderby_sorts_texts (lit "outlet desc") l).
  - discriminate.
  - repeat constructor; eexists; reflexivity.
Defined.

Lemma SFltb_irrefl (n : number) : SFltb n n = false.
Proof.
  unfold SFltb, SFcompare. destruct n as [s | s | | s m e]; try reflexivity.
  - now destruct s.
  - rewrite Z.compare_refl, Pos.compare_cont_refl. now destruct s.
Qed.

(** A value is neither greater nor less than itself, when it converts. *)
Lemma comparison_irrefl v :
  convertible v = true -> greater_than v v = Ok false /\ less_than v v = Ok false.
Proof.
  intro Hv. apply to_primitive_ok in Hv as (p & Hp & Hpp).
  unfold greater_than, less_than. rewrite Hp. cbn [rbind].
  destruct (to_number_primitive _ Hpp) as [n Hn]. rewrite Hn. cbn [rbind].
  rewrite SFltb_irrefl. destruct p; auto. now rewrite str_ltb_irrefl.
Qed.

Lemma insert_sorted_ties cmp x l :
  (forall y, In y l -> cmp x y = Ok 0) -> insert_sorted cmp x l = Ok (x :: l).
Proof. destruct l as [|y l]; simpl; [reflexivity|]. intro H. now rewrite (H y (or_introl eq_refl)). Qed.

Lemma sort_result_ties cmp l :
  (forall x y, In x l -> In y l -> cmp x y = Ok 0) -> sort_result cmp l = Ok l.
Proof.
  induction l as [|x l IH]; intro H; [reflexivity|]. simpl.
  rewrite IH by (intros a b Ha Hb; apply H; now right). cbn [rbind].
  apply insert_sorted_ties. intros y Hy. apply H; [now left | now right].
Qed.



(* ===================================================================== *)
(** * The direction of the sort *)
(* ===================================================================== *)

(** ** The order of numbers *)

Lemma SFltb_rank (x y : number) :
  x <> NaN -> y <> NaN -> (SFltb x y = true <-> rank_lt (rank x) (rank y)).
Proof.
  intros Hx Hy. unfold SFltb, NaN in *.
  destruct x as [sx|sx| |sx mx ex], y as [sy|sy| |sy my ey]; try contradiction;
    try (destruct sx); try (destruct sy); cbn [SFcompare rank rank_lt];
    try (split; [discriminate | lia]); try (split; [lia | reflexivity]);
    try (split; [reflexivity | lia]); try (split; [intros _; lia | reflexivity]).
  - rewrite Pos.compare_cont_spec. cbn [Pos.switch_Eq].
    destruct (Z.compare_spec ex ey); destruct (Pos.compare_spec mx my); cbn [CompOpp];
      split; try discriminate; try reflexivity; try lia.
  - rewrite Pos.compare_cont_spec. cbn [Pos.switch_Eq].
    destruct (Z.compare_spec ex ey); destruct (Pos.compare_spec mx my); cbn [CompOpp];
      split; try discriminate; try reflexivity; try lia.
Qed.

Lemma SFltb_false_rank (x y : number) :
  x <> NaN -> y <> NaN -> (SFltb x y = false <-> ~ rank_lt (rank x) (rank y)).
Proof.
  intros Hx Hy. rewrite <- (SFltb_rank x y Hx Hy). now destruct (SFltb x y).
Qed.

Lemma rank_lt_asym a b : rank_lt a b -> ~ rank_lt b a.
Proof. destruct a as [[a1 a2] a3], b as [[b1 b2] b3]. unfold rank_lt. lia. Qed.

Lemma rank_not_lt_trans a b c : ~ rank_lt b a -> ~ rank_lt c b -> ~ rank_lt c a.
Proof.
  destruct a as [[a1 a2] a3], b as [[b1 b2] b3], c as [[c1 c2] c3]. unfold rank_lt. lia.
Qed.

Lemma SFltb_asym (x y : number) : SFltb x y = true -> SFltb y x = false.
Proof.
  intro H. assert (Hx : x <> NaN) by (intros ->; discriminate).
  assert (Hy : y <> NaN) by (intros ->; destruct x; discriminate).
  apply SFltb_false_rank; [assumption|assumption|].
  apply rank_lt_asym. now apply SFltb_rank.
Qed.

Lemma SFltb_not_trans (x y z : number) :
  x <> NaN -> y <> NaN -> z <> NaN ->
  SFltb y x = false -> SFltb z y = false -> SFltb z x = false.
Proof.
  intros Hx Hy Hz H1 H2. apply SFltb_false_rank; [assumption|assumption|].
  apply SFltb_false_rank in H1; [|assumption|assumption].
  apply SFltb_false_rank in H2; [|assumption|assumption].
  eapply rank_not_lt_trans; eauto.
Qed.

(** ** The comparison of two field values of one kind *)

Lemma numeric_key_number v n : numeric_key v = Some n -> n <> NaN.
Proof.
  destruct v as [ | | b | x | s | elems | props | src ]; try discriminate.
  - intro H. inversion H. discriminate.
  - destruct x; try discriminate; intro H; inversion H; discriminate.
Qed.

Lemma numeric_comparison x y nx ny :
  numeric_key x = Some nx -> numeric_key y = Some ny ->
  greater_than x y = Ok (SFltb ny nx) /\ less_than x y = Ok (SFltb nx ny).
Proof.
  intros Hx Hy.
  assert (Tx : to_primitive x = Ok x /\ to_number x = Ok nx).
  { destruct x as [ | | b | n | s | elems | props | src ]; try discriminate.
    - inversion Hx. now split.
    - destruct n; inversion Hx; now split. }
  assert (Ty : to_primitive y = Ok y /\ to_number y = Ok ny).
  { destruct y as [ | | b | n | s | elems | props | src ]; try discriminate.
    - inversion Hy. now split.
    - destruct n; inversion Hy; now split. }
  destruct Tx as (Px & Nx), Ty as (Py & Ny).
  unfold greater_than, less_than. rewrite Px, Py. cbn [rbind]. rewrite Nx, Ny. cbn [rbind].
  destruct x; try (now split); destruct y; now split.
Qed.

Lemma not_greater_numeric x y nx ny :
  numeric_key x = Some nx -> numeric_key y = Some ny ->
  (not_greater x y <-> SFltb ny nx = false).
Proof.
  intros Hx Hy. unfold not_greater.
  assert (E : (exists nx' ny',
                 numeric_key x = Some nx' /\ numeric_key y = Some ny' /\ SFltb ny' nx' = false)
              <-> SFltb ny nx = false).
  { split.
    - intros (nx' & ny' & Hx' & Hy' & H). congruence.
    - intro H. exists nx, ny. auto. }
  destruct x; try exact E; discriminate.
Qed.

(** What [>] and [<] answer on two values of one kind. *)
Lemma comparison_of_kind k x y :
  of_kind k x -> of_kind k y ->
  exists g l,
    greater_than x y = Ok g /\ less_than x y = Ok l /\
    (g = false <-> not_greater x y) /\ (l = false <-> not_greater y x) /\
    (g = true -> l = false) /\ (l = true -> g = false).
Proof.
  destruct k; cbn [of_kind].
  - intros [a ->] [b ->]. exists (str_ltb b a), (str_ltb a b).
    split; [reflexivity|]. split; [reflexivity|]. cbn [not_greater].
    split; [tauto|]. split; [tauto|]. split; apply str_ltb_asym.
  - intros [nx Hx] [ny Hy]. exists (SFltb ny nx), (SFltb nx ny).
    destruct (numeric_comparison _ _ _ _ Hx Hy) as [-> ->].
    split; [reflexivity|]. split; [reflexivity|].
    rewrite (not_greater_numeric _ _ _ _ Hx Hy), (not_greater_numeric _ _ _ _ Hy Hx).
    split; [tauto|]. split; [tauto|]. split; apply SFltb_asym.
Qed.

Lemma not_greater_trans k x y z :
  of_kind k x -> of_kind k y -> of_kind k z ->
  not_greater x y -> not_greater y z -> not_greater x z.
Proof.
  destruct k; cbn [of_kind].
  - intros [a ->] [b ->] [c ->]. cbn [not_greater]. apply str_not_ltb_trans.
  - intros [nx Hx] [ny Hy] [nz Hz].
    rewrite (not_greater_numeric _ _ _ _ Hx Hy), (not_greater_numeric _ _ _ _ Hy Hz),
      (not_greater_numeric _ _ _ _ Hx Hz).
    intros H1 H2.
    apply (SFltb_not_trans nx ny nz); eauto using numeric_key_number.
Qed.

(** ** The sort of the order stage

    On a field of one kind the comparator of the handler follows an order,
    and the sort returns the sequence in that order: ascending for the
    direction 1, descending for the direction -1. *)
Lemma sort_in_order k field dir l :
  dir = 1 \/ dir = -1 ->
  Forall (holds k field) l ->
  exists out,
    sort_result (sort_callback field dir) l = Ok out /\ Permutation l out /\
    StronglySorted (if dir =? 1 then ascending field else descending field) out.
Proof.
  intros Hd Hl.
  destruct (sort_result_sorted
              (if dir =? 1 then ascending field else descending field)
              (sort_callback field dir) (holds k field)) with (l := l)
    as (out & Ho & Hso & Hp); [| | exact Hl | eauto].
  - intros a b c (xa & Ha & Ka) (xb & Hb & Kb) (xc & Hc & Kc).
    destruct Hd as [-> | ->]; cbn [Z.eqb Pos.eqb];
      intros (x & y & Hx & Hy & Hxy) (y' & z & Hy' & Hz & Hyz);
      rewrite Ha in Hx; rewrite Hb in Hy, Hy'; rewrite Hc in Hz;
      inversion Hx; inversion Hy; inversion Hy'; inversion Hz; subst x y y' z;
      exists xa, xc; (split; [exact Ha|]); (split; [exact Hc|]).
    + exact (not_greater_trans k xa xb xc Ka Kb Kc Hxy Hyz).
    + exact (not_greater_trans k xc xb xa Kc Kb Ka Hyz Hxy).
  - intros a b (x & Ha & Kx) (y & Hb & Ky).
    destruct (comparison_of_kind k x y Kx Ky) as (g & lt & Hg & Hlt & G & L & GL & LG).
    unfold sort_callback. rewrite Ha, Hb. cbn [rbind]. rewrite Hg. cbn [rbind].
    destruct g.
    + exists dir. split; [reflexivity|].
      specialize (GL eq_refl). apply L in GL.
      destruct Hd as [-> | ->]; cbn [Z.ltb Z.compare Z.eqb Pos.eqb].
      * exists y, x. auto.
      * exists x, y. auto.
    + rewrite Hlt. cbn [rbind]. assert (Gx : not_greater x y) by (now apply G).
      destruct lt.
      * exists (- dir). split; [reflexivity|].
        destruct Hd as [-> | ->]; cbn [Z.opp Z.ltb Z.compare Z.eqb Pos.eqb].
        -- exists x, y. auto.
        -- exists y, x. auto.
      * exists 0. split; [reflexivity|]. assert (Ly : not_greater y x) by (now apply L).
        change (0 <? 0) with false. cbv iota.
        destruct Hd as [-> | ->]; cbn [Z.eqb Pos.eqb]; exists x, y; auto.
Qed.

Lemma direction_ascending pieces :
  nth_error pieces 1 <> Some (lit "desc") -> direction_of pieces = 1.
Proof.
  intro H. destruct (direction_either pieces) as [E|E]; [|exact E].
  apply direction_desc in E. contradiction.
Qed.

Lemma order_only_pipeline orderby l :
  fst (run_pipeline (Query VUndefined VUndefined orderby VUndefined VUndefined) l)
  = order_stage orderby l.
Proof.
  rewrite run_pipeline_staged. unfold staged.
  cbn [q_filter q_orderby q_skip q_top filter_stage parseSimpleFilter truthy negb rbind].
  destruct (order_stage orderby l); reflexivity.
Qed.

(** C6 (amended). A [$orderby] string is split at every space character
    U+0020 (no other whitespace splits it); the field is the first piece and
    the direction token the second piece, absent when the string has no
    space. The direction is descending exactly when that token is ["desc"],
    that is when the string is a field without space, one space, [desc], and
    then nothing or a space and anything; it is ascending in all other
    cases. The comparator answers the direction when the field of its first
    argument is the greater one and the opposite when it is the smaller one.
    And the sort follows: on records whose field holds texts only, or numbers
    other than NaN and [null] only, the pipeline with this [$orderby] returns
    a permutation of the sequence that is sorted on the field, descending when
    the token is ["desc"] and ascending in every other case. *)
Theorem orderby_direction (s : str) :
  call_split (VStr s) = Ok (split 32 s)
  /\ (direction_of (split 32 s) = -1 <-> nth_error (split 32 s) 1 = Some (lit "desc"))
  /\ (direction_of (split 32 s) = -1 <->
      exists field rest,
        ~ In 32%N field /\ s = field ++ 32%N :: lit "desc" ++ rest /\
        (rest = [] \/ exists r, rest = 32%N :: r))
  /\ (direction_of (split 32 s) <> -1 -> direction_of (split 32 s) = 1)
  /\ (forall (field : str) (dir : Z) (a b x y : value),
        get a field = Ok x -> get b field = Ok y ->
        (greater_than x y = Ok true -> sort_callback field dir a b = Ok dir) /\
        (greater_than x y = Ok false -> less_than x y = Ok true ->
         sort_callback field dir a b = Ok (- dir)) /\
        (greater_than x y = Ok false -> less_than x y = Ok false ->
         sort_callback field dir a b = Ok 0))
  /\ forall (k : kind) (l : list value),
       s <> [] -> Forall (holds k (nth 0 (split 32 s) [])) l ->
       exists out,
         fst (run_pipeline (Query VUndefined VUndefined (VStr s) VUndefined VUndefined) l)
         = Ok out
         /\ Permutation l out
         /\ (nth_error (split 32 s) 1 = Some (lit "desc") ->
             StronglySorted (descending (nth 0 (split 32 s) [])) out)
         /\ (nth_error (split 32 s) 1 <> Some (lit "desc") ->
             StronglySorted (ascending (nth 0 (split 32 s) [])) out).
Proof.
  split; [reflexivity|]. split; [apply direction_desc|]. split; [|split; [|split]].
  - rewrite direction_desc. split.
    + intro H. destruct (first_separator 32 s) as [Hs | (f & t & Hf & ->)].
      { rewrite split_without in H by assumption. discriminate. }
      rewrite split_at in H by assumption. cbn [nth_error] in H.
      exists f. destruct (first_separator 32 t) as [Ht | (f' & t' & Hf' & ->)].
      * rewrite split_without in H by assumption. inversion H; subst.
        exists []. rewrite app_nil_r. auto.
      * rewrite split_at in H by assumption. inversion H; subst.
        exists (32%N :: t'). eauto.
    + intros (f & rest & Hf & -> & Hrest). rewrite split_at by assumption.
      cbn [nth_error]. destruct Hrest as [-> | (r & ->)].
      * reflexivity.
      * rewrite split_at; [reflexivity|]. vm_compute. intuition discriminate.
  - intro H. destruct (direction_either (split 32 s)); [contradiction | assumption].
  - intros field dir a b x y Ha Hb. unfold sort_callback. rewrite Ha, Hb. cbn [rbind].
    repeat split.
    + intros ->. reflexivity.
    + intros -> ->. reflexivity.
    + intros -> ->. reflexivity.
  - intros k l Hs Hl. rewrite order_only_pipeline. unfold order_stage.
    assert (Ht : truthy (VStr s) = true) by (destruct s; [contradiction | reflexivity]).
    rewrite Ht. cbn [call_split rbind].
    destruct (sort_in_order k (nth 0 (split 32 s) []) (direction_of (split 32 s)) l)
      as (out & Ho & Hp & Hso); [|exact Hl|].
    { destruct (direction_either (split 32 s)); auto. }
    exists out. split; [exact Ho|]. split; [exact Hp|]. split.
    + intro Hd. apply direction_desc in Hd. rewrite Hd in Hso. exact Hso.
    + intro Hd. apply direction_ascending in Hd. rewrite Hd in Hso. exact Hso.
Qed.

(** [$orderby=id desc] on the ids 1, 3, 2, and [$orderby=id DESC]. *)
Lemma orderby_direction_witness :
  direction_of (split 32 (lit "id desc")) = -1
  /\ direction_of (split 32 (lit "id DESC")) = 1
  /\ exists out,
       fst (run_pipeline (Query VUndefined VUndefined (VStr (lit "id desc")) VUndefined
                            VUndefined)
              (map record [1; 3; 2])) = Ok out
       /\ Permutation (map record [1; 3; 2]) out
       /\ StronglySorted (descending (lit "id")) out.
Proof.
  split; [|split].
  - apply (proj1 (proj2 (orderby_direction (lit "id desc")))). reflexivity.
  - apply (proj1 (proj2 (proj2 (proj2 (orderby_direction (lit "id DESC")))))).
    vm_compute. discriminate.
  - destruct (proj2 (proj2 (proj2 (proj2 (proj2 (orderby_direction (lit "id desc"))))))
                Numeric (map record [1; 3; 2]))
      as (out & Ho & Hp & Hd & _).
    + discriminate.
    + repeat constructor; eexists; (split; [reflexivity|]); eexists; reflexivity.
    + exists out. split; [exact Ho|]. split; [exact Hp|]. apply Hd. reflexivity.
Defined.

(** Any record before a later one with a greater value of the field: the
    sequence does not descend. *)
Lemma rises (field : str) (x y : value) (before between after : list value) (a b : value) :
  get a field = Ok x -> get b field = Ok y -> ~ not_greater y x ->
  ~ StronglySorted (descending field) (before ++ a :: between ++ b :: after).
Proof.
  intros Ha Hb Hxy Hs. induction before as [|r before IH]; cbn [app] in Hs.
  - inversion Hs as [|? ? _ Hall]; subst. rewrite Forall_forall in Hall.
    destruct (Hall b) as (x' & y' & Hx' & Hy' & H).
    { apply in_or_app. right. now left. }
    rewrite Ha in Hx'. rewrite Hb in Hy'. inversion Hx'; inversion Hy'; subst. contradiction.
  - inversion Hs; subst. auto.
Qed.

(** A tab between the field and [desc]: the first whitespace splits the
    text into [id] and [desc], but [split(" ")] leaves it in one piece, no
    direction token is found, the field is the whole text, which no record
    has, and the ids 1, 3, 2 stay as they are instead of coming out
    descending. And outside the fields that have an order the sort does not
    descend: with [$orderby=id desc] the ids 1, NaN, 3 stay as they are, and
    with [$orderby=outlet desc] so do the outlets a, [null], b, because the
    sort compares neighbours, and every comparison with NaN, and of a text
    with [null], answers 0. *)
Lemma orderby_tab_is_ascending :
  let s := lit "id" ++ [9%N] ++ lit "desc" in
  let only orderby := Query VUndefined VUndefined (VStr orderby) VUndefined VUndefined in
  let ids := [ with_field "id" (VNum (number_of_Z 1)); with_field "id" (VNum NaN);
               with_field "id" (VNum (number_of_Z 3)) ] in
  let outlets := [ with_field "outlet" (VStr (lit "a")); with_field "outlet" VNull;
                   with_field "outlet" (VStr (lit "b")) ] in
  split_first_whitespace s = (lit "id", Some (lit "desc"))
  /\ call_split (VStr s) = Ok [s]
  /\ direction_of (split 32 s) = 1
  /\ fst (run_pipeline (only s) (map record [1; 3; 2])) = Ok (map record [1; 3; 2])
  /\ ~ StronglySorted (descending (lit "id")) (map record [1; 3; 2])
  /\ fst (run_pipeline (only (lit "id desc")) ids) = Ok ids
  /\ ~ StronglySorted (descending (lit "id")) ids
  /\ fst (run_pipeline (only (lit "outlet desc")) outlets) = Ok outlets
  /\ ~ StronglySorted (descending (lit "outlet")) outlets.
Proof.
  intros s only ids outlets.
  split; [reflexivity|]. split; [reflexivity|]. split; [reflexivity|].
  split; [vm_compute; reflexivity|]. split.
  { apply (rises (lit "id") (VNum (number_of_Z 1)) (VNum (number_of_Z 3)) [] [] [record 2]
             (record 1) (record 3)); [reflexivity | reflexivity |].
    intros (nx & ny & Hx & Hy & H). vm_compute in Hx, Hy. inversion Hx; inversion Hy; subst.
    vm_compute in H. discriminate. }
  split; [vm_compute; reflexivity|]. split.
  { apply (rises (lit "id") (VNum (number_of_Z 1)) (VNum (number_of_Z 3)) []
             [with_field "id" (VNum NaN)] []); [reflexivity | reflexivity |].
    intros (nx & ny & Hx & Hy & H). vm_compute in Hx, Hy. inversion Hx; inversion Hy; subst.
    vm_compute in H. discriminate. }
  split; [vm_compute; reflexivity|].
  apply (rises (lit "outlet") (VStr (lit "a")) (VStr (lit "b")) []
           [with_field "outlet" VNull] []); [reflexivity | reflexivity |].
  cbn [not_greater]. vm_compute. discriminate.
Qed.

(* ===================================================================== *)
(** * Malformed parameters: what the pipeline does with them *)
(* ===================================================================== *)

Lemma filter_only_pipeline filter l :
  fst (run_pipeline (Query VUndefined VUndefined VUndefined filter VUndefined) l)
  = filter_stage filter l.
Proof.
  rewrite run_pipeline_staged. unfold staged.
  cbn [q_filter q_orderby q_skip q_top order_stage skip_stage top_stage truthy rbind].
  destruct (filter_stage filter l); reflexivity.
Qed.

(** C8 (amended). When [$filter] and [$orderby] are strings or absent,
    [$skip] and [$top] convert to a primitive (as strings and arrays of
    strings do) and every field of every record converts to a primitive, the
    pipeline does not throw and produces a result set. A [$filter] that
    parses to no predicate, an [$orderby] on a field that has the same value
    in every record (a field that no record has, say) and a [$skip] that
    converts to NaN leave the sequence as it is; a [$top] that converts to
    NaN leaves the empty sequence. *)
Theorem malformed_parameters (q : query) (l : list value) :
  string_or_absent (q_filter q) = true -> string_or_absent (q_orderby q) = true ->
  convertible (q_skip q) = true -> convertible (q_top q) = true ->
  Forall (fun r => plain_record r = true) l ->
  (exists out, fst (run_pipeline q l) = Ok out)
  /\ (parseSimpleFilter (q_filter q) = Ok None ->
      fst (run_pipeline (Query VUndefined VUndefined VUndefined (q_filter q) VUndefined) l)
      = Ok l)
  /\ (forall s v,
        q_orderby q = VStr s ->
        Forall (fun r => get r (nth 0 (split 32 s) []) = Ok v) l ->
        fst (run_pipeline (Query VUndefined VUndefined (q_orderby q) VUndefined VUndefined) l)
        = Ok l)
  /\ (to_number (q_skip q) = Ok NaN ->
      fst (run_pipeline (Query VUndefined (q_skip q) VUndefined VUndefined VUndefined) l)
      = Ok l)
  /\ (truthy (q_top q) = true -> to_number (q_top q) = Ok NaN ->
      fst (run_pipeline (Query (q_top q) VUndefined VUndefined VUndefined VUndefined) l)
      = Ok []).
Proof.
  intros Hf Ho Hs Ht Hl. split; [|split; [|split; [|split]]].
  - rewrite run_pipeline_staged. now apply staged_ok.
  - intro H. rewrite filter_only_pipeline. unfold filter_stage. rewrite H. reflexivity.
  - intros s v Hq Hv. rewrite Hq, order_only_pipeline. unfold order_stage.
    destruct (truthy (VStr s)); [|reflexivity]. cbn [call_split rbind].
    apply sort_result_ties. intros a b Ha Hb.
    rewrite Forall_forall in Hl, Hv.
    destruct (get_plain a (nth 0 (split 32 s) []) (Hl a Ha)) as (x & Hx & Hc).
    rewrite (Hv a Ha) in Hx. inversion Hx; subst x.
    unfold sort_callback. rewrite (Hv a Ha), (Hv b Hb). cbn [rbind].
    destruct (comparison_irrefl v Hc) as [-> ->]. reflexivity.
  - intro H. rewrite run_pipeline_staged. unfold staged, skip_stage.
    cbn [q_filter q_orderby q_skip q_top].
    cbn [filter_stage parseSimpleFilter truthy negb rbind order_stage].
    destruct (truthy (q_skip q)); [|reflexivity]. rewrite H. cbn [rbind top_stage truthy].
    rewrite slice_from. unfold to_integer_or_infinity, NaN, relative_index.
    change (0 <? 0) with false. cbv iota. rewrite Z.min_l by lia. reflexivity.
  - intros Htop H. rewrite run_pipeline_staged. unfold staged, top_stage.
    cbn [q_filter q_orderby q_skip q_top].
    cbn [filter_stage parseSimpleFilter truthy negb rbind order_stage skip_stage].
    rewrite Htop, H. cbn [rbind]. unfold slice_list, to_integer_or_infinity, NaN, pos_zero,
      relative_index.
    change (0 <? 0) with false. cbv iota. rewrite Z.min_l by lia. reflexivity.
Qed.

(** [$filter=bogus], [$orderby=nothing at all], a repeated [$skip] that
    arrives as the array of [a] and [b], and [$top=abc], on three records. *)
Lemma malformed_parameters_witness :
  let q := Query (VStr (lit "abc")) (VArr [ VStr (lit "a"); VStr (lit "b") ])
                 (VStr (lit "nothing at all")) (VStr (lit "bogus")) VUndefined in
  let l := map record [3; 1; 2] in
  (exists out, fst (run_pipeline q l) = Ok out)
  /\ fst (run_pipeline (Query VUndefined VUndefined VUndefined (q_filter q) VUndefined) l) = Ok l
  /\ fst (run_pipeline (Query VUndefined VUndefined (q_orderby q) VUndefined VUndefined) l) = Ok l
  /\ fst (run_pipeline (Query VUndefined (q_skip q) VUndefined VUndefined VUndefined) l) = Ok l
  /\ fst (run_pipeline (Query (q_top q) VUndefined VUndefined VUndefined VUndefined) l) = Ok [].
Proof.
  intros q l.
  assert (Hl : Forall (fun r => plain_record r = true) l).
  { repeat constructor. }
  destruct (malformed_parameters q l eq_refl eq_refl eq_refl eq_refl Hl)
    as (H1 & H2 & H3 & H4 & H5).
  split; [exact H1|]. split; [apply H2; vm_compute; reflexivity|].
  split; [apply (H3 (lit "nothing at all") VUndefined); [reflexivity | repeat constructor]|].
  split; [apply H4; vm_compute; reflexivity|].
  apply H5; vm_compute; reflexivity.
Defined.

(** What the amendment leaves out, one input each. A repeated [$filter]
    arrives as an array: [filter.trim] is not a function, the pipeline throws
    and the handler answers 500. A repeated [$orderby] has no [split]. A
    [$skip] that arrives as the object with the key [toString], as
    [$skip[toString]=1] does, does not convert to a primitive, and [Number]
    throws. A record whose outlet is such an object, under a filter on the
    outlet: [String] throws. And [$top=abc] does not leave the sequence as it
    is but empties it. *)
Lemma malformed_parameters_throw_or_empty :
  let l := map record [1; 2; 3] in
  let repeated := Query VUndefined VUndefined VUndefined
                        (VArr [ VStr (lit "a"); VStr (lit "b") ]) VUndefined in
  let stubborn := VObj [ (lit "toString", VStr (lit "1")) ] in
  fst (run_pipeline repeated l) = Throw (TypeError "filter.trim is not a function")
  /\ handler (request_for repeated)
             (UpResponds 120 200 (BodyJson (VArr (map row [1; 2; 3]))))
    = Some (Response 500 (ErrorResponse (lit "filter.trim is not a function") None))
  /\ fst (run_pipeline
            (Query VUndefined VUndefined (VArr [ VStr (lit "id"); VStr (lit "date") ])
               VUndefined VUndefined) l)
    = Throw (TypeError "$orderby.split is not a function or its return value is not iterable")
  /\ fst (run_pipeline (Query VUndefined stubborn VUndefined VUndefined VUndefined) l)
    = Throw (TypeError "Cannot convert object to primitive value")
  /\ fst (run_pipeline
            (Query VUndefined VUndefined VUndefined (VStr (lit "outlet eq 'a'")) VUndefined)
            [ with_field "outlet" stubborn ])
    = Throw (TypeError "Cannot convert object to primitive value")
  /\ fst (run_pipeline (Query (VStr (lit "abc")) VUndefined VUndefined VUndefined VUndefined) l)
    = Ok [].
Proof. vm_compute. repeat split. Qed.




(* ===================================================================== *)
(** * More on skip and top *)
(* ===================================================================== *)

Lemma slice_to l n :
  slice_list l pos_zero (Some n)
  = firstn (Z.to_nat (relative_index (Z.of_nat (length l)) (to_integer_or_infinity n))) l.
Proof.
  unfold slice_list.
  change (to_integer_or_infinity pos_zero) with (Int 0).
  unfold relative_index at 2 3. change (0 <? 0) with false. cbv iota.
  rewrite Z.min_l by lia. cbn [Z.to_nat skipn].
  pose proof (relative_index_range _ (to_integer_or_infinity n) (Nat2Z.is_nonneg (length l))).
  f_equal. lia.
Qed.

(** X13. What [$top] leaves, for a value that converts to the number [n]:
    the first [k] records when the integer part of [n] is [k >= 0] (all of
    them when [k] is the length or more); all but the last [k] when it is
    [-k], [k >= 1]; nothing when [n] is NaN. *)
Theorem top_bounds (h : heap) (a : loc) (l : list value) (top : value) (n : number) :
  nth_error h a = Some l -> truthy top = true -> to_number top = Ok n ->
  exists a' h',
    apply_top top a h = (Ok a', h') /\
    (forall k : nat, to_integer_or_infinity n = Int (Z.of_nat k) ->
       nth_error h' a' = Some (firstn k l)) /\
    (forall k : nat, (0 < k)%nat -> to_integer_or_infinity n = Int (- Z.of_nat k) ->
       nth_error h' a' = Some (firstn (length l - k) l)) /\
    (n = NaN -> nth_error h' a' = Some []).
Proof.
  intros Ha Ht Hn. rewrite (apply_top_eq _ _ _ Ha), Ht, Hn.
  exists (length h), (h ++ [slice_list l pos_zero (Some n)]). split; [reflexivity|].
  rewrite nth_error_fresh, slice_to. repeat split.
  - intros k ->. f_equal. unfold relative_index.
    destruct (Z.of_nat k <? 0) eqn:E; [apply Z.ltb_lt in E; lia|].
    destruct (Nat.le_gt_cases k (length l)).
    + f_equal. lia.
    + rewrite Z.min_r by lia. rewrite Nat2Z.id. rewrite !firstn_all2; auto; lia.
  - intros k Hk ->. f_equal. unfold relative_index.
    destruct (- Z.of_nat k <? 0) eqn:E; [|apply Z.ltb_ge in E; lia].
    f_equal. lia.
  - intros ->. unfold to_integer_or_infinity, NaN, relative_index.
    change (0 <? 0) with false. cbv iota. rewrite Z.min_l by lia. reflexivity.
Qed.

Lemma top_bounds_witness :
  let l := map record [1; 2; 3; 4; 5] in
  exists a' h',
    apply_top (VStr (lit "-2")) 0%nat [l] = (Ok a', h')
    /\ nth_error h' a' = Some (map record [1; 2; 3]).
Proof.
  intro l.
  destruct (top_bounds [l] 0%nat l (VStr (lit "-2")) (number_of_Z (-2)) eq_refl eq_refl)
    as (a' & h' & H & _ & Hneg & _).
  - vm_compute. reflexivity.
  - exists a', h'. split; [exact H|]. apply (Hneg 2%nat); [lia|]. vm_compute. reflexivity.
Defined.



(* ===================================================================== *)
(** * The result set is a selection of the sequence *)
(* ===================================================================== *)

Lemma selection_trans (l l1 l2 d1 d2 : list value) :
  Permutation l (l1 ++ d1) -> Permutation l1 (l2 ++ d2) ->
  Permutation l (l2 ++ (d2 ++ d1)).
Proof.
  intros H1 H2. eapply perm_trans; [exact H1|]. rewrite app_assoc.
  now apply Permutation_app_tail.
Qed.

Lemma filter_result_selection f l ys :
  filter_result f l = Ok ys -> exists d, Permutation l (ys ++ d).
Proof.
  revert ys. induction l as [|x l IH]; intros ys H; simpl in H.
  - inversion H. exists []. constructor.
  - destruct (f x) as [b|e]; [|discriminate]. cbn [rbind] in H.
    destruct (filter_result f l) as [zs|e]; [|discriminate]. cbn [rbind] in H.
    destruct (IH zs eq_refl) as [d Hd]. inversion H. destruct b.
    + exists d. simpl. now apply perm_skip.
    + exists (x :: d). eapply perm_trans; [apply perm_skip; exact Hd|].
      apply Permutation_middle.
Qed.

Lemma slice_list_selection l start end_ :
  exists d, Permutation l (slice_list l start end_ ++ d).
Proof.
  unfold slice_list.
  set (j := Z.to_nat _). set (k := Z.to_nat _).
  exists (firstn k l ++ skipn j (skipn k l)).
  rewrite <- (firstn_skipn k l) at 1. rewrite <- (firstn_skipn j (skipn k l)) at 1.
  apply Permutation_app_swap_app.
Qed.

(** X15. The pipeline only selects and reorders: when it returns, its
    result set together with some left-over records is a permutation of the
    sequence it was given. It never invents a record and never answers one
    more often than it occurs, so the result set is no longer than the
    sequence. *)
Theorem pipeline_selects (q : query) (l out : list value) :
  fst (run_pipeline q l) = Ok out ->
  (exists rest, Permutation l (out ++ rest)) /\ (length out <= length l)%nat.
Proof.
  rewrite run_pipeline_staged. unfold staged. intro H.
  assert (S : exists rest, Permutation l (out ++ rest)).
  { destruct (filter_stage (q_filter q) l) as [l1|e] eqn:E1; [|discriminate].
    cbn [rbind] in H.
    destruct (order_stage (q_orderby q) l1) as [l2|e] eqn:E2; [|discriminate].
    cbn [rbind] in H.
    destruct (skip_stage (q_skip q) l2) as [l3|e] eqn:E3; [|discriminate].
    cbn [rbind] in H.
    assert (S1 : exists d, Permutation l (l1 ++ d)).
    { unfold filter_stage in E1.
      destruct (parseSimpleFilter (q_filter q)) as [[pf|]|e]; cbn [rbind] in E1;
        [ eapply filter_result_selection; eauto | | discriminate ].
      inversion E1. exists []. rewrite app_nil_r. apply Permutation_refl. }
    assert (S2 : Permutation l1 (l2 ++ [])).
    { rewrite app_nil_r. eapply order_stage_permutes_aux; eauto. }
    assert (S3 : exists d, Permutation l2 (l3 ++ d)).
    { unfold skip_stage in E3. destruct (truthy (q_skip q)).
      - destruct (to_number (q_skip q)); cbn [rbind] in E3; [|discriminate].
        inversion E3. apply slice_list_selection.
      - inversion E3. exists []. rewrite app_nil_r. apply Permutation_refl. }
    assert (S4 : exists d, Permutation l3 (out ++ d)).
    { unfold top_stage in H. destruct (truthy (q_top q)).
      - destruct (to_number (q_top q)); cbn [rbind] in H; [|discriminate].
        inversion H. apply slice_list_selection.
      - inversion H. exists []. rewrite app_nil_r. apply Permutation_refl. }
    destruct S1 as [d1 S1], S3 as [d3 S3], S4 as [d4 S4].
    pose proof (selection_trans _ _ _ _ _ S3 S4) as S34.
    pose proof (selection_trans _ _ _ _ _ S2 S34) as S24.
    pose proof (selection_trans _ _ _ _ _ S1 S24) as S14.
    eauto. }
  split; [exact S|]. destruct S as [rest S].
  apply Permutation_length in S. rewrite length_app in S. lia.
Qed.

Lemma pipeline_selects_witness :
  (exists rest, Permutation (map record [1; 2; 3; 4; 5]) (map record [4; 3] ++ rest))
  /\ Nat.le (length (map record [4; 3])) (length (map record [1; 2; 3; 4; 5])).
Proof.
  apply (pipeline_selects
           (Query (VStr (lit "2")) (VStr (lit "1")) (VStr (lit "id desc")) VUndefined VUndefined)).
  vm_compute. reflexivity.
Defined.

(* ===================================================================== *)
(** * More on the filter parser *)
(* ===================================================================== *)

Lemma drop_while_blank w s :
  Forall (fun c => is_space c = true) w ->
  drop_while is_space (w ++ s) = drop_while is_space s.
Proof. induction 1 as [|c w Hc Hw IH]; simpl; [reflexivity|]. now rewrite Hc. Qed.

Lemma drop_while_app_blank s w :
  Forall (fun c => is_space c = true) w ->
  drop_while is_space (s ++ w)
  = match drop_while is_space s with
    | [] => []
    | t => t ++ w
    end.
Proof.
  intro Hw. induction s as [|c s IH]; simpl.
  - rewrite <- (app_nil_r w). rewrite drop_while_blank by assumption. reflexivity.
  - destruct (is_space c); [exact IH | reflexivity].
Qed.

Lemma trim_blank w1 s w2 :
  Forall (fun c => is_space c = true) w1 -> Forall (fun c => is_space c = true) w2 ->
  trim (w1 ++ s ++ w2) = trim s.
Proof.
  intros H1 H2. unfold trim. rewrite drop_while_blank by assumption.
  rewrite drop_while_app_blank by assumption.
  destruct (drop_while is_space s) as [|c t] eqn:E; [reflexivity|].
  rewrite rev_app_distr. rewrite drop_while_blank; [reflexivity|].
  now apply Forall_rev.
Qed.

Lemma parse_by_trim x y :
  trim x = trim y -> parseSimpleFilter (VStr x) = parseSimpleFilter (VStr y).
Proof.
  assert (G : forall z,
             parseSimpleFilter (VStr z)
             = match regex_match re_string (trim z) with
               | Some m => Ok (Some (ParsedFilter (group 1 m) (VStr (group 2 m)) (lit "string")))
               | None =>
                   match regex_match re_number (trim z) with
                   | Some m =>
                       (n <- to_number (VStr (group 2 m)) ;;
                        Ok (Some (ParsedFilter (group 1 m) (VNum n) (lit "number"))))%result
                   | None =>
                       match regex_match re_date (trim z) with
                       | Some m =>
                           Ok (Some (ParsedFilter (group 1 m) (VStr (group 2 m)) (lit "date")))
                       | None => Ok None
                       end
                   end
               end).
  { intros [|c z]; [reflexivity|]. reflexivity. }
  intro H. now rewrite !G, H.
Qed.

(** X16. Whitespace around the filter does not count: a filter padded on
    either side with any whitespace parses to what the filter itself parses
    to. *)
Theorem parseSimpleFilter_ignores_padding (w1 s w2 : str) :
  Forall (fun c => is_space c = true) w1 -> Forall (fun c => is_space c = true) w2 ->
  parseSimpleFilter (VStr (w1 ++ s ++ w2)) = parseSimpleFilter (VStr s).
Proof. intros H1 H2. apply parse_by_trim. now apply trim_blank. Qed.

Lemma parseSimpleFilter_ignores_padding_witness :
  parseSimpleFilter (VStr ([9%N; 32%N] ++ lit "id eq 42" ++ [160%N; 10%N]))
  = parseSimpleFilter (VStr (lit "id eq 42")).
Proof.
  apply parseSimpleFilter_ignores_padding; repeat constructor.
Defined.


(** ** The captures of a match *)

Lemma rmatch_captured (r : regex) :
  forall s pos caps k m,
    rmatch r s pos caps k = Some m ->
    exists a rest caps',
      s = a ++ rest /\ captured r pos a rest caps caps' /\
      k rest (pos + length a)%nat caps' = Some m.
Proof.
  induction r as [ | | | p | r1 IH1 r2 IH2 | r IH | r IH | i r IH ].
  - intros s pos caps k m H. simpl in H.
    exists [], s, caps. rewrite Nat.add_0_r. repeat split; [constructor | exact H].
  - intros s pos caps k m H. simpl in H.
    destruct (Nat.eqb pos 0) eqn:E; [|discriminate]. apply Nat.eqb_eq in E. subst pos.
    exists [], s, caps. repeat split; [constructor | exact H].
  - intros s pos caps k m H. simpl in H. destruct s; [|discriminate].
    exists [], [], caps. rewrite Nat.add_0_r. repeat split; [constructor | exact H].
  - intros s pos caps k m H. simpl in H. destruct s as [|c s]; [discriminate|].
    destruct (p c) eqn:E; [|discriminate].
    exists [c], s, caps. simpl. rewrite Nat.add_1_r.
    repeat split; [now constructor | exact H].
  - intros s pos caps k m H. simpl in H.
    apply IH1 in H as (a & rest & caps' & -> & Ha & H).
    apply IH2 in H as (b & rest' & caps'' & -> & Hb & H).
    exists (a ++ b), rest', caps''. rewrite length_app, Nat.add_assoc, app_assoc.
    repeat split; [|exact H]. econstructor; eauto.
  - intros s pos caps k m. simpl.
    generalize (length s) as fuel. intro fuel. revert s pos caps.
    induction fuel as [|fuel IHf]; intros s pos caps H.
    + exists [], s, caps. rewrite Nat.add_0_r. repeat split; [constructor | exact H].
    + match type of H with
      | match ?X with _ => _ end = _ => destruct X as [m'|] eqn:E
      end.
      * inversion H; subst m'. apply IH in E as (a & rest & caps' & -> & Ha & Hk).
        destruct (Nat.eqb (pos + length a) pos); [discriminate|].
        apply IHf in Hk as (b & rest' & caps'' & -> & Hb & Hk).
        exists (a ++ b), rest', caps''. rewrite length_app, Nat.add_assoc, app_assoc.
        repeat split; [|exact Hk]. econstructor; eauto.
      * exists [], s, caps. rewrite Nat.add_0_r. repeat split; [constructor | exact H].
  - intros s pos caps k m H. simpl in H.
    destruct (rmatch r s pos caps k) as [m'|] eqn:E.
    + inversion H; subst m'. apply IH in E as (a & rest & caps' & -> & Ha & Hk).
      exists a, rest, caps'. repeat split; [|exact Hk]. now constructor.
    + exists [], s, caps. rewrite Nat.add_0_r. repeat split; [constructor | exact H].
  - intros s pos caps k m H. simpl in H.
    apply IH in H as (a & rest & caps' & -> & Ha & Hk).
    exists a, rest, ((i, a) :: caps'). repeat split; [now constructor|].
    replace (pos + length a - pos)%nat with (length a) in Hk by lia.
    rewrite firstn_app, firstn_all, Nat.sub_diag in Hk. simpl in Hk.
    rewrite app_nil_r in Hk. exact Hk.
Qed.

Lemma captured_matches r pos a rest c c' :
  captured r pos a rest c c' -> matches r pos a rest.
Proof. induction 1; econstructor; eauto. Qed.

(** A pattern without group leaves the captures as they are. *)
Lemma captured_groupless r pos a rest c c' :
  captured r pos a rest c c' -> groupless r = true -> c' = c.
Proof.
  induction 1; simpl; intro G; try reflexivity; try discriminate.
  - apply andb_prop in G as [G1 G2]. rewrite (IHcaptured2 G2). exact (IHcaptured1 G1).
  - rewrite (IHcaptured2 G). exact (IHcaptured1 G).
  - exact (IHcaptured G).
Qed.

Lemma captured_cat r1 r2 pos s rest c c' :
  captured (Cat r1 r2) pos s rest c c' ->
  exists a b c1, s = a ++ b /\ captured r1 pos a (b ++ rest) c c1 /\
                 captured r2 (pos + length a)%nat b rest c1 c'.
Proof. intro H. inversion H; subst. eauto 7. Qed.

Lemma captured_group i r pos s rest c c' :
  captured (Group i r) pos s rest c c' ->
  exists c1, c' = (i, s) :: c1 /\ captured r pos s rest c c1.
Proof. intro H. inversion H; subst. eauto. Qed.

Lemma captured_opt r pos s rest c c' :
  captured (Opt r) pos s rest c c' -> (s = [] /\ c' = c) \/ captured r pos s rest c c'.
Proof. intro H. inversion H; subst; auto. Qed.

(** A step through a part with no group: the text it matched, as the plain
    relation has it, and the captures untouched. *)
Lemma captured_plain r pos a rest c c' :
  groupless r = true -> captured r pos a rest c c' -> matches r pos a rest /\ c' = c.
Proof.
  intros G H. split; [eapply captured_matches; eauto | eapply captured_groupless; eauto].
Qed.

Lemma captured_clause_head (tail : regex) pos s rest c c' :
  captured (clause_head tail) pos s rest c c' ->
  exists f w1 w2 v p,
    is_field f /\ is_blank w1 /\ is_blank w2 /\
    s = f ++ w1 ++ lit "eq" ++ w2 ++ v /\ captured tail p v rest ((1%nat, f) :: c) c'.
Proof.
  unfold clause_head. intro H.
  apply captured_cat in H as (a0 & s0 & c0 & -> & H0 & H).
  apply captured_plain in H0 as [H0 ->]; [|reflexivity]. inversion H0; subst. clear H0.
  apply captured_cat in H as (f & s1 & c1 & -> & Hf & H).
  apply captured_group in Hf as (c2 & -> & Hf).
  apply captured_plain in Hf as [Hf ->]; [|reflexivity].
  apply matches_plus_class in Hf as [Hf1 Hf2].
  apply captured_cat in H as (w1 & s2 & c3 & -> & Hw1 & H).
  apply captured_plain in Hw1 as [Hw1 ->]; [|reflexivity]. apply matches_plus_class in Hw1.
  apply captured_cat in H as (e & s3 & c4 & -> & He & H).
  apply captured_plain in He as [He ->]; [|reflexivity]. apply matches_word_eq in He as ->.
  apply captured_cat in H as (w2 & v & c5 & -> & Hw2 & H).
  apply captured_plain in Hw2 as [Hw2 ->]; [|reflexivity]. apply matches_plus_class in Hw2.
  exists f, w1, w2, v. eexists. repeat split; try tauto; [|exact H].
  eapply Forall_impl; [|exact Hf2]. intros ch Hc. now rewrite <- field_char_word.
Qed.

Lemma regex_match_captured tail s m :
  regex_match (Cat Bol tail) s = Some m ->
  exists a rest, s = a ++ rest /\ captured (Cat Bol tail) 0 a rest [] m.
Proof.
  unfold regex_match. intro H.
  assert (E : rmatch (Cat Bol tail) s 0 [] (fun _ _ caps => Some caps) = Some m).
  { destruct s as [|c s]; simpl in H |- *.
    - now destruct (rmatch tail [] 0 [] (fun _ _ caps => Some caps)).
    - destruct (rmatch tail (c :: s) 0 [] (fun _ _ caps => Some caps)); [exact H|].
      rewrite exec_from_bol in H by discriminate. discriminate. }
  apply rmatch_captured in E as (a & rest & caps' & -> & Ha & E).
  inversion E; subst. eauto.
Qed.

(** The end of each pattern: nothing follows the literal. *)
Lemma captured_end pos s rest c c' :
  captured (Cat Eol Eps) pos s rest c c' -> s = [] /\ rest = [] /\ c' = c.
Proof.
  intro H. apply captured_plain in H as [H ->]; [|reflexivity].
  apply matches_cat in H as (z & s4 & -> & Hz & H). apply matches_eol in Hz as [-> Hnil].
  apply app_eq_nil in Hnil as [-> ->]. auto.
Qed.

Lemma number_body_literal pos v rest : matches number_body pos v rest -> number_literal v.
Proof.
  intro Hn. unfold number_body, Seq in Hn; simpl in Hn.
  apply matches_cat in Hn as (sign & n1 & -> & Hs & Hn).
  apply matches_cat in Hn as (whole & n2 & -> & Hw & Hn). apply matches_plus_class in Hw.
  apply matches_cat in Hn as (frac & n3 & -> & Hfr & Hn). apply matches_eps in Hn as ->.
  exists sign, whole, frac. rewrite app_nil_r. repeat split; try tauto.
  - apply matches_opt in Hs as [->|Hs]; [now left|].
    apply matches_class in Hs as (c & -> & Hc). apply orb_prop in Hc as [Hc|Hc];
      apply N.eqb_eq in Hc; subst; auto.
  - apply matches_opt in Hfr as [->|Hfr]; [now left|]. right.
    apply matches_group in Hfr.
    apply matches_cat in Hfr as (dot & d & -> & Hdot & Hd). apply matches_chr in Hdot as ->.
    apply matches_cat in Hd as (d1 & d2 & -> & Hd1 & Hd2). apply matches_eps in Hd2 as ->.
    apply matches_plus_class in Hd1. exists d1. rewrite app_nil_r. now split.
Qed.

Lemma date_body_literal pos v rest : matches date_body pos v rest -> date_literal v.
Proof.
  intro Hn. unfold date_body, Seq in Hn. cbn [fold_right] in Hn.
  apply matches_cat in Hn as (y & n1 & -> & Hy & Hn). apply matches_times_class in Hy as [Hy1 Hy2].
  apply matches_cat in Hn as (h1 & n2 & -> & Hh1 & Hn). apply matches_chr in Hh1 as ->.
  apply matches_cat in Hn as (mo & n3 & -> & Hm & Hn). apply matches_times_class in Hm as [Hm1 Hm2].
  apply matches_cat in Hn as (h2 & n4 & -> & Hh2 & Hn). apply matches_chr in Hh2 as ->.
  apply matches_cat in Hn as (d & n5 & -> & Hd & Hn). apply matches_times_class in Hd as [Hd1 Hd2].
  apply matches_eps in Hn as ->. rewrite !app_nil_r.
  exists y, mo, d. repeat split; auto. rewrite !Forall_app. tauto.
Qed.

(** Group 1 is read under the captures that the literal adds: group 2, and
    group 3 when the number has a fraction. *)
Lemma captured_number_body pos v rest c c' :
  captured number_body pos v rest c c' ->
  c' = c \/ exists frac, c' = (3%nat, frac) :: c.
Proof.
  intro Hn. unfold number_body, Seq in Hn; simpl in Hn.
  apply captured_cat in Hn as (sign & n1 & c1 & -> & Hs & Hn).
  apply captured_plain in Hs as [_ ->]; [|reflexivity].
  apply captured_cat in Hn as (whole & n2 & c2 & -> & Hw & Hn).
  apply captured_plain in Hw as [_ ->]; [|reflexivity].
  apply captured_cat in Hn as (frac & n3 & c3 & -> & Hfr & Hn).
  apply captured_plain in Hn as [_ ->]; [|reflexivity].
  apply captured_opt in Hfr as [[_ ->]|Hfr]; [now left|]. right.
  apply captured_group in Hfr as (c4 & -> & Hfr).
  apply captured_plain in Hfr as [_ ->]; [|reflexivity]. eauto.
Qed.

(** What each pattern captures: the field in group 1 and the literal, without
    its quotes when it is a string, in group 2; and the subject is the clause
    made of them. *)
Lemma string_captures t m :
  regex_match re_string t = Some m ->
  exists w1 w2 text,
    is_field (group 1 m) /\ is_blank w1 /\ is_blank w2 /\ ~ In quote text /\
    group 2 m = text /\
    t = group 1 m ++ w1 ++ lit "eq" ++ w2 ++ quote :: text ++ [quote].
Proof.
  intro H. change re_string with (clause_head string_tail) in H.
  apply regex_match_captured in H as (a & rest & -> & H).
  apply captured_clause_head in H as (f & w1 & w2 & v & p & Hf & Hw1 & Hw2 & -> & H).
  unfold string_tail in H.
  apply captured_cat in H as (q1 & s1 & c1 & -> & Hq1 & H).
  apply captured_plain in Hq1 as [Hq1 ->]; [|reflexivity]. apply matches_chr in Hq1 as ->.
  apply captured_cat in H as (text & s2 & c2 & -> & Ht & H).
  apply captured_group in Ht as (c3 & -> & Ht).
  apply captured_plain in Ht as [Ht ->]; [|reflexivity]. apply matches_star_class in Ht.
  apply captured_cat in H as (q2 & s3 & c4 & -> & Hq2 & H).
  apply captured_plain in Hq2 as [Hq2 ->]; [|reflexivity]. apply matches_chr in Hq2 as ->.
  apply captured_end in H as (-> & -> & ->).
  exists w1, w2, text. change (group 1 [(2%nat, text); (1%nat, f)]) with f.
  change (group 2 [(2%nat, text); (1%nat, f)]) with text.
  rewrite !app_nil_r.
  split; [exact Hf|]. split; [exact Hw1|]. split; [exact Hw2|].
  split; [|split; reflexivity].
  intro Hin. rewrite Forall_forall in Ht. apply Ht in Hin. now rewrite N.eqb_refl in Hin.
Qed.

Lemma number_captures t m :
  regex_match re_number t = Some m ->
  exists w1 w2,
    is_field (group 1 m) /\ is_blank w1 /\ is_blank w2 /\ number_literal (group 2 m) /\
    t = group 1 m ++ w1 ++ lit "eq" ++ w2 ++ group 2 m.
Proof.
  intro H. change re_number with (clause_head (Cat (Group 2 number_body) (Cat Eol Eps))) in H.
  apply regex_match_captured in H as (a & rest & -> & H).
  apply captured_clause_head in H as (f & w1 & w2 & v & p & Hf & Hw1 & Hw2 & -> & H).
  apply captured_cat in H as (n & s1 & c1 & -> & Hn & H).
  apply captured_group in Hn as (c2 & -> & Hn).
  apply captured_end in H as (-> & -> & ->).
  pose proof (number_body_literal _ _ _ (captured_matches _ _ _ _ _ _ Hn)) as Hl.
  exists w1, w2. rewrite !app_nil_r.
  apply captured_number_body in Hn as [->|[frac ->]];
    (split; [exact Hf|]; split; [exact Hw1|]; split; [exact Hw2|];
     split; [exact Hl | reflexivity]).
Qed.

Lemma date_captures t m :
  regex_match re_date t = Some m ->
  exists w1 w2,
    is_field (group 1 m) /\ is_blank w1 /\ is_blank w2 /\ date_literal (group 2 m) /\
    t = group 1 m ++ w1 ++ lit "eq" ++ w2 ++ group 2 m.
Proof.
  intro H. change re_date with (clause_head (Cat (Group 2 date_body) (Cat Eol Eps))) in H.
  apply regex_match_captured in H as (a & rest & -> & H).
  apply captured_clause_head in H as (f & w1 & w2 & v & p & Hf & Hw1 & Hw2 & -> & H).
  apply captured_cat in H as (n & s1 & c1 & -> & Hn & H).
  apply captured_group in Hn as (c2 & -> & Hn).
  apply captured_end in H as (-> & -> & ->).
  pose proof (date_body_literal _ _ _ (captured_matches _ _ _ _ _ _ Hn)) as Hl.
  apply captured_plain in Hn as [_ ->]; [|reflexivity].
  exists w1, w2. rewrite !app_nil_r.
  split; [exact Hf|]. split; [exact Hw1|]. split; [exact Hw2|].
  split; [exact Hl | reflexivity].
Qed.

Lemma parse_of_string z :
  parseSimpleFilter (VStr z)
  = match regex_match re_string (trim z) with
    | Some m => Ok (Some (ParsedFilter (group 1 m) (VStr (group 2 m)) (lit "string")))
    | None =>
        match regex_match re_number (trim z) with
        | Some m =>
            (n <- to_number (VStr (group 2 m)) ;;
             Ok (Some (ParsedFilter (group 1 m) (VNum n) (lit "number"))))%result
        | None =>
            match regex_match re_date (trim z) with
            | Some m => Ok (Some (ParsedFilter (group 1 m) (VStr (group 2 m)) (lit "date")))
            | None => Ok None
            end
        end
    end.
Proof. destruct z as [|c z]; reflexivity. Qed.

(** X17. A predicate is read off the filter text: when a filter parses, the
    filter without the whitespace around it is the predicate's field, some
    whitespace, [eq], some whitespace and a literal; the field is one or more
    word characters; and the predicate's value is the text between the quotes
    of a string literal, the number that a number literal denotes, or the text
    of a date literal, with the type saying which. *)
Theorem parseSimpleFilter_reads_the_clause (s : str) (pf : parsed_filter) :
  parseSimpleFilter (VStr s) = Ok (Some pf) ->
  is_field (pf_field pf) /\
  exists w1 w2 literal,
    is_blank w1 /\ is_blank w2 /\
    trim s = pf_field pf ++ w1 ++ lit "eq" ++ w2 ++ literal /\
    ((pf_type pf = lit "string" /\
      exists text, ~ In quote text /\ literal = quote :: text ++ [quote] /\
                   pf_value pf = VStr text)
     \/ (pf_type pf = lit "number" /\ number_literal literal /\
         pf_value pf = VNum (string_to_number literal))
     \/ (pf_type pf = lit "date" /\ date_literal literal /\ pf_value pf = VStr literal)).
Proof.
  rewrite parse_of_string.
  destruct (regex_match re_string (trim s)) as [m|] eqn:E1.
  { intro H. inversion H; subst pf. cbn [pf_field pf_value pf_type].
    apply string_captures in E1 as (w1 & w2 & text & Hf & Hw1 & Hw2 & Hq & Ht & E).
    split; [exact Hf|]. exists w1, w2, (quote :: text ++ [quote]).
    split; [exact Hw1|]. split; [exact Hw2|]. split; [exact E|].
    left. split; [reflexivity|]. exists text. rewrite Ht. auto. }
  destruct (regex_match re_number (trim s)) as [m|] eqn:E2.
  { cbn [to_number to_primitive rbind]. intro H. inversion H; subst pf.
    cbn [pf_field pf_value pf_type].
    apply number_captures in E2 as (w1 & w2 & Hf & Hw1 & Hw2 & Hl & E).
    split; [exact Hf|]. exists w1, w2, (group 2 m).
    split; [exact Hw1|]. split; [exact Hw2|]. split; [exact E|].
    right. left. auto. }
  destruct (regex_match re_date (trim s)) as [m|] eqn:E3; [|discriminate].
  intro H. inversion H; subst pf. cbn [pf_field pf_value pf_type].
  apply date_captures in E3 as (w1 & w2 & Hf & Hw1 & Hw2 & Hl & E).
  split; [exact Hf|]. exists w1, w2, (group 2 m).
  split; [exact Hw1|]. split; [exact Hw2|]. split; [exact E|].
  right. right. auto.
Qed.

Lemma parseSimpleFilter_reads_the_clause_witness :
  is_field (lit "amount") /\
  exists w1 w2 literal,
    is_blank w1 /\ is_blank w2 /\
    trim (lit " amount eq  -12.50 ") = lit "amount" ++ w1 ++ lit "eq" ++ w2 ++ literal /\
    ((lit "number" = lit "string" /\
      exists text, ~ In quote text /\ literal = quote :: text ++ [quote] /\
                   VNum (string_to_number (lit "-12.50")) = VStr text)
     \/ (lit "number" = lit "number" /\ number_literal literal /\
         VNum (string_to_number (lit "-12.50")) = VNum (string_to_number literal))
     \/ (lit "number" = lit "date" /\ date_literal literal /\
         VNum (string_to_number (lit "-12.50")) = VStr literal)).
Proof.
  exact (parseSimpleFilter_reads_the_clause (lit " amount eq  -12.50 ")
           (ParsedFilter (lit "amount") (VNum (string_to_number (lit "-12.50"))) (lit "number"))
           eq_refl).
Defined.

(* ===================================================================== *)
(** * Basic authentication *)
(* ===================================================================== *)

(** Induction on strings that takes a surrogate pair in one step. *)
Lemma pair_ind (P : str -> Prop) :
  P [] -> (forall c, P [c]) -> (forall c d s, P s -> P (d :: s) -> P (c :: d :: s)) ->
  forall s, P s.
Proof.
  intros H0 H1 H2 s. enough (P s /\ forall c, P (c :: s)) by tauto.
  induction s as [|d s [IH1 IH2]]; split; auto.
Qed.

Ltac euclid :=
  repeat match goal with
  | |- context [N.div ?a ?b] =>
      let q := fresh "q" in let r := fresh "r" in
      pose proof (N.div_mod a b ltac:(discriminate));
      pose proof (N.mod_lt a b ltac:(discriminate));
      set (q := N.div a b) in *; set (r := N.modulo a b) in *; clearbody q r
  | |- context [N.modulo ?a ?b] =>
      let q := fresh "q" in let r := fresh "r" in
      pose proof (N.div_mod a b ltac:(discriminate));
      pose proof (N.mod_lt a b ltac:(discriminate));
      set (q := N.div a b) in *; set (r := N.modulo a b) in *; clearbody q r
  | H : context [N.div ?a ?b] |- _ =>
      let q := fresh "q" in let r := fresh "r" in
      pose proof (N.div_mod a b ltac:(discriminate));
      pose proof (N.mod_lt a b ltac:(discriminate));
      set (q := N.div a b) in *; set (r := N.modulo a b) in *; clearbody q r
  | H : context [N.modulo ?a ?b] |- _ =>
      let q := fresh "q" in let r := fresh "r" in
      pose proof (N.div_mod a b ltac:(discriminate));
      pose proof (N.mod_lt a b ltac:(discriminate));
      set (q := N.div a b) in *; set (r := N.modulo a b) in *; clearbody q r
  end.

Lemma in_range_spec lo hi c : in_range lo hi c = true <-> (lo <= c /\ c <= hi)%N.
Proof.
  unfold in_range. rewrite andb_true_iff, !N.leb_le. tauto.
Qed.

Lemma in_range_false lo hi c : in_range lo hi c = false <-> (c < lo \/ hi < c)%N.
Proof.
  unfold in_range. rewrite andb_false_iff, !N.leb_gt. tauto.
Qed.

Lemma utf8_cons c s :
  utf8 (c :: s)
  = if is_high c then
      match s with
      | lo :: s'' =>
          if is_low lo
          then utf8_of_code_point (65536 + (c - 55296) * 1024 + (lo - 56320))%N ++ utf8 s''
          else replacement ++ utf8 s
      | [] => replacement
      end
    else if is_low c then replacement ++ utf8 s
    else utf8_of_code_point c ++ utf8 s.
Proof. reflexivity. Qed.

(** Reading back one code point of the Basic Multilingual Plane. *)
Lemma read_code_point cp bs :
  (cp < 65536)%N ->
  utf16_of_utf8 (utf8_of_code_point cp ++ bs) = cp :: utf16_of_utf8 bs.
Proof.
  intro H. unfold utf8_of_code_point.
  destruct (cp <? 128)%N eqn:E1.
  { cbn [app utf16_of_utf8]. now rewrite E1. }
  destruct (cp <? 2048)%N eqn:E2.
  { apply N.ltb_ge in E1. apply N.ltb_lt in E2. cbn [app utf16_of_utf8].
    replace (192 + cp / 64 <? 128)%N with false by (symmetry; apply N.ltb_ge; euclid; lia).
    replace (192 + cp / 64 <? 224)%N with true
      by (symmetry; apply N.ltb_lt; euclid; lia).
    f_equal. euclid. lia. }
  rewrite (proj2 (N.ltb_lt _ _) H).
  apply N.ltb_ge in E1, E2. cbn [app utf16_of_utf8].
  replace (224 + cp / 4096 <? 128)%N with false by (symmetry; apply N.ltb_ge; euclid; lia).
  replace (224 + cp / 4096 <? 224)%N with false by (symmetry; apply N.ltb_ge; euclid; lia).
  replace (224 + cp / 4096 <? 240)%N with true
    by (symmetry; apply N.ltb_lt; euclid; lia).
  f_equal. euclid. lia.
Qed.

(** Reading back a surrogate pair. *)
Lemma read_pair c lo bs :
  is_high c = true -> is_low lo = true ->
  utf16_of_utf8
    (utf8_of_code_point (65536 + (c - 55296) * 1024 + (lo - 56320))%N ++ bs)
  = c :: lo :: utf16_of_utf8 bs.
Proof.
  intros Hc Hl. apply in_range_spec in Hc, Hl.
  set (cp := (65536 + (c - 55296) * 1024 + (lo - 56320))%N).
  assert (Hcp : (65536 <= cp < 1114112)%N) by (unfold cp; lia).
  assert (Hv : (cp - 65536 = (c - 55296) * 1024 + (lo - 56320))%N) by (unfold cp; lia).
  unfold utf8_of_code_point.
  replace (cp <? 128)%N with false by (symmetry; apply N.ltb_ge; euclid; lia).
  replace (cp <? 2048)%N with false by (symmetry; apply N.ltb_ge; euclid; lia).
  replace (cp <? 65536)%N with false by (symmetry; apply N.ltb_ge; euclid; lia).
  cbn [app utf16_of_utf8].
  replace (240 + cp / 262144 <? 128)%N with false by (symmetry; apply N.ltb_ge; euclid; lia).
  replace (240 + cp / 262144 <? 224)%N with false by (symmetry; apply N.ltb_ge; euclid; lia).
  replace (240 + cp / 262144 <? 240)%N with false by (symmetry; apply N.ltb_ge; euclid; lia).
  cbv zeta.
  assert (E : ((240 + cp / 262144 - 240) * 262144 + (128 + (cp / 4096) mod 64 - 128) * 4096
               + (128 + (cp / 64) mod 64 - 128) * 64 + (128 + cp mod 64 - 128) - 65536
               = (c - 55296) * 1024 + (lo - 56320))%N).
  { rewrite <- Hv. clear Hv. clearbody cp. euclid. lia. }
  rewrite E. f_equal; [|f_equal].
  - clear E Hv. clearbody cp. euclid. lia.
  - clear E Hv. clearbody cp. euclid. lia.
Qed.

(** The encoding can be read back: a well-formed string is the text of its
    UTF-8 encoding. *)
Lemma utf8_read_back (s : str) : well_formed s = true -> utf16_of_utf8 (utf8 s) = s.
Proof.
  induction s as [ | c | c d s IH1 IH2 ] using pair_ind; intro W.
  - reflexivity.
  - cbn [well_formed] in W. rewrite utf8_cons.
    destruct (is_high c); [discriminate|].
    apply andb_prop in W as [W _]. apply andb_prop in W as [Wl Wc].
    apply negb_true_iff in Wl. rewrite Wl. apply N.ltb_lt in Wc.
    now rewrite read_code_point.
  - cbn [well_formed] in W. rewrite utf8_cons.
    destruct (is_high c) eqn:Hc.
    + apply andb_prop in W as [Wl W]. rewrite Wl.
      rewrite read_pair by assumption. now rewrite (IH1 W).
    + apply andb_prop in W as [W Wr]. apply andb_prop in W as [Wl Wc].
      apply negb_true_iff in Wl. rewrite Wl. apply N.ltb_lt in Wc.
      rewrite read_code_point by assumption. now rewrite (IH2 Wr).
Qed.

Lemma utf8_injective (a b : str) :
  well_formed a = true -> well_formed b = true -> utf8 a = utf8 b -> a = b.
Proof.
  intros Wa Wb E. rewrite <- (utf8_read_back a Wa), <- (utf8_read_back b Wb). now rewrite E.
Qed.

(** The bytes of a code point outside ASCII are all outside ASCII. *)
Lemma code_point_bytes cp :
  (128 <= cp)%N -> Forall (fun b => (128 <= b)%N) (utf8_of_code_point cp).
Proof.
  intro H. unfold utf8_of_code_point.
  replace (cp <? 128)%N with false by (symmetry; apply N.ltb_ge; lia).
  destruct (cp <? 2048)%N; [|destruct (cp <? 65536)%N];
    repeat constructor; euclid; lia.
Qed.

Lemma code_point_ascii cp : (cp < 128)%N -> utf8_of_code_point cp = [cp].
Proof.
  intro H. unfold utf8_of_code_point. now rewrite (proj2 (N.ltb_lt _ _) H).
Qed.

Lemma in_after_high_bytes k bytes rest :
  (k < 128)%N -> Forall (fun b => (128 <= b)%N) bytes ->
  (In k (bytes ++ rest) <-> In k rest).
Proof.
  intros Hk Hb. rewrite in_app_iff. split; [|auto].
  intros [H|H]; [|exact H]. rewrite Forall_forall in Hb. apply Hb in H. lia.
Qed.

(** One step of the encoding, as far as an ASCII byte can tell: either the
    head is that same ASCII unit, or the step adds bytes outside ASCII. *)
Lemma utf8_ascii (k : N) (s : str) : (k < 128)%N -> (In k (utf8 s) <-> In k s).
Proof.
  intro Hk.
  assert (R : Forall (fun b => (128 <= b)%N) replacement) by (now apply code_point_bytes).
  assert (Hone : forall c rest,
             is_high c = false -> is_low c = false ->
             (In k (utf8_of_code_point c ++ rest) <-> k = c \/ In k rest)).
  { intros c rest _ _. destruct (N.ltb_spec c 128) as [Hc|Hc].
    - rewrite code_point_ascii by assumption. simpl. split; intros [H|H]; auto.
    - rewrite in_after_high_bytes by (auto using code_point_bytes).
      split; [auto|]. intros [H|H]; [lia | exact H]. }
  induction s as [ | c | c d s IH1 IH2 ] using pair_ind.
  - reflexivity.
  - rewrite utf8_cons. destruct (is_high c) eqn:Hc.
    + apply in_range_spec in Hc. split.
      * intro H. rewrite Forall_forall in R. apply R in H. lia.
      * intros [H|[]]. lia.
    + destruct (is_low c) eqn:Hl.
      * apply in_range_spec in Hl. rewrite in_after_high_bytes by assumption.
        simpl. split; [tauto|]. intros [H|[]]. lia.
      * rewrite Hone by assumption. simpl. split; intros [H|H]; auto.
  - rewrite utf8_cons. destruct (is_high c) eqn:Hc.
    + apply in_range_spec in Hc. destruct (is_low d) eqn:Hd.
      * apply in_range_spec in Hd.
        rewrite in_after_high_bytes; [|assumption|apply code_point_bytes; lia].
        rewrite IH1. simpl. split; [tauto|]. intros [H|[H|H]]; [lia|lia|exact H].
      * rewrite in_after_high_bytes by assumption. rewrite IH2.
        split; [now right|]. intros [H|H]; [lia|exact H].
    + destruct (is_low c) eqn:Hl.
      * apply in_range_spec in Hl. rewrite in_after_high_bytes by assumption.
        rewrite IH2. split; [now right|]. intros [H|H]; [lia|exact H].
      * rewrite Hone by assumption. rewrite IH2.
        change (In k (c :: d :: s)) with (c = k \/ In k (d :: s)).
        split; (intros [H|H]; [left; now symmetry | now right]).
Qed.

(** A well-formed string cut at a unit that is no surrogate: both parts are
    well formed. *)
Lemma well_formed_split (a b : str) (c : N) :
  is_high c = false -> is_low c = false ->
  well_formed (a ++ c :: b) = true -> well_formed a = true /\ well_formed b = true.
Proof.
  intros Hh Hc.
  assert (B : well_formed (c :: b) = true -> well_formed b = true).
  { cbn [well_formed]. rewrite Hh. intro W. now apply andb_prop in W as [_ W]. }
  induction a as [ | x | x y a IH1 IH2 ] using pair_ind; intro W.
  - auto.
  - cbn [app well_formed] in W |- *. destruct (is_high x).
    + rewrite Hc in W. discriminate.
    + apply andb_prop in W as [W1 W2]. rewrite W1. auto.
  - cbn [app well_formed] in W |- *. destruct (is_high x).
    + apply andb_prop in W as [W1 W2]. rewrite W1. exact (IH1 W2).
    + apply andb_prop in W as [W1 W2]. rewrite W1.
      exact (IH2 W2).
Qed.

(** ** [safeEqual] on strings *)

Lemma safeEqual_strings (a b : str) :
  safeEqual (VStr a) (VStr b) = str_eqb (utf8 a) (utf8 b).
Proof.
  unfold safeEqual, timingSafeEqual. cbn [to_string rbind].
  destruct (Nat.eqb (length (utf8 a)) (length (utf8 b))) eqn:E; cbn [negb].
  - reflexivity.
  - symmetry. apply str_eqb_neq. intro H. rewrite H, Nat.eqb_refl in E. discriminate.
Qed.

Lemma safeEqual_utf8 (a b : str) :
  safeEqual (VStr a) (VStr b) = true <-> utf8 a = utf8 b.
Proof. rewrite safeEqual_strings. apply str_eqb_eq. Qed.

(** X18. On well-formed strings [safeEqual] is equality: it says yes exactly
    when the two strings are the same. *)
Theorem safeEqual_exact (a b : str) :
  well_formed a = true -> well_formed b = true ->
  (safeEqual (VStr a) (VStr b) = true <-> a = b).
Proof.
  intros Wa Wb. rewrite safeEqual_utf8. split.
  - now apply utf8_injective.
  - now intros ->.
Qed.

Lemma safeEqual_exact_witness :
  safeEqual (VStr (lit "s3cret")) (VStr (lit "s3cret!")) = true <-> lit "s3cret" = lit "s3cret!".
Proof.
  apply safeEqual_exact; reflexivity.
Defined.

(** ** The pieces of the decoded credentials *)

Lemma split_cases (sep : N) (d : str) :
  exists f rest,
    split sep d = f :: rest /\ ~ In sep f /\
    ((rest = [] /\ d = f) \/ (exists t, d = f ++ sep :: t /\ rest = split sep t)).
Proof.
  induction d as [|c d (f & rest & Es & Hf & IH)].
  - exists [], []. simpl. auto.
  - simpl. destruct (N.eqb c sep) eqn:E.
    + apply N.eqb_eq in E. subst c. exists [], (split sep d).
      split; [reflexivity|]. split; [auto|]. right. now exists d.
    + apply N.eqb_neq in E. rewrite Es. exists (c :: f), rest.
      split; [reflexivity|]. split.
      * intros [H|H]; [now apply E | now apply Hf].
      * destruct IH as [[-> ->]|(t & -> & ->)]; [now left|]. right. now exists t.
Qed.

(** Joining the pieces with the separator gives the text back. *)
Lemma join_split (sep : N) (s : str) : join [sep] (split sep s) = s.
Proof.
  induction s as [|c s IH]; [reflexivity|]. simpl split.
  destruct (split_cases sep s) as (f & rest & Es & _ & _). rewrite Es in IH |- *.
  destruct (N.eqb c sep) eqn:E.
  - apply N.eqb_eq in E. subst c.
    change (join [sep] ([] :: f :: rest)) with (sep :: join [sep] (f :: rest)).
    now rewrite IH.
  - destruct rest as [|r rest].
    + cbn [join] in IH |- *. now rewrite IH.
    + change (join [sep] ((c :: f) :: r :: rest)) with (c :: join [sep] (f :: r :: rest)).
      now rewrite IH.
Qed.

Lemma truthy_str (u : str) : u <> [] -> truthy (VStr u) = true.
Proof. destruct u; [contradiction | reflexivity]. Qed.

(** With both credentials configured, a request goes through exactly when
    its header starts with [Basic ] and the decoded text splits into pieces of
    which the first encodes like the user name and the others, joined again,
    like the password. *)
Ltac refused :=
  let H := fresh in intro H; unfold unauthorized in H; discriminate H.

Lemma requireBasicAuth_configured (from_base64 : str -> result str) (u p : str)
    (authorization : option str) :
  u <> [] -> p <> [] ->
  (requireBasicAuth from_base64 (Some u) (Some p) authorization = Next <->
   exists b d f rest,
     authorization = Some (lit "Basic " ++ b) /\ from_base64 b = Ok d /\
     split 58 d = f :: rest /\ utf8 f = utf8 u /\ utf8 (join (lit ":") rest) = utf8 p).
Proof.
  intros Hu Hp. unfold requireBasicAuth. cbn [env].
  rewrite (truthy_str u Hu), (truthy_str p Hp). cbn [negb orb].
  split.
  - destruct authorization as [a|]; cbn [env]; [|refused].
    destruct (truthy (VStr a)); cbn [negb orb]; [|refused].
    destruct (starts_with a (lit "Basic ")) eqn:Es; cbn [negb]; [|refused].
    apply starts_with_prefix in Es as [b ->].
    change (skipn (length (lit "Basic ")) (lit "Basic " ++ b)) with b.
    destruct (from_base64 b) as [d|e] eqn:Ed; [|refused].
    destruct (split_cases 58 d) as (f & rest & Es & _ & _). rewrite Es. cbn [shift].
    destruct (safeEqual (VStr f) (VStr u)) eqn:E1; cbn [andb]; [|refused].
    destruct (safeEqual (VStr (join (lit ":") rest)) (VStr p)) eqn:E2; [|refused].
    intros _. apply safeEqual_utf8 in E1, E2. exists b, d, f, rest. auto.
  - intros (b & d & f & rest & -> & Ed & Es & E1 & E2). cbn [env].
    change (truthy (VStr (lit "Basic " ++ b))) with true.
    replace (starts_with (lit "Basic " ++ b) (lit "Basic ")) with true
      by (symmetry; apply starts_with_prefix; now exists b).
    cbn [negb orb].
    change (skipn (length (lit "Basic ")) (lit "Basic " ++ b)) with b.
    rewrite Ed, Es. cbn [shift].
    apply safeEqual_utf8 in E1, E2. now rewrite E1, E2.
Qed.

Lemma requireBasicAuth_outcomes (from_base64 : str -> result str)
    (user pass authorization : option str) :
  requireBasicAuth from_base64 user pass authorization = Next
  \/ requireBasicAuth from_base64 user pass authorization = unauthorized.
Proof.
  unfold requireBasicAuth.
  destruct (negb (truthy (env user)) || negb (truthy (env pass)))%bool; [now left|].
  destruct authorization as [a|]; cbn [env]; [|now right].
  destruct (negb (truthy (VStr a)) || negb (starts_with a (lit "Basic ")))%bool; [now right|].
  destruct (from_base64 _); [|now right].
  destruct (shift _) as [usr rest].
  destruct (safeEqual usr _ && safeEqual _ _)%bool; auto.
Qed.

(** X19. Who gets in. With a user name and a password configured, both
    well formed, and a decoder that gives well-formed text, a request passes
    the middleware exactly when the user name has no colon in it and the
    request's header is [Basic ] followed by credentials that decode to the
    user name, a colon and the password. The password may contain colons. *)
Theorem basic_auth_grants (from_base64 : str -> result str) (u p : str)
    (authorization : option str) :
  u <> [] -> p <> [] -> well_formed u = true -> well_formed p = true ->
  (forall b d, from_base64 b = Ok d -> well_formed d = true) ->
  (requireBasicAuth from_base64 (Some u) (Some p) authorization = Next <->
   ~ In 58%N u /\
   exists b, authorization = Some (lit "Basic " ++ b) /\
             from_base64 b = Ok (u ++ 58%N :: p)).
Proof.
  intros Hu Hp Wu Wp Wd. rewrite requireBasicAuth_configured by assumption. split.
  - intros (b & d & f & rest & -> & Ed & Es & E1 & E2).
    destruct (split_cases 58 d) as (f' & rest' & Es' & Hf & Hcase).
    rewrite Es in Es'. inversion Es'; subst f' rest'. clear Es'.
    pose proof (Wd _ _ Ed) as W.
    destruct Hcase as [[-> ->]|(t & -> & ->)].
    + exfalso. apply Hp. apply (utf8_injective p []); auto.
    + change (lit ":") with [58%N] in E2. rewrite join_split in E2.
      apply well_formed_split in W as [Wf Wt]; [|reflexivity|reflexivity].
      apply utf8_injective in E1; [|assumption|assumption].
      apply utf8_injective in E2; [|assumption|assumption].
      subst f t. split; [exact Hf|]. now exists b.
  - intros (Hc & b & -> & Ed). exists b, (u ++ 58%N :: p), u, (split 58 p).
    split; [reflexivity|]. split; [exact Ed|]. split; [now apply split_at|].
    split; [reflexivity|]. change (lit ":") with [58%N]. now rewrite join_split.
Qed.

Lemma basic_auth_grants_witness :
  requireBasicAuth
    (fun b => if str_eqb b (lit "YWRtaW46cGE6c3M=") then Ok (lit "admin:pa:ss") else Ok [])
    (Some (lit "admin")) (Some (lit "pa:ss")) (Some (lit "Basic YWRtaW46cGE6c3M=")) = Next.
Proof.
  apply basic_auth_grants.
  - discriminate.
  - discriminate.
  - reflexivity.
  - reflexivity.
  - intros b d. cbv beta. destruct (str_eqb b (lit "YWRtaW46cGE6c3M="));
      intro H; inversion H; reflexivity.
  - split.
    + vm_compute. intuition discriminate.
    + exists (lit "YWRtaW46cGE6c3M="). split; reflexivity.
Defined.

(** X20. A colon in the configured user name locks everybody out: with such
    a user name and a password configured, every request is answered 401,
    whatever its header and whatever the header decodes to. *)
Theorem colon_in_user_name (from_base64 : str -> result str) (u p : str)
    (authorization : option str) :
  In 58%N u -> p <> [] ->
  requireBasicAuth from_base64 (Some u) (Some p) authorization = unauthorized.
Proof.
  intros Hc Hp.
  destruct (requireBasicAuth_outcomes from_base64 (Some u) (Some p) authorization)
    as [H|H]; [|exact H].
  exfalso. apply requireBasicAuth_configured in H; [|now destruct u|exact Hp].
  destruct H as (b & d & f & rest & _ & _ & Es & E1 & _).
  destruct (split_cases 58 d) as (f' & rest' & Es' & Hf & _).
  rewrite Es in Es'. inversion Es'; subst f' rest'.
  apply Hf. apply (utf8_ascii 58); [reflexivity|]. rewrite E1.
  now apply (utf8_ascii 58).
Qed.

Lemma colon_in_user_name_witness :
  requireBasicAuth (fun b => Ok (lit "ops:team:pw")) (Some (lit "ops:team")) (Some (lit "pw"))
    (Some (lit "Basic b3BzOnRlYW06cHc=")) = unauthorized.
Proof.
  apply colon_in_user_name; [|discriminate].
  right. right. right. now left.
Defined.
